(** * Karpathy policy-gradient learner (src/Karpathy.py): a shallow embedding

    The learner is numerical Python on top of numpy.  The embedding keeps the
    structure of the source:

    - numpy scalars are values of [npfloat]: a real number, or one of the three
      IEEE special values (+inf, -inf, NaN).  Arithmetic on finite values is
      exact real arithmetic (no rounding, no overflow, a single zero); the
      special values follow IEEE-754, so that a division by zero behaves as it
      does in numpy (it yields NaN or an infinity and the computation goes on).
      The theorems on values are therefore of two kinds: those that give the
      formula the code computes (its float64 value is that formula, rounded),
      and those on shapes, calls, exceptions, signs and bounds, which are
      stated so that they do not depend on the absence of rounding;
    - numpy arrays are lists (1-D) or a shape with a list of rows (2-D);
    - Python exceptions are the [Err] results of an error monad;
    - the environment, the reporter and the random source are explicit state.
*)

From Stdlib Require Import Reals Lra Lia List ZArith Bool PeanoNat.
Import ListNotations.

Set Implicit Arguments.

(** ** Python exceptions as an error monad *)

Inductive exn : Type :=
| ValueError            (* numpy: shapes not aligned, not a probability vector *)
| IndexError            (* numpy: boolean index of the wrong shape *)
| ZeroDivisionError     (* Python: integer modulo by zero *)
| EnvError (code : nat) (* an exception raised by the environment *).

Inductive result (A : Type) : Type :=
| Ok (a : A)
| Err (e : exn).
Arguments Ok {A} a.
Arguments Err {A} e.

(** ** numpy scalars *)

Inductive npfloat : Type :=
| Fin (r : R)
| PInf
| NInf
| NaN.

Definition Rsign (r : R) : comparison :=
  if Rlt_dec r 0 then Lt else if Rlt_dec 0 r then Gt else Eq.

Definition fsign (x : npfloat) : comparison :=
  match x with
  | Fin r => Rsign r
  | PInf => Gt
  | NInf => Lt
  | NaN => Eq
  end.

(** The infinity of a given sign; the sign [Eq] stands for an undefined
    result (0 * inf, 0 / 0). *)
Definition inf_of (c : comparison) : npfloat :=
  match c with
  | Gt => PInf
  | Lt => NInf
  | Eq => NaN
  end.

Definition sign_mul (a b : comparison) : comparison :=
  match a, b with
  | Eq, _ | _, Eq => Eq
  | Gt, Gt | Lt, Lt => Gt
  | _, _ => Lt
  end.

Definition fneg (x : npfloat) : npfloat :=
  match x with
  | Fin r => Fin (- r)
  | PInf => NInf
  | NInf => PInf
  | NaN => NaN
  end.

Definition fadd (x y : npfloat) : npfloat :=
  match x, y with
  | NaN, _ | _, NaN => NaN
  | Fin a, Fin b => Fin (a + b)
  | PInf, NInf | NInf, PInf => NaN
  | PInf, _ | _, PInf => PInf
  | NInf, _ | _, NInf => NInf
  end.

Definition fsub (x y : npfloat) : npfloat := fadd x (fneg y).

Definition fmul (x y : npfloat) : npfloat :=
  match x, y with
  | NaN, _ | _, NaN => NaN
  | Fin a, Fin b => Fin (a * b)
  | _, _ => inf_of (sign_mul (fsign x) (fsign y))
  end.

Definition fdiv (x y : npfloat) : npfloat :=
  match x, y with
  | NaN, _ | _, NaN => NaN
  | Fin a, Fin b => if Req_dec_T b 0 then inf_of (Rsign a) else Fin (a / b)
  | Fin _, _ => Fin 0
  | _, Fin b => inf_of (sign_mul (fsign x) (if Rlt_dec b 0 then Lt else Gt))
  | _, _ => NaN
  end.

Definition fsqrt (x : npfloat) : npfloat :=
  match x with
  | Fin a => if Rlt_dec a 0 then NaN else Fin (sqrt a)
  | PInf => PInf
  | _ => NaN
  end.

Definition fexp (x : npfloat) : npfloat :=
  match x with
  | Fin a => Fin (exp a)
  | PInf => PInf
  | NInf => Fin 0
  | NaN => NaN
  end.

(** Comparisons: every comparison with NaN is false. *)
Definition flt (x y : npfloat) : bool :=
  match x, y with
  | NaN, _ | _, NaN => false
  | Fin a, Fin b => if Rlt_dec a b then true else false
  | PInf, _ | _, NInf => false
  | NInf, _ | _, PInf => true
  end.

Definition fle (x y : npfloat) : bool :=
  match x, y with
  | NaN, _ | _, NaN => false
  | Fin a, Fin b => if Rle_dec a b then true else false
  | NInf, _ | _, PInf => true
  | _, _ => false
  end.

Definition fzero : npfloat := Fin 0.
Definition fone : npfloat := Fin 1.

(** ** numpy arrays *)

(** A 1-D array. *)
Abbreviation vec := (list npfloat).

(** A 2-D array: its shape and its rows. *)
Record ndarray : Type := mkArr {
  nrows : nat;
  ncols : nat;
  rows : list vec
}.

Definition wf (a : ndarray) : Prop :=
  length (rows a) = nrows a /\ Forall (fun r => length r = ncols a) (rows a).

(** [a[i, j]] *)
Definition get (a : ndarray) (i j : nat) : npfloat :=
  nth j (nth i (rows a) []) fzero.

Definition same_shape (a b : ndarray) : bool :=
  (nrows a =? nrows b)%nat && (ncols a =? ncols b)%nat.

(** [np.array(rows)] for a non-empty list of equally long 1-D arrays. *)
Definition np_array (l : list vec) : ndarray :=
  mkArr (length l) (length (hd [] l)) l.

(** [np.zeros_like(a)] *)
Definition np_zeros_like (a : ndarray) : ndarray :=
  mkArr (nrows a) (ncols a) (repeat (repeat fzero (ncols a)) (nrows a)).

(** [np.sum(v)] of a 1-D array. *)
Definition np_sum (v : vec) : npfloat := fold_left fadd v fzero.

(** Element by element, up to the shorter list. *)
Fixpoint zip_with {A B C} (f : A -> B -> C) (u : list A) (v : list B) : list C :=
  match u, v with
  | a :: u', b :: v' => f a b :: zip_with f u' v'
  | _, _ => []
  end.

(** The inner product of two 1-D arrays of the same length. *)
Definition inner (u v : vec) : npfloat := np_sum (zip_with fmul u v).

Definition column (j : nat) (a : ndarray) : vec :=
  map (fun r => nth j r fzero) (rows a).

(** [a.T] *)
Definition np_T (a : ndarray) : ndarray :=
  mkArr (ncols a) (nrows a) (map (fun j => column j a) (seq 0 (ncols a))).

(** The matrix product, row by column. *)
Definition matmul (a b : ndarray) : ndarray :=
  mkArr (nrows a) (ncols b)
    (map (fun r => map (fun j => inner r (column j b)) (seq 0 (ncols b)))
         (rows a)).

(** [np.dot(a, b)] for 2-D [a] and [b]: ValueError when the shapes are not
    aligned. *)
Definition np_dot (a b : ndarray) : result ndarray :=
  if (ncols a =? nrows b)%nat then Ok (matmul a b) else Err ValueError.

(** The product of a row vector and a matrix. *)
Definition vecmat (v : vec) (b : ndarray) : vec :=
  map (fun j => inner v (column j b)) (seq 0 (ncols b)).

(** [np.dot(v, b)] for a 1-D [v] and a 2-D [b]. *)
Definition np_dot_vec (v : vec) (b : ndarray) : result vec :=
  if (length v =? nrows b)%nat then Ok (vecmat v b) else Err ValueError.

(** Element-wise operations; the binary ones need arrays of one shape
    (no broadcasting is involved in this program). *)
Definition map_arr (f : npfloat -> npfloat) (a : ndarray) : ndarray :=
  mkArr (nrows a) (ncols a) (map (map f) (rows a)).

Definition zip_rows (f : npfloat -> npfloat -> npfloat) (a b : ndarray) : ndarray :=
  mkArr (nrows a) (ncols a) (zip_with (zip_with f) (rows a) (rows b)).

Definition zip_arr (f : npfloat -> npfloat -> npfloat) (a b : ndarray)
  : result ndarray :=
  if same_shape a b then Ok (zip_rows f a b) else Err ValueError.

(** One entry of [d[m <= 0] = 0]. *)
Definition relu_gate (mv dv : npfloat) : npfloat :=
  if fle mv fzero then fzero else dv.

(** [d[m <= 0] = 0], the boolean-mask assignment of [backward_step]:
    IndexError when the mask has another shape than [d]. *)
Definition mask_nonpos (m d : ndarray) : result ndarray :=
  if same_shape m d then Ok (zip_rows relu_gate m d) else Err IndexError.

(** [np.mean(v)] and [np.std(v)] of a 1-D array (population standard
    deviation: the square root of the mean of the squared deviations). *)
Definition np_mean (v : vec) : npfloat :=
  fdiv (np_sum v) (Fin (INR (length v))).

Definition np_std (v : vec) : npfloat :=
  let m := np_mean v in
  fsqrt (np_mean (map (fun x => fmul (fsub x m) (fsub x m)) v)).

(** [a[i] = x] on a 1-D array: IndexError out of range. *)
Fixpoint set_item (v : vec) (i : nat) (x : npfloat) : result vec :=
  match v, i with
  | [], _ => Err IndexError
  | _ :: v', O => Ok (x :: v')
  | y :: v', S i' =>
      match set_item v' i' x with
      | Ok r => Ok (y :: r)
      | Err e => Err e
      end
  end.

(** ** The random source and [np.random.choice]

    [np.random] is a process-wide generator: a stream of uniform samples of
    [0, 1), consumed one at a time. *)
Definition RandomState : Type := nat -> R.

Definition random_sample (g : RandomState) : R * RandomState :=
  (g 0%nat, fun k => g (S k)).

(** numpy's tolerance on the sum of a probability vector: the square root
    of the float64 machine epsilon, 2^-26. *)
Definition atol : R := (/ 67108864)%R.

(** The validation of [np.random.choice(n, p=p)], after numpy's
    documentation (ValueError if [p] is not a vector of probabilities, or if
    [n] and [p] differ in size): it raises unless [n] is positive, [p] has
    [n] entries, none is negative, and they sum to 1 within [atol] (a NaN or
    infinite sum fails). *)
Definition is_probability_vector (n : nat) (p : vec) : bool :=
  (0 <? n)%nat && (length p =? n)%nat
  && forallb (fun x => negb (flt x fzero)) p
  && match np_sum p with
     | Fin s => if Rle_dec (Rabs (s - 1)) atol then true else false
     | _ => false
     end.

Fixpoint cumsum_from (acc : npfloat) (p : vec) : vec :=
  match p with
  | [] => []
  | x :: p' => fadd acc x :: cumsum_from (fadd acc x) p'
  end.

(** [p.cumsum()] *)
Definition np_cumsum (p : vec) : vec := cumsum_from fzero p.

(** [cdf.searchsorted(u, side='right')] on a sorted array: the index of the
    first entry greater than [u]. *)
Fixpoint searchsorted_right (cdf : vec) (u : R) : nat :=
  match cdf with
  | [] => O
  | c :: cs => if fle c (Fin u) then S (searchsorted_right cs u) else O
  end.

(** [np.random.choice(n, p=p)] with the uniform sample [u]: the inverse of
    the normalised cumulative distribution at [u]. *)
Definition np_random_choice (n : nat) (p : vec) (u : R) : result nat :=
  if is_probability_vector n p then
    let cdf := np_cumsum p in
    let cdf := map (fun c => fdiv c (last cdf fzero)) cdf in
    Ok (searchsorted_right cdf u)
  else Err ValueError.

(** ** Module-level functions of Karpathy.py *)

(** [sigmoid(x)]: [1.0 / (1.0 + np.exp(-x))], element-wise. *)
Definition sigmoid1 (x : npfloat) : npfloat :=
  fdiv fone (fadd fone (fexp (fneg x))).

Definition sigmoid (x : vec) : vec := map sigmoid1 x.

(** Modelled from the spec: [utils.discount_rewards] is not among the
    sources.  Spec 4.4, step 1: [G_t = r_t + discount_factor * G_{t+1}] for
    [t] from [T-1] down to [0], with [G_T = 0]. *)
Fixpoint discount_rewards (rewards : vec) (discount_factor : npfloat) : vec :=
  match rewards with
  | [] => []
  | r :: rs =>
      let gs := discount_rewards rs discount_factor in
      fadd r (fmul discount_factor (hd fzero gs)) :: gs
  end.

(** ** The learner, its environment and the state of the process *)

Record config : Type := mkConfig {
  gamma : npfloat;
  learning_rate : npfloat;
  batch_size : Z;          (* episodes per weight update *)
  decay_rate : npfloat;    (* RMSProp *)
  n_hidden_units : nat;
  draw_frequency : Z;
  repeat_n_actions : nat;
  episode_max_length : nat
}.

(** What the learner observes of its collaborators: the calls it makes on
    the environment and on the reporter, in order. *)
Inductive event : Type :=
| EvReset
| EvStep (action : nat) (done : bool)
| EvRender
| EvPrintIterationStats (iteration : Z) (episode_rewards episode_lengths : vec)
                        (episode_nr : Z)
| EvDrawRewards (mean_rewards : vec).

(** A gym environment with internal state [S]. *)
Record Env (S : Type) : Type := mkEnv {
  env_reset : S -> result (S * vec);
  env_step : S -> nat -> result (S * (vec * npfloat * bool));
  env_render : S -> result S
}.

(** The fields of [self] ([w1], [w2], [nO], [nA], [config], the state of
    [self.env]) and the process-wide state (random source, calls made). *)
Record World (S : Type) : Type := mkWorld {
  w1 : ndarray;
  w2 : ndarray;
  nO : nat;
  nA : nat;
  cfg : config;
  env_st : S;
  rng : RandomState;
  trace : list event
}.

Definition set_w1 {S} (a : ndarray) (w : World S) : World S :=
  mkWorld a (w2 w) (nO w) (nA w) (cfg w) (env_st w) (rng w) (trace w).
Definition set_w2 {S} (a : ndarray) (w : World S) : World S :=
  mkWorld (w1 w) a (nO w) (nA w) (cfg w) (env_st w) (rng w) (trace w).
Definition set_env_st {S} (s : S) (w : World S) : World S :=
  mkWorld (w1 w) (w2 w) (nO w) (nA w) (cfg w) s (rng w) (trace w).
Definition set_rng {S} (g : RandomState) (w : World S) : World S :=
  mkWorld (w1 w) (w2 w) (nO w) (nA w) (cfg w) (env_st w) g (trace w).
Definition add_event {S} (e : event) (w : World S) : World S :=
  mkWorld (w1 w) (w2 w) (nO w) (nA w) (cfg w) (env_st w) (rng w) (trace w ++ [e]).

(** ** The state and exception monad of the methods *)

Definition M (S A : Type) : Type := World S -> result (A * World S).

Definition ret {S A} (a : A) : M S A := fun w => Ok (a, w).

Definition bind {S A B} (m : M S A) (k : A -> M S B) : M S B :=
  fun w =>
    match m w with
    | Ok (a, w') => k a w'
    | Err e => Err e
    end.

Definition raise {S A} (e : exn) : M S A := fun _ => Err e.

Definition lift {S A} (r : result A) : M S A :=
  fun w =>
    match r with
    | Ok a => Ok (a, w)
    | Err e => Err e
    end.

Definition gets {S A} (f : World S -> A) : M S A := fun w => Ok (f w, w).

Definition modify {S} (f : World S -> World S) : M S unit :=
  fun w => Ok (tt, f w).

Notation "x <- m ;; k" := (bind m (fun x => k))
  (at level 61, m at next level, right associativity).
Notation "' p <- m ;; k" := (bind m (fun x => match x with p => k end))
  (at level 61, p pattern, m at next level, right associativity).
Notation "m ;;; k" := (bind m (fun _ => k))
  (at level 61, right associativity).

(** [random_with_probability(output, n_actions)]: a linear renormalisation
    of the scores (the softmax is commented out in the source), then a draw
    from [np.random.choice]. *)
Definition random_with_probability {S} (output : vec) (n_actions : nat)
  : M S (nat * vec) :=
  let probs := map (fun o => fdiv o (np_sum output)) output in
  g <- gets (@rng S) ;;
  let (u, g') := random_sample g in
  action <- lift (np_random_choice n_actions probs u) ;;
  modify (set_rng g') ;;;
  ret (action, probs).

(** The dictionary returned by [get_trajectory]. *)
Record trajectory : Type := mkTrajectory {
  t_reward : vec;
  t_state : ndarray;
  t_action : list nat;
  t_prob : ndarray;
  t_x1 : ndarray
}.

(** The five lists [get_trajectory] appends to. *)
Record buffers : Type := mkBuffers {
  b_states : list vec;
  b_actions : list nat;
  b_rewards : list npfloat;
  b_episode_probabilities : list vec;
  b_x1s : list vec
}.

Definition empty_buffers : buffers := mkBuffers [] [] [] [] [].

(** The local variables of [learn]. *)
Record locals : Type := mkLocals {
  gradient1 : ndarray;
  gradient2 : ndarray;
  rmsprop1 : ndarray;
  rmsprop2 : ndarray;
  iteration : Z;
  episode_nr : Z;
  episode_lengths : vec;
  episode_rewards : vec;
  mean_rewards : vec
}.

(** The one-hot encoding [(np.arange(nA) == action[:, None])]. *)
Definition one_hot (n : nat) (a : nat) : vec :=
  map (fun k => if (k =? a)%nat then fone else fzero) (seq 0 n).

(** Python's [a % b] on integers. *)
Definition py_mod {S} (a b : Z) : M S Z :=
  if (b =? 0)%Z then raise ZeroDivisionError else ret (a mod b)%Z.

Section KPLearner.

Variable S : Type.
Variable env : Env S.

(** *** Calls on the collaborators *)

Definition call_reset : M S vec :=
  fun w =>
    match env_reset env (env_st w) with
    | Ok (s, obs) => Ok (obs, add_event EvReset (set_env_st s w))
    | Err e => Err e
    end.

Definition call_step (action : nat) : M S (vec * npfloat * bool) :=
  fun w =>
    match env_step env (env_st w) action with
    | Ok (s, (obs, rew, done)) =>
        Ok ((obs, rew, done), add_event (EvStep action done) (set_env_st s w))
    | Err e => Err e
    end.

Definition call_render : M S unit :=
  fun w =>
    match env_render env (env_st w) with
    | Ok s => Ok (tt, add_event EvRender (set_env_st s w))
    | Err e => Err e
    end.

(** *** [KPLearner.forward_step] *)
Definition forward_step (state : vec) : M S (vec * vec) :=
  W1 <- gets (@w1 S) ;;
  x1 <- lift (np_dot_vec state W1) ;;
  let x1 := map (fun v => if flt v fzero then fzero else v) x1 in (* ReLU *)
  W2 <- gets (@w2 S) ;;
  z <- lift (np_dot_vec x1 W2) ;;
  ret (x1, sigmoid z).

(** *** [KPLearner.choose_action] *)
Definition choose_action (state : vec) : M S (nat * vec * vec) :=
  ' (x1, nn_outputs) <- forward_step state ;;
  n <- gets (@nA S) ;;
  ' (action, probabilities) <- random_with_probability nn_outputs n ;;
  ret (action, probabilities, x1).

(** *** [KPLearner.backward_step] *)
Definition backward_step (x0 x1 feedback : ndarray) : M S (ndarray * ndarray) :=
  change_w2 <- lift (np_dot (np_T x1) feedback) ;;
  W2 <- gets (@w2 S) ;;
  dh <- lift (np_dot feedback (np_T W2)) ;;
  dh <- lift (mask_nonpos x1 dh) ;;
  change_w1 <- lift (np_dot (np_T x0) dh) ;;
  ret (change_w1, change_w2).

(** *** [KPLearner.get_trajectory] *)

(** The [for _ in range(n)] loop; [state] and the five lists are its
    variables. *)
Fixpoint trajectory_loop (n : nat) (render : bool) (state : vec) (b : buffers)
  : M S buffers :=
  match n with
  | O => ret b
  | Datatypes.S n' =>
      ' (action, probabilities, x1) <- choose_action state ;;
      let x1s := b_x1s b ++ [x1] in
      let states := b_states b ++ [state] in
      ' (state', rew, done) <- call_step action ;;
      let b' := mkBuffers states (b_actions b ++ [action]) (b_rewards b ++ [rew])
                  (b_episode_probabilities b ++ [probabilities]) x1s in
      if done then ret b'
      else
        (if render then call_render else ret tt) ;;;
        trajectory_loop n' render state' b'
  end.

Definition get_trajectory (render : bool) : M S trajectory :=
  state <- call_reset ;;
  n <- gets (fun w => episode_max_length (cfg w)) ;;
  b <- trajectory_loop n render state empty_buffers ;;
  ret (mkTrajectory (b_rewards b) (np_array (b_states b)) (b_actions b)
         (np_array (b_episode_probabilities b)) (np_array (b_x1s b))).

(** *** [KPLearner.learn] *)

(** Lines 140-141: the returns are centred, then divided by the standard
    deviation of the centred array. *)
Definition standardize (d : vec) : vec :=
  let centred := map (fun x => fsub x (np_mean d)) d in
  map (fun x => fdiv x (np_std centred)) centred.

(** Lines 132-144: the gradient of one episode. *)
Definition episode_gradient (tr : trajectory) : M S (ndarray * ndarray) :=
  n <- gets (@nA S) ;;
  let action_taken :=
    mkArr (length (t_action tr)) n (map (one_hot n) (t_action tr)) in
  epdlogp <- lift (zip_arr fsub action_taken (t_prob tr)) ;;
  g <- gets (fun w => gamma (cfg w)) ;;
  let discounted_episode_rewards :=
    standardize (discount_rewards (t_reward tr) g) in
  let scale :=
    mkArr (length discounted_episode_rewards) n
      (map (fun d => repeat d n) discounted_episode_rewards) in
  epdlogp <- lift (zip_arr fmul epdlogp scale) ;;
  backward_step (t_state tr) (t_x1 tr) epdlogp.

(** [a[i] = x] with a Python integer index (negative indices count from
    the end). *)
Definition set_item_z (v : vec) (i : Z) (x : npfloat) : result vec :=
  let k := if (i <? 0)%Z then (Z.of_nat (length v) + i)%Z else i in
  if (k <? 0)%Z then Err IndexError else set_item v (Z.to_nat k) x.

(** Lines 151-152: [decay * cache + (1 - decay) * gradient**2]. *)
Definition rmsprop_update (decay : npfloat) (cache g : ndarray) : result ndarray :=
  zip_arr fadd (map_arr (fmul decay) cache)
    (map_arr (fmul (fsub fone decay)) (map_arr (fun x => fmul x x) g)).

Definition epsilon : npfloat := Fin (/ 100000).

(** Lines 153-154: [learning_rate * gradient / (np.sqrt(cache) + 1e-5)]. *)
Definition weight_delta (lr : npfloat) (g cache : ndarray) : result ndarray :=
  zip_arr fdiv (map_arr (fmul lr) g)
    (map_arr (fun c => fadd (fsqrt c) epsilon) cache).

(** Lines 149-160: the end of a batch. *)
Definition batch_update (l : locals) : M S locals :=
  let iteration' := (iteration l + 1)%Z in
  decay <- gets (fun w => decay_rate (cfg w)) ;;
  rmsprop1' <- lift (rmsprop_update decay (rmsprop1 l) (gradient1 l)) ;;
  rmsprop2' <- lift (rmsprop_update decay (rmsprop2 l) (gradient2 l)) ;;
  lr <- gets (fun w => learning_rate (cfg w)) ;;
  W1 <- gets (@w1 S) ;;
  d1 <- lift (weight_delta lr (gradient1 l) rmsprop1') ;;
  W1' <- lift (zip_arr fadd W1 d1) ;;
  modify (set_w1 W1') ;;;
  W2 <- gets (@w2 S) ;;
  d2 <- lift (weight_delta lr (gradient2 l) rmsprop2') ;;
  W2' <- lift (zip_arr fadd W2 d2) ;;
  modify (set_w2 W2') ;;;
  let gradient1' := np_zeros_like W1' in
  let gradient2' := np_zeros_like W2' in
  modify (add_event (EvPrintIterationStats iteration' (episode_rewards l)
                       (episode_lengths l) (episode_nr l))) ;;;
  let mean_rewards' := mean_rewards l ++ [np_mean (episode_rewards l)] in
  df <- gets (fun w => draw_frequency (cfg w)) ;;
  r <- py_mod (episode_nr l) df ;;
  (if (r =? 0)%Z then modify (add_event (EvDrawRewards mean_rewards'))
   else ret tt) ;;;
  ret (mkLocals gradient1' gradient2' rmsprop1' rmsprop2' iteration'
         (episode_nr l) (episode_lengths l) (episode_rewards l) mean_rewards').

(** Lines 129-160: what one pass of the [while True] loop does with the
    trajectory it collected. *)
Definition learn_update (tr : trajectory) (l : locals) : M S locals :=
  bs <- gets (fun w => batch_size (cfg w)) ;;
  i <- py_mod (episode_nr l) bs ;;
  episode_rewards' <- lift (set_item_z (episode_rewards l) i (np_sum (t_reward tr))) ;;
  episode_lengths' <-
    lift (set_item_z (episode_lengths l) i (Fin (INR (length (t_reward tr))))) ;;
  let episode_nr' := (episode_nr l + 1)%Z in
  ' (change_w1, change_w2) <- episode_gradient tr ;;
  gradient1' <- lift (zip_arr fadd (gradient1 l) change_w1) ;;
  gradient2' <- lift (zip_arr fadd (gradient2 l) change_w2) ;;
  let l' := mkLocals gradient1' gradient2' (rmsprop1 l) (rmsprop2 l) (iteration l)
              episode_nr' episode_lengths' episode_rewards' (mean_rewards l) in
  r <- py_mod episode_nr' bs ;;
  if (r =? 0)%Z then batch_update l' else ret l'.

(** One pass of the loop.  Line 127 passes [episode_max_length] where
    [get_trajectory] expects its [render] flag: the flag is the truth value
    of that integer. *)
Definition learn_step (l : locals) : M S locals :=
  n <- gets (fun w => episode_max_length (cfg w)) ;;
  tr <- get_trajectory (0 <? n)%nat ;;
  learn_update tr l.

(** Lines 113-125. [np.zeros(batch_size)] raises ValueError on a negative
    size. *)
Definition learn_init : M S locals :=
  W1 <- gets (@w1 S) ;;
  W2 <- gets (@w2 S) ;;
  bs <- gets (fun w => batch_size (cfg w)) ;;
  if (bs <? 0)%Z then raise ValueError
  else
    let z := repeat fzero (Z.to_nat bs) in
    ret (mkLocals (np_zeros_like W1) (np_zeros_like W2)
           (np_zeros_like W1) (np_zeros_like W2) 0%Z 0%Z z z []).

(** The first [n] passes of the unbounded loop. *)
Fixpoint learn_loop (n : nat) (l : locals) : M S locals :=
  match n with
  | O => ret l
  | Datatypes.S n' => l' <- learn_step l ;; learn_loop n' l'
  end.

Definition learn (n : nat) : M S locals :=
  l <- learn_init ;; learn_loop n l.

End KPLearner.

Unset Implicit Arguments.

(** ** Specification-level notions *)

(** The sum [f 0 + f 1 + ... + f (n-1)], in that order. *)
Definition fsum (n : nat) (f : nat -> npfloat) : npfloat :=
  np_sum (map f (seq 0 n)).

(** The shape of a 2-D array. *)
Definition has_shape (a : ndarray) (r c : nat) : Prop :=
  wf a /\ nrows a = r /\ ncols a = c.

(** Sums of reals, in the order numpy adds them in this model. *)
Definition Rsum (l : list R) : R := fold_left Rplus l 0%R.

Definition rsum (n : nat) (f : nat -> R) : R := Rsum (map f (seq 0 n)).

(** The logistic function. *)
Definition logistic (z : R) : R := (1 / (1 + exp (- z)))%R.

(** Real-valued counterparts of the array functions. *)
Fixpoint Rdiscount (g : R) (r : list R) : list R :=
  match r with
  | [] => []
  | x :: rs => (x + g * hd 0 (Rdiscount g rs))%R :: Rdiscount g rs
  end.

Definition Rmean (l : list R) : R := (Rsum l / INR (length l))%R.

Definition Rstd (l : list R) : R :=
  sqrt (Rmean (map (fun x => (x - Rmean l) * (x - Rmean l))%R l)).

(** The shapes of a trajectory of [T] steps. *)
Definition wf_trajectory (tr : trajectory) (T O H A : nat) : Prop :=
  length (t_reward tr) = T /\ length (t_action tr) = T /\
  has_shape (t_state tr) T O /\ has_shape (t_prob tr) T A /\
  has_shape (t_x1 tr) T H.

(** The error signal of lines 132-142, as an array. *)
Definition error_signal (n : nat) (g : npfloat) (tr : trajectory) : ndarray :=
  let action_taken :=
    mkArr (length (t_action tr)) n (map (one_hot n) (t_action tr)) in
  let d := standardize (discount_rewards (t_reward tr) g) in
  zip_rows fmul (zip_rows fsub action_taken (t_prob tr))
    (mkArr (length d) n (map (fun x => repeat x n) d)).

(** The calls one episode makes on the environment after the reset, given
    the action and the termination flag of every step: a step, then, when
    rendering is enabled and the step did not end the episode, a render. *)
Fixpoint episode_events (render : bool) (steps : list (nat * bool)) : list event :=
  match steps with
  | [] => []
  | (a, d) :: rest =>
      EvStep a d :: (if render && negb d then [EvRender] else [])
        ++ episode_events render rest
  end.

Definition count_renders (evs : list event) : nat :=
  length (filter (fun e => match e with EvRender => true | _ => false end) evs).

Definition count_steps (evs : list event) : nat :=
  length (filter (fun e => match e with EvStep _ _ => true | _ => false end) evs).

(** The fields of [self] that only [learn] assigns. *)
Definition same_self {S} (w w' : World S) : Prop :=
  w1 w' = w1 w /\ w2 w' = w2 w /\ nO w' = nO w /\ nA w' = nA w /\
  cfg w' = cfg w.

(** What is known of the lists and of the calls made when the loop of
    [get_trajectory] returns. *)
Definition loop_post {S} (n : nat) (render : bool) (b b' : buffers)
    (w w' : World S) : Prop :=
  exists steps : list (nat * bool),
    let k := length steps in
    trace w' = trace w ++ episode_events render steps /\
    b_actions b' = b_actions b ++ map fst steps /\
    length (b_states b') = (length (b_states b) + k)%nat /\
    length (b_rewards b') = (length (b_rewards b) + k)%nat /\
    length (b_episode_probabilities b') =
      (length (b_episode_probabilities b) + k)%nat /\
    length (b_x1s b') = (length (b_x1s b) + k)%nat /\
    ((map snd steps = repeat false (k - 1) ++ [true] /\ (0 < k <= n)%nat)
     \/ (map snd steps = repeat false n /\ k = n)) /\
    same_self w w'.

(** The finite part of a value. *)
Definition to_R (x : npfloat) : R :=
  match x with
  | Fin r => r
  | _ => 0%R
  end.

Definition finite_array (a : ndarray) : Prop :=
  forall i j, (i < nrows a)%nat -> (j < ncols a)%nat ->
    get a i j = Fin (to_R (get a i j)).

(** A learner with finite weights of the right shapes, at least one action,
    and a random source of samples of [0, 1). *)
Definition good_learner {S} (w : World S) (O H A : nat) : Prop :=
  nA w = A /\ (0 < A)%nat /\
  has_shape (w1 w) O H /\ has_shape (w2 w) H A /\
  finite_array (w1 w) /\ finite_array (w2 w) /\
  (forall k, (0 <= rng w k < 1)%R).

(** An environment whose calls never raise and whose observations are
    finite vectors of the observation dimension. *)
Definition benign_env {S} (env : Env S) (O : nat) : Prop :=
  (forall s, exists s' o, env_reset env s = Ok (s', map Fin o) /\ length o = O) /\
  (forall s a, exists s' o r d,
     env_step env s a = Ok (s', (map Fin o, r, d)) /\ length o = O) /\
  (forall s, exists s', env_render env s = Ok s').

Definition buffers_ok (b : buffers) (O H A : nat) : Prop :=
  Forall (fun r => length r = O) (b_states b) /\
  Forall (fun r => length r = A) (b_episode_probabilities b) /\
  Forall (fun r => length r = H) (b_x1s b).

(** A learner whose action selection does not raise on the observations an
    environment of dimension [O] hands it: [choose_action] returns, whatever
    the state of the random source and of the environment. *)
Definition sampler_defined {S} (w : World S) (O : nat) : Prop :=
  forall (o : list R) (w0 : World S),
    length o = O -> same_self w w0 -> (forall k, (0 <= rng w0 k < 1)%R) ->
    exists r w',
      choose_action (map Fin o) w0 = Ok (r, w').

(** [passes env k state w state' w']: [k] passes of the loop of
    [get_trajectory], rendering enabled, none of which ends the episode (the
    action is chosen, the step does not report termination, the render call
    returns), lead from the observation [state] and the process state [w] to
    [state'] and [w']. *)
Inductive passes {S} (env : Env S)
  : nat -> vec -> World S -> vec -> World S -> Prop :=
| passes_O (state : vec) (w : World S) : passes env 0 state w state w
| passes_S (k : nat) (state state' state'' : vec) (w wa wb wc w'' : World S)
    (a : nat) (p x1 : vec) (rew : npfloat) (u : unit) :
    choose_action state w = Ok ((a, p, x1), wa) ->
    call_step env a wa = Ok ((state', rew, false), wb) ->
    call_render env wb = Ok (u, wc) ->
    passes env k state' wc state'' w'' ->
    passes env (Datatypes.S k) state w state'' w''.

(** The arrays of lines 151-154. *)
Definition rmsprop_next (decay : npfloat) (cache g : ndarray) : ndarray :=
  zip_rows fadd (map_arr (fmul decay) cache)
    (map_arr (fmul (fsub fone decay)) (map_arr (fun x => fmul x x) g)).

Definition weights_next (lr : npfloat) (W g cache : ndarray) : ndarray :=
  zip_rows fadd W
    (zip_rows fdiv (map_arr (fmul lr) g)
       (map_arr (fun c => fadd (fsqrt c) epsilon) cache)).

Definition wf_locals (l : locals) (O H A : nat) (bs : Z) : Prop :=
  has_shape (gradient1 l) O H /\ has_shape (gradient2 l) H A /\
  has_shape (rmsprop1 l) O H /\ has_shape (rmsprop2 l) H A /\
  Z.of_nat (length (episode_rewards l)) = bs /\
  Z.of_nat (length (episode_lengths l)) = bs /\
  (0 <= episode_nr l)%Z.

Definition count_draws (evs : list event) : nat :=
  length (filter (fun e => match e with EvDrawRewards _ => true | _ => false end)
            evs).

(** The reporter calls at the end of a batch. *)
Definition batch_events (l : locals) (df : Z) : list event :=
  EvPrintIterationStats (iteration l + 1) (episode_rewards l) (episode_lengths l)
    (episode_nr l)
  :: (if (episode_nr l mod df =? 0)%Z
      then [EvDrawRewards (mean_rewards l ++ [np_mean (episode_rewards l)])]
      else []).

(** ** A worked instance

    Two observations, one hidden unit, two actions; [W1 = [[1],[1]]],
    [W2 = [[1,1]]]; the state is [[1,0]], the action taken is 0 and the reward
    is 1. *)

Definition ex_w1 : ndarray := mkArr 2 1 [[Fin 1]; [Fin 1]].
Definition ex_w2 : ndarray := mkArr 1 2 [[Fin 1; Fin 1]].

(** Batches of two episodes, a report interval of two, episodes of one step. *)
Definition ex_config : config :=
  mkConfig (Fin (99 / 100)) (Fin (5 / 100)) 2 (Fin (99 / 100)) 1 2 1 1.

Definition ex_rng : RandomState := fun _ => 0%R.

Definition ex_world : World unit :=
  mkWorld ex_w1 ex_w2 2 2 ex_config tt ex_rng [].

Definition ex_obs : list R := [1%R; 0%R].

(** Three environments: one that never ends an episode, one that ends it
    at the first step, one whose [render] raises. *)
Definition ex_env : Env unit :=
  mkEnv (fun s => Ok (s, map Fin ex_obs))
        (fun s _ => Ok (s, (map Fin ex_obs, Fin 1, false)))
        (fun s => Ok s).

Definition ex_env_done : Env unit :=
  mkEnv (fun s => Ok (s, map Fin ex_obs))
        (fun s _ => Ok (s, (map Fin ex_obs, Fin 1, true)))
        (fun s => Ok s).

Definition ex_env_render_raises : Env unit :=
  mkEnv (fun s => Ok (s, map Fin ex_obs))
        (fun s _ => Ok (s, (map Fin ex_obs, Fin 1, false)))
        (fun _ => Err (EnvError 1)).

Definition ex_trajectory : trajectory :=
  mkTrajectory [Fin 1] (mkArr 1 2 [[Fin 1; Fin 0]]) [0%nat]
    (mkArr 1 2 [[Fin (/ 2); Fin (/ 2)]]) (mkArr 1 1 [[Fin 1]]).

Definition ex_feedback : ndarray := mkArr 1 2 [[Fin (/ 2); Fin (- / 2)]].

Definition ex_locals : locals :=
  mkLocals (np_zeros_like ex_w1) (np_zeros_like ex_w2)
    (np_zeros_like ex_w1) (np_zeros_like ex_w2) 0 0
    [fzero; fzero] [fzero; fzero] [].

(** The locals after one episode of a batch of two. *)
Definition ex_locals_mid : locals :=
  mkLocals (np_zeros_like ex_w1) (np_zeros_like ex_w2)
    (np_zeros_like ex_w1) (np_zeros_like ex_w2) 0 1
    [fzero; fzero] [fzero; fzero] [].

(** An environment whose second [render] raises (its state counts the
    render calls), and the learner of the worked instance with episodes of
    up to three steps. *)
Definition ex_env_flaky : Env nat :=
  mkEnv (fun _ => Ok (0%nat, map Fin ex_obs))
        (fun s _ => Ok (s, (map Fin ex_obs, Fin 1, false)))
        (fun s => match s with
                  | O => Ok 1%nat
                  | _ => Err (EnvError 4)
                  end).

Definition ex_world_flaky : World nat :=
  mkWorld ex_w1 ex_w2 2 2
    (mkConfig (Fin (99 / 100)) (Fin (5 / 100)) 2 (Fin (99 / 100)) 1 2 1 3)
    0%nat ex_rng [].

(** ** Further functions of Karpathy.py *)

(** A [gym.spaces.Box] of 1-D observations: its bounds. *)
Record Box : Type := mkBox {
  low : vec;
  high : vec
}.

(** [u - v] on 1-D arrays with numpy's broadcasting: entry by entry for
    equal lengths, a one-entry array against every entry of the other,
    ValueError otherwise. *)
Definition np_subtract (u v : vec) : result vec :=
  if (length u =? length v)%nat then Ok (zip_with fsub u v)
  else if (length v =? 1)%nat then Ok (map (fun x => fsub x (hd fzero v)) u)
  else if (length u =? 1)%nat then Ok (map (fun y => fsub (hd fzero u) y) v)
  else Err ValueError.

(** [scale_state(state, O)]: [state - O.low]. *)
Definition scale_state (state : vec) (O : Box) : result vec :=
  np_subtract state (low O).

(** [KPLearner.build_network].  The two calls of [np.random.randn] are calls
    on the process-wide generator: [z1] and [z2] are the arrays of samples
    they return (of the shapes asked for, [nO x n_hidden_units] and
    [n_hidden_units x nA]) and [g] is the generator they leave. *)
Definition build_network {S} (z1 z2 : ndarray) (g : RandomState) : M S unit :=
  H <- gets (fun w : World S => n_hidden_units (cfg w)) ;;
  modify (set_w1 (map_arr (fun x => fdiv x (fsqrt (Fin (INR H)))) z1)) ;;;
  n <- gets (@nA S) ;;
  modify (set_w2 (map_arr (fun x => fdiv x (fsqrt (Fin (INR n)))) z2)) ;;;
  modify (set_rng g).

(** A row of recorded probabilities as [np.random.choice] lets it through:
    [A] finite numbers, none negative, that sum to 1 within its tolerance; a
    row of recorded hidden activations: [H] numbers, none negative (the
    ReLU leaves a NaN as it is). *)
Definition valid_probabilities (A : nat) (r : vec) : Prop :=
  exists l, r = map Fin l /\ length l = A /\
            (forall x, In x l -> (0 <= x)%R) /\ (Rabs (Rsum l - 1) <= atol)%R.

Definition relu_row (H : nat) (r : vec) : Prop :=
  length r = H /\ forall i, flt (nth i r fzero) fzero = false.

Definition count_prints (evs : list event) : nat :=
  length (filter (fun e => match e with
                           | EvPrintIterationStats _ _ _ _ => true
                           | _ => false
                           end) evs).

(** An array none of whose entries is negative or NaN (an entry may be
    [+inf]), as an RMSProp cache is; an array without a NaN entry. *)
Definition nonneg_array (a : ndarray) : Prop :=
  forall i j, (i < nrows a)%nat -> (j < ncols a)%nat ->
    fle fzero (get a i j) = true.

Definition no_nan_array (a : ndarray) : Prop :=
  forall i j, (i < nrows a)%nat -> (j < ncols a)%nat -> get a i j <> NaN.



Definition ex_world_batch (bs : Z) : World unit :=
  mkWorld ex_w1 ex_w2 2 2
    (mkConfig (Fin (99 / 100)) (Fin (5 / 100)) bs (Fin (99 / 100)) 1 2 1 1)
    tt ex_rng [].

(** The locals at the end of a batch with accumulated gradients of ones. *)
Definition ex_locals_grad : locals :=
  mkLocals ex_w1 ex_w2 (np_zeros_like ex_w1) (np_zeros_like ex_w2) 0 2
    [fzero; fzero] [fzero; fzero] [].


(** * Facts about lists and arrays *)

(** Decide the shape tests of the numpy operations from the hypotheses. *)
Ltac eqb_true :=
  repeat match goal with
         | |- context [(?a =? ?b)%nat] =>
             replace (a =? b)%nat with true
               by (symmetry; apply Nat.eqb_eq; first [congruence | lia]);
             simpl
         end.

Section ArrayFacts.

Lemma zip_with_length {A B C} (f : A -> B -> C) u v :
  length (zip_with f u v) = Nat.min (length u) (length v).
Proof.
  revert v; induction u as [|a u IH]; intros [|b v]; simpl; auto.
Qed.

Lemma nth_zip_with {A B C} (f : A -> B -> C) u v i dA dB dC :
  (i < length u)%nat -> (i < length v)%nat ->
  nth i (zip_with f u v) dC = f (nth i u dA) (nth i v dB).
Proof.
  revert v i; induction u as [|a u IH]; intros [|b v] [|i]; simpl; intros;
    try lia; auto.
  apply IH; lia.
Qed.

Lemma zip_with_map_seq {A B C} (f : A -> B -> C) u v dA dB n :
  length u = n -> length v = n ->
  zip_with f u v = map (fun k => f (nth k u dA) (nth k v dB)) (seq 0 n).
Proof.
  revert v n; induction u as [|a u IH]; intros [|b v] [|n]; simpl;
    intros Hu Hv; try discriminate; auto.
  f_equal. rewrite <- seq_shift, map_map. apply IH; lia.
Qed.

Lemma fsum_ext n f g :
  (forall k, (k < n)%nat -> f k = g k) -> fsum n f = fsum n g.
Proof.
  intros H. unfold fsum. f_equal. apply map_ext_in.
  intros k Hk. apply in_seq in Hk. apply H. lia.
Qed.

Lemma inner_fsum u v n :
  length u = n -> length v = n ->
  inner u v = fsum n (fun k => fmul (nth k u fzero) (nth k v fzero)).
Proof.
  intros Hu Hv. unfold inner, fsum.
  now rewrite (zip_with_map_seq fmul u v fzero fzero n Hu Hv).
Qed.

Lemma nth_column j a t : nth t (column j a) fzero = get a t j.
Proof.
  unfold column, get.
  rewrite <- (map_nth (fun r : vec => nth j r fzero) (rows a) [] t).
  simpl. now destruct j.
Qed.

Lemma column_length j a : length (column j a) = length (rows a).
Proof. unfold column. now rewrite length_map. Qed.

Lemma nth_map_seq {A} (g : nat -> A) n k d :
  (k < n)%nat -> nth k (map g (seq 0 n)) d = g k.
Proof.
  intros Hk. rewrite (nth_indep _ d (g 0%nat)) by now rewrite length_map, length_seq.
  change (g 0%nat) with (g 0%nat) at 1.
  rewrite (map_nth g (seq 0 n) 0%nat k). now rewrite seq_nth.
Qed.

Lemma nth_map_lt {A B} (f : A -> B) (l : list A) (i : nat) (d : A) (d' : B) :
  (i < length l)%nat -> nth i (map f l) d' = f (nth i l d).
Proof.
  intros Hi. rewrite (nth_indep _ d' (f d)) by now rewrite length_map.
  apply map_nth.
Qed.

Lemma nth_repeat_lt {A} (x d : A) (n i : nat) :
  (i < n)%nat -> nth i (repeat x n) d = x.
Proof.
  intros Hi. apply (repeat_spec n x). apply nth_In. now rewrite repeat_length.
Qed.

Lemma get_matmul a b i j :
  (i < length (rows a))%nat -> (j < ncols b)%nat ->
  get (matmul a b) i j = inner (nth i (rows a) []) (column j b).
Proof.
  intros Hi Hj. unfold get, matmul; simpl.
  rewrite (nth_indep _ [] ((fun r => map (fun j => inner r (column j b))
                                     (seq 0 (ncols b))) [])) by now rewrite length_map.
  rewrite (map_nth (fun r => map (fun j => inner r (column j b)) (seq 0 (ncols b)))).
  now rewrite nth_map_seq.
Qed.

Lemma row_np_T a j :
  (j < ncols a)%nat -> nth j (rows (np_T a)) [] = column j a.
Proof. intros Hj. unfold np_T; simpl. now rewrite nth_map_seq. Qed.

Lemma rows_np_T_length a : length (rows (np_T a)) = ncols a.
Proof. unfold np_T; simpl. now rewrite length_map, length_seq. Qed.

Lemma get_np_T a i j : (j < ncols a)%nat -> get (np_T a) j i = get a i j.
Proof.
  intros Hj. unfold get at 1. rewrite row_np_T by assumption.
  apply nth_column.
Qed.

Lemma wf_np_T_shape a : wf a -> has_shape (np_T a) (ncols a) (nrows a).
Proof.
  intros [Hr _]. split; [|split]; simpl; auto.
  split.
  - apply rows_np_T_length.
  - unfold np_T; simpl. apply Forall_forall. intros r Hin.
    apply in_map_iff in Hin. destruct Hin as [j [<- _]].
    now rewrite column_length.
Qed.

Lemma wf_row_length a i :
  wf a -> (i < nrows a)%nat -> length (nth i (rows a) []) = ncols a.
Proof.
  intros [Hr Hc] Hi. rewrite Forall_forall in Hc. apply Hc.
  apply nth_In. lia.
Qed.

Lemma wf_matmul a b : length (rows a) = nrows a -> wf (matmul a b).
Proof.
  intros Ha. split; simpl.
  - now rewrite length_map.
  - apply Forall_forall. intros r Hr. apply in_map_iff in Hr.
    destruct Hr as [r0 [<- _]]. now rewrite length_map, length_seq.
Qed.

(** Entry [(i, j)] of a product is the sum over the inner index. *)
Lemma get_matmul_fsum a b i j n :
  wf a -> wf b -> ncols a = n -> nrows b = n ->
  (i < nrows a)%nat -> (j < ncols b)%nat ->
  get (matmul a b) i j = fsum n (fun k => fmul (get a i k) (get b k j)).
Proof.
  intros Ha Hb Hca Hrb Hi Hj.
  rewrite get_matmul by (destruct Ha; lia || assumption).
  rewrite (inner_fsum _ _ n).
  - apply fsum_ext. intros k _. now rewrite nth_column.
  - rewrite wf_row_length; auto.
  - rewrite column_length. destruct Hb; lia.
Qed.

Lemma get_zip_rows f a b i j :
  wf a -> wf b -> nrows a = nrows b -> ncols a = ncols b ->
  (i < nrows a)%nat -> (j < ncols a)%nat ->
  get (zip_rows f a b) i j = f (get a i j) (get b i j).
Proof.
  intros Ha Hb Hr Hc Hi Hj. unfold get, zip_rows; simpl.
  rewrite (nth_zip_with (zip_with f) (rows a) (rows b) i [] [])
    by (destruct Ha, Hb; lia).
  apply nth_zip_with; rewrite wf_row_length; auto; lia.
Qed.

Lemma wf_zip_rows f a b :
  wf a -> wf b -> nrows a = nrows b -> ncols a = ncols b -> wf (zip_rows f a b).
Proof.
  intros [Ha1 Ha2] [Hb1 Hb2] Hr Hc. split; simpl.
  - rewrite zip_with_length. lia.
  - rewrite Forall_forall in *.
    intros r Hr'. destruct (In_nth _ _ [] Hr') as [i [Hi <-]].
    rewrite zip_with_length in Hi.
    rewrite (nth_zip_with (zip_with f) (rows a) (rows b) i [] []) by lia.
    rewrite zip_with_length.
    rewrite Ha2 by (apply nth_In; lia). rewrite Hb2 by (apply nth_In; lia). lia.
Qed.

End ArrayFacts.

(** * The backward pass *)

Section Backward.

Variable S : Type.

Ltac shapes :=
  repeat match goal with
         | H : has_shape _ _ _ |- _ => destruct H as [? [? ?]]
         end.

(** The arrays [backward_step] computes when the shapes agree. *)
Lemma backward_step_run (x0 x1 feedback : ndarray) (w : World S) (T O H A : nat) :
  has_shape x0 T O -> has_shape x1 T H -> has_shape feedback T A ->
  has_shape (w2 w) H A ->
  backward_step x0 x1 feedback w =
  Ok ((matmul (np_T x0) (zip_rows relu_gate x1 (matmul feedback (np_T (w2 w)))),
       matmul (np_T x1) feedback), w).
Proof.
  intros H0 H1 Hf H2. shapes.
  unfold backward_step, bind, lift, gets, ret, np_dot, mask_nonpos, same_shape.
  simpl. eqb_true. reflexivity.
Qed.

(** Entry [(t, j)] of the gated hidden error [dh]. *)
Lemma get_dh (x1 feedback W2 : ndarray) (T H A t j : nat) :
  has_shape x1 T H -> has_shape feedback T A -> has_shape W2 H A ->
  (t < T)%nat -> (j < H)%nat ->
  get (zip_rows relu_gate x1 (matmul feedback (np_T W2))) t j =
  if fle (get x1 t j) fzero then fzero
  else fsum A (fun k => fmul (get feedback t k) (get W2 j k)).
Proof.
  intros [W1 [R1 C1]] [Wf [Rf Cf]] [W2' [R2 C2]] Ht Hj.
  assert (Wm : wf (matmul feedback (np_T W2))) by (apply wf_matmul; apply Wf).
  rewrite get_zip_rows; simpl; try assumption; try lia.
  unfold relu_gate. destruct (fle (get x1 t j) fzero); [reflexivity|].
  rewrite (get_matmul_fsum feedback (np_T W2) t j A); simpl;
    try assumption; try lia.
  - apply fsum_ext. intros k Hk. f_equal. apply get_np_T. lia.
  - now apply wf_np_T_shape.
Qed.

(** The gradients of [backward_step], entry by entry. *)
Lemma backward_step_entries (x0 x1 feedback : ndarray) (w : World S)
    (T O H A : nat) :
  has_shape x0 T O -> has_shape x1 T H -> has_shape feedback T A ->
  has_shape (w2 w) H A ->
  exists change_w1 change_w2,
    backward_step x0 x1 feedback w = Ok ((change_w1, change_w2), w) /\
    has_shape change_w1 O H /\ has_shape change_w2 H A /\
    (forall j k, (j < H)%nat -> (k < A)%nat ->
       get change_w2 j k =
       fsum T (fun t => fmul (get x1 t j) (get feedback t k))) /\
    (forall i j, (i < O)%nat -> (j < H)%nat ->
       get change_w1 i j =
       fsum T (fun t =>
         fmul (get x0 t i)
              (if fle (get x1 t j) fzero then fzero
               else fsum A (fun k => fmul (get feedback t k) (get (w2 w) j k))))).
Proof.
  intros H0 H1 Hf H2.
  eexists _, _. split; [eapply backward_step_run; eassumption|].
  pose proof H0 as [W0 [R0 C0]]. pose proof H1 as [W1 [R1 C1]].
  pose proof Hf as [Wf [Rf Cf]]. pose proof H2 as [W2 [R2 C2]].
  pose proof (wf_np_T_shape x0 W0) as [WT0 [RT0 CT0]].
  pose proof (wf_np_T_shape x1 W1) as [WT1 [RT1 CT1]].
  assert (Wdh : wf (zip_rows relu_gate x1 (matmul feedback (np_T (w2 w))))).
  { apply wf_zip_rows; simpl; try assumption; try congruence.
    apply wf_matmul. now destruct Wf. }
  assert (L0 : length (rows (np_T x0)) = nrows (np_T x0)) by apply WT0.
  assert (L1 : length (rows (np_T x1)) = nrows (np_T x1)) by apply WT1.
  split; [|split; [|split]].
  - split; [now apply wf_matmul | simpl; lia].
  - split; [now apply wf_matmul | simpl; lia].
  - intros j k Hj Hk.
    rewrite (get_matmul_fsum (np_T x1) feedback j k T); try assumption;
      try lia.
    apply fsum_ext. intros t _. f_equal. apply get_np_T. lia.
  - intros i j Hi Hj.
    rewrite (get_matmul_fsum (np_T x0) _ i j T); simpl; try assumption;
      try lia.
    apply fsum_ext. intros t Ht. f_equal.
    + apply get_np_T. lia.
    + now apply (get_dh x1 feedback (w2 w) T H A).
Qed.

End Backward.

(** * Finite values: the link with real arithmetic *)

Section FiniteFacts.

Local Open Scope R_scope.

Lemma fold_fadd_Fin (l : list R) (a : R) :
  fold_left fadd (map Fin l) (Fin a) = Fin (fold_left Rplus l a).
Proof. revert a; induction l as [|x l IH]; intros a; simpl; auto. Qed.

Lemma np_sum_Fin (l : list R) : np_sum (map Fin l) = Fin (Rsum l).
Proof. apply fold_fadd_Fin. Qed.

Lemma fsum_Fin (n : nat) (g : nat -> R) :
  fsum n (fun k => Fin (g k)) = Fin (rsum n g).
Proof.
  unfold fsum, rsum. rewrite <- np_sum_Fin. now rewrite map_map.
Qed.

Lemma fold_Rplus_shift (l : list R) (a : R) :
  fold_left Rplus l a = a + Rsum l.
Proof.
  unfold Rsum. revert a; induction l as [|x l IH]; intros a; simpl.
  - lra.
  - rewrite IH, (IH (0 + x)). lra.
Qed.

Lemma Rsum_cons (x : R) (l : list R) : Rsum (x :: l) = x + Rsum l.
Proof. unfold Rsum at 1; simpl. rewrite fold_Rplus_shift. lra. Qed.

Lemma Rsum_nil : Rsum [] = 0.
Proof. reflexivity. Qed.

Lemma Rsum_nonneg (l : list R) :
  (forall x, In x l -> 0 <= x) -> 0 <= Rsum l.
Proof.
  induction l as [|x l IH]; intros H.
  - rewrite Rsum_nil. lra.
  - rewrite Rsum_cons.
    assert (0 <= x) by (apply H; now left).
    assert (0 <= Rsum l) by (apply IH; intros y Hy; apply H; now right).
    lra.
Qed.

Lemma Rsum_pos (l : list R) :
  l <> [] -> (forall x, In x l -> 0 < x) -> 0 < Rsum l.
Proof.
  destruct l as [|x l]; intros Hne H; [congruence|].
  rewrite Rsum_cons.
  assert (0 < x) by (apply H; now left).
  assert (0 <= Rsum l).
  { apply Rsum_nonneg. intros y Hy. apply Rlt_le, H. now right. }
  lra.
Qed.

Lemma Rsum_scale (l : list R) (c : R) :
  Rsum (map (fun x => x * c) l) = Rsum l * c.
Proof.
  induction l as [|x l IH]; simpl.
  - rewrite Rsum_nil. lra.
  - rewrite !Rsum_cons, IH. lra.
Qed.

Lemma Rsum_ext_map {A} (f g : A -> R) (l : list A) :
  (forall x, In x l -> f x = g x) -> Rsum (map f l) = Rsum (map g l).
Proof. intros H. f_equal. now apply map_ext_in. Qed.

Lemma rsum_ext (n : nat) (f g : nat -> R) :
  (forall k, (k < n)%nat -> f k = g k) -> rsum n f = rsum n g.
Proof.
  intros H. apply Rsum_ext_map. intros k Hk. apply in_seq in Hk.
  apply H. lia.
Qed.

(** Scalar operations on finite values. *)
Lemma fdiv_Fin (a b : R) : b <> 0 -> fdiv (Fin a) (Fin b) = Fin (a / b).
Proof. intros Hb. simpl. now destruct (Req_dec_T b 0). Qed.

Lemma fdiv_zero_zero : fdiv (Fin 0) (Fin 0) = NaN.
Proof.
  simpl. destruct (Req_dec_T 0 0) as [_|H]; [|contradiction].
  unfold Rsign. destruct (Rlt_dec 0 0); [lra|]. reflexivity.
Qed.

Lemma flt_Fin_false (a b : R) : b <= a -> flt (Fin a) (Fin b) = false.
Proof. intros H. simpl. destruct (Rlt_dec a b); [lra | reflexivity]. Qed.

Lemma fle_Fin_false (a b : R) : b < a -> fle (Fin a) (Fin b) = false.
Proof. intros H. simpl. destruct (Rle_dec a b); [lra | reflexivity]. Qed.

Lemma fsqrt_Fin (a : R) : 0 <= a -> fsqrt (Fin a) = Fin (sqrt a).
Proof. intros H. simpl. destruct (Rlt_dec a 0); [lra | reflexivity]. Qed.

(** The ReLU of line 68 on a finite value. *)
Lemma relu_Fin (x : R) :
  (if flt (Fin x) fzero then fzero else Fin x) = Fin (Rmax 0 x).
Proof.
  unfold fzero. simpl. destruct (Rlt_dec x 0) as [H|H].
  - now rewrite Rmax_left by lra.
  - now rewrite Rmax_right by lra.
Qed.

Lemma logistic_bounds (z : R) : 0 < logistic z < 1.
Proof.
  unfold logistic. pose proof (exp_pos (- z)) as He.
  split.
  - apply Rdiv_lt_0_compat; lra.
  - apply (Rmult_lt_reg_r (1 + exp (- z))); [lra|].
    unfold Rdiv. rewrite Rmult_assoc, Rinv_l by lra. lra.
Qed.

Lemma sigmoid1_Fin (z : R) : sigmoid1 (Fin z) = Fin (logistic z).
Proof.
  unfold sigmoid1, fone, logistic. simpl fneg. simpl fexp. simpl fadd.
  apply fdiv_Fin. pose proof (exp_pos (- z)). lra.
Qed.

(** NaN absorbs every later addition. *)
Lemma fold_fadd_NaN (l : vec) : fold_left fadd l NaN = NaN.
Proof. induction l as [|x l IH]; simpl; auto. Qed.

Lemma fadd_NaN_r (x : npfloat) : fadd x NaN = NaN.
Proof. now destruct x. Qed.

Lemma fmul_NaN_r (x : npfloat) : fmul x NaN = NaN.
Proof. now destruct x. Qed.

End FiniteFacts.

(** * The forward pass *)

Section Forward.

Variable S : Type.

Local Open Scope R_scope.

Lemma nth_map_Fin (s : list R) (i : nat) :
  nth i (map Fin s) fzero = Fin (nth i s 0).
Proof. unfold fzero. apply map_nth. Qed.

(** A vector-matrix product of finite arrays is finite. *)
Lemma vecmat_Fin (s : list R) (W : ndarray) (M : nat -> nat -> R) (O H : nat) :
  length s = O -> has_shape W O H ->
  (forall i j, (i < O)%nat -> (j < H)%nat -> get W i j = Fin (M i j)) ->
  vecmat (map Fin s) W =
  map (fun j => Fin (rsum O (fun i => nth i s 0 * M i j))) (seq 0 H).
Proof.
  intros Hs [Ww [Wr Wc]] HM. unfold vecmat. rewrite Wc.
  apply map_ext_in. intros j Hj. apply in_seq in Hj.
  rewrite (inner_fsum _ _ O).
  - rewrite <- fsum_Fin. apply fsum_ext. intros i Hi.
    rewrite nth_map_Fin, nth_column, HM by lia. reflexivity.
  - now rewrite length_map.
  - rewrite column_length. destruct Ww. lia.
Qed.

Lemma forward_step_run (state : vec) (w : World S) :
  length state = nrows (w1 w) -> ncols (w1 w) = nrows (w2 w) ->
  forward_step state w =
  Ok ((map (fun v => if flt v fzero then fzero else v) (vecmat state (w1 w)),
       sigmoid (vecmat (map (fun v => if flt v fzero then fzero else v)
                            (vecmat state (w1 w))) (w2 w))), w).
Proof.
  intros H1 H2.
  unfold forward_step, bind, lift, gets, ret, np_dot_vec. simpl.
  rewrite H1, Nat.eqb_refl.
  rewrite length_map. unfold vecmat at 1. rewrite length_map, length_seq.
  rewrite H2, Nat.eqb_refl. reflexivity.
Qed.

(** The values [forward_step] returns on finite inputs. *)
Lemma forward_step_Fin (s : list R) (M1 M2 : nat -> nat -> R) (w : World S)
    (O H A : nat) :
  length s = O ->
  has_shape (w1 w) O H -> has_shape (w2 w) H A ->
  (forall i j, (i < O)%nat -> (j < H)%nat -> get (w1 w) i j = Fin (M1 i j)) ->
  (forall j k, (j < H)%nat -> (k < A)%nat -> get (w2 w) j k = Fin (M2 j k)) ->
  forward_step (map Fin s) w =
  Ok ((map (fun j => Fin (Rmax 0 (rsum O (fun i => nth i s 0 * M1 i j))))
           (seq 0 H),
       map (fun k => Fin (logistic
              (rsum H (fun j =>
                 Rmax 0 (rsum O (fun i => nth i s 0 * M1 i j)) * M2 j k))))
           (seq 0 A)), w).
Proof.
  intros Hs H1 H2 HM1 HM2.
  pose proof H1 as [_ [R1 C1]]. pose proof H2 as [_ [R2 C2]].
  rewrite forward_step_run by (rewrite ?length_map; lia).
  rewrite (vecmat_Fin s (w1 w) M1 O H Hs H1 HM1).
  rewrite map_map.
  assert (E : map (fun j => if flt (Fin (rsum O (fun i => nth i s 0 * M1 i j))) fzero
                            then fzero
                            else Fin (rsum O (fun i => nth i s 0 * M1 i j)))
                  (seq 0 H) =
              map Fin (map (fun j => Rmax 0 (rsum O (fun i => nth i s 0 * M1 i j)))
                           (seq 0 H))).
  { rewrite map_map. apply map_ext. intros j. apply relu_Fin. }
  rewrite E.
  rewrite (vecmat_Fin _ (w2 w) M2 H A) by (rewrite ?length_map, ?length_seq; auto).
  unfold sigmoid. rewrite !map_map. do 3 f_equal.
  apply map_ext_in. intros k Hk. rewrite sigmoid1_Fin. do 2 f_equal.
  apply rsum_ext. intros j Hj. now rewrite nth_map_seq.
Qed.

(** C4. On a state of the observation dimension, [forward_step] returns
    [hidden = max(0, state . W1)] and [sigmoid(hidden . W2)], entry by
    entry, and leaves the learner (its weights included) as it was; when
    every pre-activation is negative, the hidden vector is all zeros. *)
Theorem forward_step_spec (s : list R) (M1 M2 : nat -> nat -> R) (w : World S)
    (O H A : nat) :
  length s = O ->
  has_shape (w1 w) O H -> has_shape (w2 w) H A ->
  (forall i j, (i < O)%nat -> (j < H)%nat -> get (w1 w) i j = Fin (M1 i j)) ->
  (forall j k, (j < H)%nat -> (k < A)%nat -> get (w2 w) j k = Fin (M2 j k)) ->
  let pre := fun j => rsum O (fun i => nth i s 0 * M1 i j) in
  let hidden := fun j => Rmax 0 (pre j) in
  let prob := fun k => 1 / (1 + exp (- rsum H (fun j => hidden j * M2 j k))) in
  exists x1 output,
    forward_step (map Fin s) w = Ok ((x1, output), w) /\
    x1 = map (fun j => Fin (hidden j)) (seq 0 H) /\
    output = map (fun k => Fin (prob k)) (seq 0 A) /\
    ((forall j, (j < H)%nat -> pre j < 0) -> x1 = repeat fzero H).
Proof.
  intros Hs H1 H2 HM1 HM2 pre hidden prob.
  eexists _, _. split; [apply (forward_step_Fin s M1 M2 w O H A); assumption|].
  split; [reflexivity|]. split; [reflexivity|].
  intros Hneg.
  replace (repeat fzero H) with (map (fun _ : nat => fzero) (seq 0 H))
    by (now rewrite map_const, length_seq).
  apply map_ext_in. intros j Hj. apply in_seq in Hj.
  unfold fzero. f_equal. apply Rmax_left.
  apply Rlt_le. apply Hneg. lia.
Qed.

End Forward.

(** * The action sampler *)

Section Sampler.

Variable S : Type.

Local Open Scope R_scope.

Lemma last_cumsum_Fin (p : list R) (a : R) :
  p <> [] ->
  last (cumsum_from (Fin a) (map Fin p)) fzero = Fin (fold_left Rplus p a).
Proof.
  revert a. induction p as [|x p IH]; intros a Hne; [congruence|].
  destruct p as [|y p].
  - reflexivity.
  - change (cumsum_from (Fin a) (map Fin (x :: y :: p)))
      with (Fin (a + x) :: cumsum_from (Fin (a + x)) (map Fin (y :: p))).
    change (fold_left Rplus (x :: y :: p) a)
      with (fold_left Rplus (y :: p) (a + x)).
    rewrite <- IH by congruence.
    simpl. reflexivity.
Qed.

Lemma cumsum_from_length (p : vec) (a : npfloat) :
  length (cumsum_from a p) = length p.
Proof. revert a; induction p as [|x p IH]; intros a; simpl; auto. Qed.

Lemma last_map {A B} (f : A -> B) (l : list A) (d : A) (d' : B) :
  l <> [] -> last (map f l) d' = f (last l d).
Proof.
  induction l as [|x l IH]; intros Hne; [congruence|].
  destruct l as [|y l]; [reflexivity|].
  change (last (f x :: map f (y :: l)) d' = f (last (y :: l) d)).
  rewrite <- IH by congruence. reflexivity.
Qed.

(** The index found is in range as soon as the last entry exceeds [u]. *)
Lemma searchsorted_right_lt (cdf : vec) (u : R) :
  cdf <> [] -> fle (last cdf fzero) (Fin u) = false ->
  (searchsorted_right cdf u < length cdf)%nat.
Proof.
  induction cdf as [|c cdf IH]; intros Hne Hl; [congruence|].
  simpl. destruct (fle c (Fin u)) eqn:E; [|lia].
  destruct cdf as [|c' cdf].
  - simpl in Hl. congruence.
  - apply -> Nat.succ_lt_mono. apply IH; [congruence|exact Hl].
Qed.

Lemma forallb_nonneg_Fin (p : list R) :
  (forall x, In x p -> 0 <= x) ->
  forallb (fun x => negb (flt x fzero)) (map Fin p) = true.
Proof.
  intros H. apply forallb_forall. intros x Hx.
  apply in_map_iff in Hx. destruct Hx as [r [<- Hr]].
  unfold fzero. rewrite flt_Fin_false; [reflexivity | now apply H].
Qed.

Lemma atol_pos : 0 < atol.
Proof. unfold atol. apply Rinv_0_lt_compat. lra. Qed.

Lemma atol_lt_1 : atol < 1.
Proof. unfold atol. lra. Qed.

Lemma is_probability_vector_Fin (n : nat) (p : list R) :
  (0 < n)%nat -> length p = n -> (forall x, In x p -> 0 <= x) -> Rsum p = 1 ->
  is_probability_vector n (map Fin p) = true.
Proof.
  intros Hn Hl Hp Hs. unfold is_probability_vector.
  rewrite length_map, Hl, Nat.eqb_refl, forallb_nonneg_Fin by assumption.
  rewrite np_sum_Fin, Hs.
  replace (0 <? n)%nat with true by (symmetry; now apply Nat.ltb_lt).
  simpl. destruct (Rle_dec (Rabs (1 - 1)) atol) as [|Hn']; [reflexivity|].
  exfalso. apply Hn'. replace (1 - 1) with 0 by lra. rewrite Rabs_R0.
  apply Rlt_le, atol_pos.
Qed.

(** The index found: every entry before it is at most [u], and the entry
    at it, if any, exceeds [u]. *)
Lemma searchsorted_right_spec (cdf : vec) (u : R) :
  (forall i, (i < searchsorted_right cdf u)%nat ->
     fle (nth i cdf fzero) (Fin u) = true) /\
  ((searchsorted_right cdf u < length cdf)%nat ->
   fle (nth (searchsorted_right cdf u) cdf fzero) (Fin u) = false).
Proof.
  induction cdf as [|c cdf [IH1 IH2]]; simpl.
  - split; intros; lia.
  - destruct (fle c (Fin u)) eqn:E.
    + split.
      * intros [|i] Hi; [exact E | apply IH1; lia].
      * intros Hlt. apply IH2. lia.
    + split; [intros i Hi; lia | intros _; exact E].
Qed.

Lemma nth_cumsum_Fin (p : list R) (a : R) (k : nat) :
  (k < length p)%nat ->
  nth k (cumsum_from (Fin a) (map Fin p)) fzero =
  Fin (a + Rsum (firstn (Datatypes.S k) p)).
Proof.
  revert a k. induction p as [|x p IH]; intros a k Hk; simpl in Hk; [lia|].
  change (cumsum_from (Fin a) (map Fin (x :: p)))
    with (Fin (a + x) :: cumsum_from (Fin (a + x)) (map Fin p)).
  destruct k as [|k].
  - simpl. f_equal. unfold Rsum. simpl. lra.
  - change (nth (Datatypes.S k) (Fin (a + x) :: cumsum_from (Fin (a + x)) (map Fin p)) fzero)
      with (nth k (cumsum_from (Fin (a + x)) (map Fin p)) fzero).
    rewrite IH by lia. f_equal.
    change (firstn (Datatypes.S (Datatypes.S k)) (x :: p))
      with (x :: firstn (Datatypes.S k) p).
    rewrite Rsum_cons. lra.
Qed.

Lemma fle_Fin_inv_true (a b : R) : fle (Fin a) (Fin b) = true -> a <= b.
Proof. simpl. destruct (Rle_dec a b); [auto | discriminate]. Qed.

Lemma fle_Fin_inv_false (a b : R) : fle (Fin a) (Fin b) = false -> b < a.
Proof. simpl. destruct (Rle_dec a b); [discriminate | lra]. Qed.

(** [np.random.choice] on a finite probability vector returns the index
    [a] at which the cumulative distribution passes the uniform sample. *)
Lemma np_random_choice_Fin (n : nat) (p : list R) (u : R) :
  (0 < n)%nat -> length p = n -> (forall x, In x p -> 0 <= x) -> Rsum p = 1 ->
  0 <= u < 1 ->
  exists a, np_random_choice n (map Fin p) u = Ok a /\ (a < n)%nat /\
            Rsum (firstn a p) <= u < Rsum (firstn (Datatypes.S a) p).
Proof.
  intros Hn Hl Hp Hs [Hu0 Hu]. unfold np_random_choice.
  rewrite is_probability_vector_Fin by assumption.
  eexists. split; [reflexivity|].
  assert (Hne : p <> []) by (intros ->; simpl in Hl; lia).
  assert (Hc : np_cumsum (map Fin p) <> []).
  { destruct p; [congruence|]. discriminate. }
  assert (Hlast : last (np_cumsum (map Fin p)) fzero = Fin 1).
  { unfold np_cumsum, fzero. rewrite last_cumsum_Fin by assumption.
    fold (Rsum p). now rewrite Hs. }
  rewrite Hlast.
  set (cdf := map (fun c => fdiv c (Fin 1)) (np_cumsum (map Fin p))).
  assert (Hlen : length cdf = n).
  { unfold cdf, np_cumsum. now rewrite length_map, cumsum_from_length, length_map. }
  assert (Hnth : forall k, (k < n)%nat ->
             nth k cdf fzero = Fin (Rsum (firstn (Datatypes.S k) p))).
  { intros k Hk. unfold cdf.
    rewrite (nth_map_lt (fun c => fdiv c (Fin 1)) _ k fzero fzero)
      by (unfold np_cumsum; rewrite cumsum_from_length, length_map; lia).
    unfold np_cumsum, fzero. rewrite nth_cumsum_Fin by lia.
    rewrite fdiv_Fin by lra. f_equal. lra. }
  assert (Hlt : (searchsorted_right cdf u < n)%nat).
  { rewrite <- Hlen. apply searchsorted_right_lt.
    - intros E. rewrite E in Hlen. simpl in Hlen. lia.
    - unfold cdf. rewrite (last_map _ _ fzero fzero) by assumption.
      rewrite Hlast, fdiv_Fin by lra. apply fle_Fin_false. lra. }
  split; [exact Hlt|].
  destruct (searchsorted_right_spec cdf u) as [H1 H2].
  split.
  - destruct (searchsorted_right cdf u) as [|a'] eqn:Ea.
    + simpl. rewrite Rsum_nil. exact Hu0.
    + specialize (H1 a' ltac:(lia)). rewrite Hnth in H1 by lia.
      now apply fle_Fin_inv_true.
  - rewrite Hlen in H2. specialize (H2 Hlt). rewrite Hnth in H2 by lia.
    now apply fle_Fin_inv_false.
Qed.

(** The renormalised scores: every score divided by the sum of all. *)
Lemma renormalise_Fin (o : list R) :
  Rsum o <> 0 ->
  map (fun x => fdiv x (np_sum (map Fin o))) (map Fin o) =
  map Fin (map (fun x => x / Rsum o) o).
Proof.
  intros Hs. rewrite np_sum_Fin, !map_map. apply map_ext.
  intros x. now apply fdiv_Fin.
Qed.

Lemma Rsum_renormalised (o : list R) :
  Rsum o <> 0 -> Rsum (map (fun x => x / Rsum o) o) = 1.
Proof.
  intros Hs. unfold Rdiv. rewrite Rsum_scale. now apply Rinv_r.
Qed.

(** [random_with_probability] on strictly positive scores. *)
Lemma random_with_probability_pos (o : list R) (n : nat) (w : World S) :
  (0 < n)%nat -> length o = n -> (forall x, In x o -> 0 < x) ->
  0 <= rng w 0%nat < 1 ->
  exists a,
    random_with_probability (map Fin o) n w =
    Ok ((a, map Fin (map (fun x => x / Rsum o) o)),
        set_rng (snd (random_sample (rng w))) w) /\
    (a < n)%nat /\
    Rsum (firstn a (map (fun x => x / Rsum o) o)) <= rng w 0%nat
      < Rsum (firstn (Datatypes.S a) (map (fun x => x / Rsum o) o)).
Proof.
  intros Hn Hl Hpos Hu.
  assert (Hne : o <> []) by (intros ->; simpl in Hl; lia).
  pose proof (Rsum_pos o Hne Hpos) as Hs.
  assert (Hs' : Rsum o <> 0) by lra.
  destruct (np_random_choice_Fin n (map (fun x => x / Rsum o) o) (rng w 0%nat))
    as [a [Ha [Hlt Hcdf]]]; auto.
  - now rewrite length_map.
  - intros x Hx. apply in_map_iff in Hx. destruct Hx as [y [<- Hy]].
    apply Rlt_le, Rdiv_lt_0_compat; auto.
  - now apply Rsum_renormalised.
  - exists a. split; [|split; assumption].
    unfold random_with_probability, bind, gets, lift, ret, modify. simpl.
    rewrite renormalise_Fin by assumption. rewrite Ha. reflexivity.
Qed.

(** On all-zero scores every quotient is 0/0. *)
Lemma np_sum_zeros (output : vec) :
  Forall (fun x => x = fzero) output -> np_sum output = fzero.
Proof.
  intros Hz. unfold np_sum.
  assert (G : forall acc, acc = fzero -> fold_left fadd output acc = fzero).
  { induction Hz as [|x l Hx _ IH]; intros acc ->; simpl; auto.
    apply IH. subst x. unfold fzero. simpl. f_equal. lra. }
  now apply G.
Qed.

Lemma renormalise_zeros (output : vec) :
  Forall (fun x => x = fzero) output ->
  map (fun o => fdiv o (np_sum output)) output = repeat NaN (length output).
Proof.
  intros Hz. rewrite np_sum_zeros by assumption.
  induction Hz as [|x l Hx _ IH]; simpl; [reflexivity|].
  rewrite IH. subst x. unfold fzero. now rewrite fdiv_zero_zero.
Qed.

Lemma not_probability_vector_NaN (n m : nat) :
  is_probability_vector n (repeat NaN m) = false.
Proof.
  unfold is_probability_vector. apply andb_false_iff. right.
  destruct m as [|m]; simpl.
  - unfold np_sum; simpl.
    destruct (Rle_dec (Rabs (0 - 1)) atol) as [H|]; [|reflexivity].
    exfalso. replace (0 - 1) with (- (1)) in H by lra.
    rewrite Rabs_Ropp, Rabs_R1 in H. pose proof atol_lt_1. lra.
  - unfold np_sum; simpl. now rewrite fold_fadd_NaN.
Qed.

Lemma random_with_probability_zeros (output : vec) (n : nat) (w : World S) :
  Forall (fun x => x = fzero) output ->
  random_with_probability output n w = Err ValueError.
Proof.
  intros Hz.
  unfold random_with_probability, bind, gets, lift, ret, modify. simpl.
  rewrite renormalise_zeros by assumption.
  unfold np_random_choice. now rewrite not_probability_vector_NaN.
Qed.

(** C6. On scores that are all zero the sampler raises (the ValueError of
    [np.random.choice], whose argument is then all NaN) and returns no
    probabilities; on strictly positive scores it returns the scores divided
    by their sum, which add up to 1, and an action below the number of
    actions: the index at which the cumulative sum of these probabilities
    passes the uniform sample, that is, a draw from the categorical
    distribution they define. *)
Theorem random_with_probability_spec (w : World S) :
  (forall (output : vec) (n : nat),
     Forall (fun x => x = fzero) output ->
     random_with_probability output n w = Err ValueError) /\
  (forall (o : list R),
     o <> [] -> (forall x, In x o -> 0 < x) -> 0 <= rng w 0%nat < 1 ->
     exists a probs,
       random_with_probability (map Fin o) (length o) w =
       Ok ((a, map Fin probs), set_rng (snd (random_sample (rng w))) w) /\
       probs = map (fun x => x / Rsum o) o /\
       Rsum probs = 1 /\
       (a < length o)%nat /\
       Rsum (firstn a probs) <= rng w 0%nat < Rsum (firstn (Datatypes.S a) probs)).
Proof.
  split.
  - intros output n Hz. now apply random_with_probability_zeros.
  - intros o Hne Hpos Hu.
    assert (Hn : (0 < length o)%nat).
    { destruct o; [congruence | simpl; lia]. }
    destruct (random_with_probability_pos o (length o) w Hn eq_refl Hpos Hu)
      as [a [Ha [Hlt Hcdf]]].
    exists a, (map (fun x => x / Rsum o) o).
    split; [exact Ha|]. split; [reflexivity|]. split.
    + apply Rsum_renormalised. pose proof (Rsum_pos o Hne Hpos). lra.
    + split; assumption.
Qed.

End Sampler.

(** * Choosing an action *)

Section ChooseAction.

Variable S : Type.

Local Open Scope R_scope.

(** [choose_action] on finite weights and a finite state. *)
Lemma choose_action_Fin (s : list R) (M1 M2 : nat -> nat -> R)
    (w : World S) (O H A : nat) :
  length s = O ->
  has_shape (w1 w) O H -> has_shape (w2 w) H A ->
  (forall i j, (i < O)%nat -> (j < H)%nat -> get (w1 w) i j = Fin (M1 i j)) ->
  (forall j k, (j < H)%nat -> (k < A)%nat -> get (w2 w) j k = Fin (M2 j k)) ->
  nA w = A -> (0 < A)%nat -> 0 <= rng w 0%nat < 1 ->
  exists (x1 : vec) (o : list R) (a : nat),
    forward_step (map Fin s) w = Ok ((x1, map Fin o), w) /\
    length o = A /\
    (forall x, In x o -> 0 < x < 1) /\
    np_sum (map Fin o) = Fin (Rsum o) /\ 0 < Rsum o /\
    choose_action (map Fin s) w =
    Ok ((a, map Fin (map (fun x => x / Rsum o) o), x1),
        set_rng (snd (random_sample (rng w))) w) /\
    (a < A)%nat.
Proof.
  intros Hs H1 H2 HM1 HM2 HA Hpos Hu.
  set (x1 := map (fun j => Fin (Rmax 0 (rsum O (fun i => nth i s 0 * M1 i j))))
                 (seq 0 H)).
  set (sc := fun k => logistic
               (rsum H (fun j =>
                  Rmax 0 (rsum O (fun i => nth i s 0 * M1 i j)) * M2 j k))).
  set (o := map sc (seq 0 A)).
  assert (Hf : forward_step (map Fin s) w = Ok ((x1, map Fin o), w)).
  { rewrite (forward_step_Fin S s M1 M2 w O H A Hs H1 H2 HM1 HM2).
    unfold o. rewrite map_map. reflexivity. }
  assert (Hlen : length o = A) by (unfold o; now rewrite length_map, length_seq).
  assert (Hb : forall x, In x o -> 0 < x < 1).
  { intros x Hx. apply in_map_iff in Hx. destruct Hx as [k [<- _]].
    apply logistic_bounds. }
  assert (Hp : forall x, In x o -> 0 < x) by (intros x Hx; now apply Hb).
  destruct (random_with_probability_pos S o A w Hpos Hlen Hp Hu)
    as [a [Ha [Hlt _]]].
  exists x1, o, a.
  split; [exact Hf|]. split; [exact Hlen|]. split; [exact Hb|].
  split; [apply np_sum_Fin|]. split.
  - apply Rsum_pos; [|exact Hp]. intros E. rewrite E in Hlen. simpl in Hlen. lia.
  - split; [|exact Hlt].
    unfold choose_action, bind. rewrite Hf. unfold gets at 1. rewrite HA.
    rewrite Ha. reflexivity.
Qed.

End ChooseAction.

(** * Credit assignment: the gradient of one episode *)

Section Credit.

Variable S : Type.

Local Open Scope R_scope.

Lemma discount_rewards_length (r : vec) (g : npfloat) :
  length (discount_rewards r g) = length r.
Proof. induction r as [|x r IH]; simpl; auto. Qed.

Lemma standardize_length (d : vec) : length (standardize d) = length d.
Proof. unfold standardize. now rewrite !length_map. Qed.

Lemma discount_rewards_Fin (r : list R) (g : R) :
  discount_rewards (map Fin r) (Fin g) = map Fin (Rdiscount g r).
Proof.
  induction r as [|x r IH]; simpl; [reflexivity|].
  rewrite IH. f_equal. destruct (Rdiscount g r); reflexivity.
Qed.

Lemma Rdiscount_length (g : R) (r : list R) :
  length (Rdiscount g r) = length r.
Proof. induction r as [|x r IH]; simpl; auto. Qed.

(** The recurrence [G_t = r_t + g * G_{t+1}], with [G_T = 0]. *)
Lemma Rdiscount_rec (g : R) (r : list R) (t : nat) :
  (t < length r)%nat ->
  nth t (Rdiscount g r) 0 = nth t r 0 + g * nth (Datatypes.S t) (Rdiscount g r) 0.
Proof.
  revert t. induction r as [|x r IH]; intros t Ht; simpl in Ht; [lia|].
  destruct t as [|t].
  - simpl. destruct (Rdiscount g r); reflexivity.
  - change (nth t (Rdiscount g r) 0 =
            nth t r 0 + g * nth (Datatypes.S t) (Rdiscount g r) 0).
    apply IH. lia.
Qed.

Lemma Rdiscount_end (g : R) (r : list R) :
  nth (length r) (Rdiscount g r) 0 = 0.
Proof. apply nth_overflow. rewrite Rdiscount_length. lia. Qed.

Lemma INR_length_neq0 {A} (l : list A) : l <> [] -> INR (length l) <> 0.
Proof.
  intros H. apply not_0_INR. destruct l; [congruence | discriminate].
Qed.

Lemma np_mean_Fin (l : list R) :
  l <> [] -> np_mean (map Fin l) = Fin (Rmean l).
Proof.
  intros H. unfold np_mean, Rmean. rewrite np_sum_Fin, length_map.
  apply fdiv_Fin. now apply INR_length_neq0.
Qed.

Lemma Rsum_map_minus (l : list R) (m : R) :
  Rsum (map (fun x => x - m) l) = Rsum l - INR (length l) * m.
Proof.
  induction l as [|x l IH].
  - simpl. rewrite Rsum_nil. lra.
  - change (map (fun x => x - m) (x :: l))
      with ((x - m) :: map (fun x => x - m) l).
    rewrite !Rsum_cons, IH.
    change (length (x :: l)) with (Datatypes.S (length l)).
    rewrite S_INR. lra.
Qed.

Lemma Rmean_centred (l : list R) :
  l <> [] -> Rmean (map (fun x => x - Rmean l) l) = 0.
Proof.
  intros H. unfold Rmean at 1. rewrite Rsum_map_minus, length_map.
  unfold Rmean. pose proof (INR_length_neq0 l H). field. assumption.
Qed.

Lemma Rmean_squares_nonneg (l : list R) (m : R) :
  0 <= Rmean (map (fun x => (x - m) * (x - m)) l).
Proof.
  unfold Rmean. apply Rmult_le_pos.
  - apply Rsum_nonneg. intros y Hy. apply in_map_iff in Hy.
    destruct Hy as [x [<- _]]. apply Rle_0_sqr.
  - rewrite length_map. destruct l as [|x l].
    + simpl. rewrite Rinv_0. lra.
    + apply Rlt_le, Rinv_0_lt_compat, lt_0_INR. simpl. lia.
Qed.

Lemma np_std_Fin (l : list R) :
  l <> [] -> np_std (map Fin l) = Fin (Rstd l).
Proof.
  intros H. unfold np_std, Rstd. rewrite np_mean_Fin by assumption.
  rewrite map_map.
  assert (E : map (fun x => fmul (fsub (Fin x) (Fin (Rmean l)))
                                 (fsub (Fin x) (Fin (Rmean l)))) l =
              map Fin (map (fun x => (x - Rmean l) * (x - Rmean l)) l)).
  { rewrite map_map. apply map_ext. intros x. reflexivity. }
  rewrite E, np_mean_Fin.
  - apply fsqrt_Fin. apply Rmean_squares_nonneg.
  - destruct l; [congruence | discriminate].
Qed.

(** The standard deviation of the centred returns is that of the returns. *)
Lemma Rstd_centred (l : list R) :
  l <> [] -> Rstd (map (fun x => x - Rmean l) l) = Rstd l.
Proof.
  intros H. unfold Rstd. rewrite Rmean_centred by assumption.
  rewrite map_map. f_equal. unfold Rmean. rewrite !length_map. f_equal.
  apply Rsum_ext_map. intros x _. ring.
Qed.

Lemma standardize_Fin (l : list R) :
  l <> [] ->
  standardize (map Fin l) =
  map (fun x => fdiv (Fin (x - Rmean l)) (Fin (Rstd l))) l.
Proof.
  intros H. unfold standardize. cbv zeta. rewrite np_mean_Fin by assumption.
  assert (E : map (fun x => fsub x (Fin (Rmean l))) (map Fin l) =
              map Fin (map (fun x => x - Rmean l) l)).
  { rewrite !map_map. apply map_ext. intros x. reflexivity. }
  rewrite E, np_std_Fin, Rstd_centred by
    (first [assumption | destruct l; [congruence | discriminate]]).
  now rewrite !map_map.
Qed.

Lemma wf_map_rows {A} (f : A -> vec) (l : list A) (n : nat) :
  (forall x, length (f x) = n) -> wf (mkArr (length l) n (map f l)).
Proof.
  intros H. split; simpl.
  - now rewrite length_map.
  - apply Forall_forall. intros r Hr. apply in_map_iff in Hr.
    destruct Hr as [x [<- _]]. apply H.
Qed.

Lemma one_hot_length (n a : nat) : length (one_hot n a) = n.
Proof. unfold one_hot. now rewrite length_map, length_seq. Qed.

Section ErrorSignal.

Variables (tr : trajectory) (g : npfloat) (T O H A : nat).
Hypothesis Htr : wf_trajectory tr T O H A.

Lemma standardized_length :
  length (standardize (discount_rewards (t_reward tr) g)) = T.
Proof.
  rewrite standardize_length, discount_rewards_length. apply Htr.
Qed.

Lemma wf_policy_error :
  wf (zip_rows fsub (mkArr (length (t_action tr)) A (map (one_hot A) (t_action tr)))
        (t_prob tr)).
Proof.
  destruct Htr as [Hr [Ha [_ [[Wp [Rp Cp]] _]]]].
  apply wf_zip_rows; simpl; try assumption; try lia.
  apply wf_map_rows. intros a. apply one_hot_length.
Qed.

Lemma error_signal_shape : has_shape (error_signal A g tr) T A.
Proof.
  pose proof standardized_length as Hd.
  destruct Htr as [Hr [Ha [_ [[Wp [Rp Cp]] _]]]].
  unfold error_signal. split; [|simpl; split; [lia | reflexivity]].
  apply wf_zip_rows; simpl; try lia.
  - apply wf_policy_error.
  - apply wf_map_rows. intros x. apply repeat_length.
Qed.

(** Entry [(t, a)]: one-hot minus recorded probability, times the
    standardised return of step [t]. *)
Lemma get_error_signal (t a : nat) :
  (t < T)%nat -> (a < A)%nat ->
  get (error_signal A g tr) t a =
  fmul (fsub (if (a =? nth t (t_action tr) 0%nat)%nat then fone else fzero)
             (get (t_prob tr) t a))
       (nth t (standardize (discount_rewards (t_reward tr) g)) fzero).
Proof.
  intros Ht Ha'.
  pose proof standardized_length as Hd.
  pose proof wf_policy_error as Wpe.
  destruct Htr as [Hr [Ha [_ [[Wp [Rp Cp]] _]]]].
  unfold error_signal.
  rewrite get_zip_rows; simpl; try assumption; try lia.
  2: { apply wf_map_rows. intros x. apply repeat_length. }
  rewrite get_zip_rows; simpl; try assumption; try lia.
  2: { apply wf_map_rows. intros x. apply one_hot_length. }
  f_equal.
  - f_equal. unfold get; simpl.
    rewrite (nth_map_lt (one_hot A) (t_action tr) t 0%nat []) by lia.
    unfold one_hot. now rewrite nth_map_seq.
  - unfold get; simpl.
    rewrite (nth_map_lt (fun x => repeat x A)
               (standardize (discount_rewards (t_reward tr) g)) t fzero [])
      by lia.
    now apply nth_repeat_lt.
Qed.

End ErrorSignal.

(** [episode_gradient] hands the recorded states, the recorded hidden
    activations and the error signal to [backward_step]. *)
Lemma episode_gradient_run (tr : trajectory) (w : World S) (T O H A : nat) :
  wf_trajectory tr T O H A -> nA w = A ->
  episode_gradient tr w =
  backward_step (t_state tr) (t_x1 tr) (error_signal A (gamma (cfg w)) tr) w.
Proof.
  intros Htr HA.
  pose proof (standardized_length tr (gamma (cfg w)) T O H A Htr) as Hd.
  destruct Htr as [Hr [Ha [_ [[Wp [Rp Cp]] _]]]].
  unfold episode_gradient, bind, gets, lift, zip_arr, same_shape. simpl.
  rewrite HA. eqb_true. reflexivity.
Qed.

End Credit.

Section CreditSpec.

Variable S : Type.

Local Open Scope R_scope.

(** The error signal of an episode, entry by entry. *)
Lemma episode_gradient_entries (tr : trajectory) (w : World S) (T O H A : nat)
    (r : list R) (g : R) :
  (0 < T)%nat -> wf_trajectory tr T O H A ->
  t_reward tr = map Fin r -> gamma (cfg w) = Fin g -> nA w = A ->
  let G := Rdiscount g r in
  (forall t, (t < T)%nat ->
     nth t G 0 = nth t r 0 + g * nth (Datatypes.S t) G 0) /\
  nth T G 0 = 0 /\
  exists E,
    has_shape E T A /\
    (forall t a, (t < T)%nat -> (a < A)%nat ->
       get E t a =
       fmul (fsub (if (a =? nth t (t_action tr) 0%nat)%nat then fone else fzero)
                  (get (t_prob tr) t a))
            (fdiv (Fin (nth t G 0 - Rmean G)) (Fin (Rstd G)))) /\
    episode_gradient tr w = backward_step (t_state tr) (t_x1 tr) E w.
Proof.
  intros HT Htr Hr Hg HA G.
  assert (Hlen : length r = T).
  { destruct Htr as [Hl _]. rewrite Hr, length_map in Hl. exact Hl. }
  assert (HG : length G = T) by (unfold G; now rewrite Rdiscount_length).
  assert (Hne : G <> []) by (intros E; rewrite E in HG; simpl in HG; lia).
  split; [|split].
  - intros t Ht. apply Rdiscount_rec. lia.
  - rewrite <- Hlen. apply Rdiscount_end.
  - exists (error_signal A (Fin g) tr). split; [|split].
    + now apply (error_signal_shape tr (Fin g) T O H A).
    + intros t a Ht Ha.
      rewrite (get_error_signal tr (Fin g) T O H A Htr t a Ht Ha).
      f_equal. rewrite Hr, discount_rewards_Fin. fold G.
      rewrite standardize_Fin by assumption.
      now rewrite (nth_map_lt _ G t 0 fzero) by lia.
    + rewrite <- Hg. now apply (episode_gradient_run S tr w T O H A).
Qed.

(** ** Returns without variance *)

Lemma Rsum_zero_all (l : list R) :
  (forall x, In x l -> 0 <= x) -> Rsum l = 0 -> forall x, In x l -> x = 0.
Proof.
  induction l as [|y l IH]; intros Hp Hs x Hx; [contradiction|].
  rewrite Rsum_cons in Hs.
  assert (0 <= y) by (apply Hp; now left).
  assert (0 <= Rsum l).
  { apply Rsum_nonneg. intros z Hz. apply Hp. now right. }
  destruct Hx as [<-|Hx]; [lra|].
  apply IH; auto; [|lra]. intros z Hz. apply Hp. now right.
Qed.

Lemma Rstd_zero_all_equal (l : list R) :
  l <> [] -> Rstd l = 0 -> forall x, In x l -> x = Rmean l.
Proof.
  intros Hne Hs x Hx. unfold Rstd in Hs.
  apply sqrt_eq_0 in Hs; [|apply Rmean_squares_nonneg].
  unfold Rmean at 1 in Hs. rewrite length_map in Hs.
  pose proof (INR_length_neq0 l Hne) as Hn.
  assert (Hz : Rsum (map (fun x => (x - Rmean l) * (x - Rmean l)) l) = 0).
  { apply (Rmult_eq_reg_r (/ INR (length l))).
    - unfold Rdiv in Hs. rewrite Hs. ring.
    - now apply Rinv_neq_0_compat. }
  assert (Hsq : (x - Rmean l) * (x - Rmean l) = 0).
  { apply (Rsum_zero_all _ (fun y Hy => ltac:(
             apply in_map_iff in Hy; destruct Hy as [z [<- _]];
             apply Rle_0_sqr)) Hz).
    apply in_map_iff. now exists x. }
  apply Rmult_integral in Hsq. lra.
Qed.

(** A single-step episode has no variance. *)
Lemma Rstd_single (x : R) : Rstd [x] = 0.
Proof.
  assert (Hm : Rmean [x] = x).
  { unfold Rmean. rewrite Rsum_cons, Rsum_nil. simpl. lra. }
  unfold Rstd. rewrite Hm. simpl map.
  replace ((x - x) * (x - x)) with 0 by ring.
  replace (Rmean [0]) with 0.
  - apply sqrt_0.
  - unfold Rmean. rewrite Rsum_cons, Rsum_nil. simpl. lra.
Qed.

Lemma fold_fadd_In_NaN (l : vec) (a : npfloat) :
  In NaN l -> fold_left fadd l a = NaN.
Proof.
  revert a. induction l as [|x l IH]; intros a Hin; [contradiction|].
  simpl. destruct Hin as [->|Hin].
  - rewrite fadd_NaN_r. apply fold_fadd_NaN.
  - now apply IH.
Qed.

(** A sum with a NaN term is NaN. *)
Lemma fsum_NaN_at (n k : nat) (f : nat -> npfloat) :
  (k < n)%nat -> f k = NaN -> fsum n f = NaN.
Proof.
  intros Hk Hf. unfold fsum, np_sum. apply fold_fadd_In_NaN.
  rewrite <- Hf. apply in_map. apply in_seq. lia.
Qed.

(** With returns whose standard deviation is 0 (in exact arithmetic: the
    returns are all equal) every entry of the error signal is 0/0 = NaN,
    [episode_gradient] raises nothing, and the NaN reaches the gradients. *)
Lemma zero_variance_gradient (tr : trajectory) (w : World S) (T O H A : nat)
    (r : list R) (g : R) :
  (0 < T)%nat -> (0 < A)%nat -> wf_trajectory tr T O H A ->
  t_reward tr = map Fin r -> gamma (cfg w) = Fin g -> nA w = A ->
  has_shape (w2 w) H A ->
  Rstd (Rdiscount g r) = 0 ->
  exists change_w1 change_w2,
    episode_gradient tr w = Ok ((change_w1, change_w2), w) /\
    (forall j k, (j < H)%nat -> (k < A)%nat -> get change_w2 j k = NaN) /\
    (forall i j t, (i < O)%nat -> (j < H)%nat -> (t < T)%nat ->
       fle (get (t_x1 tr) t j) fzero = false -> get change_w1 i j = NaN).
Proof.
  intros HT HApos Htr Hr Hg HA H2 Hsd.
  destruct (episode_gradient_entries tr w T O H A r g HT Htr Hr Hg HA)
    as [_ [_ [E [HE [Hent Hrun]]]]].
  assert (Hlen : length (Rdiscount g r) = T).
  { rewrite Rdiscount_length. destruct Htr as [Hl _].
    rewrite Hr, length_map in Hl. exact Hl. }
  assert (Hne : Rdiscount g r <> []).
  { intros E0. rewrite E0 in Hlen. simpl in Hlen. lia. }
  assert (HNaN : forall t a, (t < T)%nat -> (a < A)%nat -> get E t a = NaN).
  { intros t a Ht Ha. rewrite Hent by assumption.
    rewrite Hsd.
    rewrite (Rstd_zero_all_equal _ Hne Hsd (nth t (Rdiscount g r) 0))
      by (apply nth_In; lia).
    replace (Rmean (Rdiscount g r) - Rmean (Rdiscount g r)) with 0 by ring.
    rewrite fdiv_zero_zero. apply fmul_NaN_r. }
  destruct Htr as [_ [_ [H0 [_ H1]]]].
  destruct (backward_step_entries S (t_state tr) (t_x1 tr) E w T O H A H0 H1 HE H2)
    as [c1 [c2 [Hb [_ [_ [Hc2 Hc1]]]]]].
  exists c1, c2. split; [now rewrite Hrun|]. split.
  - intros j k Hj Hk. rewrite Hc2 by assumption.
    apply (fsum_NaN_at T 0%nat); [lia|].
    rewrite HNaN by lia. apply fmul_NaN_r.
  - intros i j t Hi Hj Ht Hgate. rewrite Hc1 by assumption.
    apply (fsum_NaN_at T t); [lia|]. rewrite Hgate.
    rewrite (fsum_NaN_at A 0%nat); [apply fmul_NaN_r | lia |].
    rewrite HNaN by lia. reflexivity.
Qed.

(** [episode_gradient] raises nothing on a trajectory of consistent shapes,
    whatever the rewards, the probabilities and the weights are. *)
Lemma episode_gradient_returns (tr : trajectory) (w : World S) (T O H A : nat) :
  wf_trajectory tr T O H A -> nA w = A -> has_shape (w2 w) H A ->
  exists change_w1 change_w2,
    episode_gradient tr w = Ok ((change_w1, change_w2), w).
Proof.
  intros Htr HA H2.
  rewrite (episode_gradient_run S tr w T O H A Htr HA).
  pose proof (error_signal_shape tr (gamma (cfg w)) T O H A Htr) as HE.
  destruct Htr as [_ [_ [H0 [_ H1]]]].
  destruct (backward_step_entries S (t_state tr) (t_x1 tr) _ w T O H A
              H0 H1 HE H2) as [c1 [c2 [Hb _]]].
  now exists c1, c2.
Qed.

(** The single-step episode: its one return is its own mean, the centred
    return is 0 and so is the standard deviation. *)
Lemma single_step_gradient (tr : trajectory) (w : World S) (T O H A : nat)
    (rew g : R) (c1 c2 : ndarray) :
  (0 < A)%nat -> wf_trajectory tr T O H A -> nA w = A ->
  has_shape (w2 w) H A ->
  t_reward tr = [Fin rew] -> gamma (cfg w) = Fin g ->
  episode_gradient tr w = Ok ((c1, c2), w) ->
  (forall j k, (j < H)%nat -> (k < A)%nat -> get c2 j k = NaN) /\
  (forall i j, (i < O)%nat -> (j < H)%nat ->
     fle (get (t_x1 tr) 0 j) fzero = false -> get c1 i j = NaN).
Proof.
  intros HA0 Htr HA H2 Hr Hg Hrun.
  assert (HT : T = 1%nat).
  { destruct Htr as [Hl _]. rewrite Hr in Hl. simpl in Hl. lia. }
  subst T.
  destruct (zero_variance_gradient tr w 1 O H A [rew] g ltac:(lia) HA0 Htr Hr Hg
              HA H2 (Rstd_single _)) as [d1 [d2 [Hrun' [Hc2 Hc1]]]].
  rewrite Hrun in Hrun'. injection Hrun' as <- <-.
  split; [exact Hc2|].
  intros i j Hi Hj Hact. apply (Hc1 i j 0%nat Hi Hj ltac:(lia) Hact).
Qed.

End CreditSpec.

(** * The trajectory collector *)

Section Collector.

Variable S : Type.
Variable env : Env S.

Lemma bind_inv {A B} (m : M S A) (k : A -> M S B) (w : World S) (r : B * World S) :
  bind m k w = Ok r -> exists a w', m w = Ok (a, w') /\ k a w' = Ok r.
Proof.
  unfold bind. destruct (m w) as [[a w']|e]; intros H; [eauto | discriminate].
Qed.

Lemma lift_inv {A} (x : result A) (w : World S) (a : A) (w' : World S) :
  lift x w = Ok (a, w') -> x = Ok a /\ w' = w.
Proof.
  unfold lift. destruct x; intros H; inversion H; auto.
Qed.

Lemma same_self_refl (w : World S) : same_self w w.
Proof. repeat split. Qed.

Lemma same_self_trans (a b c : World S) :
  same_self a b -> same_self b c -> same_self a c.
Proof.
  unfold same_self. intros [? [? [? [? ?]]]] [? [? [? [? ?]]]].
  repeat split; congruence.
Qed.

(** [forward_step] changes nothing. *)
Lemma forward_step_pure (state : vec) (w w' : World S) (r : vec * vec) :
  forward_step state w = Ok (r, w') -> w' = w.
Proof.
  unfold forward_step. intros H.
  apply bind_inv in H. destruct H as [W1 [wa [Ha H]]]. inversion Ha; subst.
  apply bind_inv in H. destruct H as [x1 [wb [Hb H]]].
  apply lift_inv in Hb. destruct Hb as [_ ->].
  apply bind_inv in H. destruct H as [W2 [wc [Hc H]]]. inversion Hc; subst.
  apply bind_inv in H. destruct H as [z [wd [Hd H]]].
  apply lift_inv in Hd. destruct Hd as [_ ->].
  now inversion H.
Qed.

(** [choose_action] only advances the random source. *)
Lemma choose_action_effect (state : vec) (w w' : World S) (r : nat * vec * vec) :
  choose_action state w = Ok (r, w') ->
  w' = set_rng (snd (random_sample (rng w))) w.
Proof.
  unfold choose_action. intros H.
  apply bind_inv in H. destruct H as [[x1 out] [wa [Ha H]]].
  apply forward_step_pure in Ha. subst wa.
  apply bind_inv in H. destruct H as [n [wb [Hb H]]]. inversion Hb; subst.
  apply bind_inv in H. destruct H as [[a p] [wc [Hc H]]].
  inversion H; subst. clear H.
  unfold random_with_probability in Hc.
  apply bind_inv in Hc. destruct Hc as [g [wd [Hd Hc]]]. inversion Hd; subst.
  simpl in Hc.
  apply bind_inv in Hc. destruct Hc as [act [we [He Hc]]].
  apply lift_inv in He. destruct He as [_ ->].
  apply bind_inv in Hc. destruct Hc as [u [wf' [Hf Hc]]].
  inversion Hf; subst. now inversion Hc.
Qed.

Lemma call_step_effect (a : nat) (w w' : World S) (obs : vec) (rew : npfloat)
    (d : bool) :
  call_step env a w = Ok ((obs, rew, d), w') ->
  exists s, env_step env (env_st w) a = Ok (s, (obs, rew, d)) /\
            w' = add_event (EvStep a d) (set_env_st s w).
Proof.
  unfold call_step. destruct (env_step env (env_st w) a) as [[s [[o r] d']]|e];
    intros H; inversion H; subst. eauto.
Qed.

Lemma call_render_effect (w w' : World S) (u : unit) :
  call_render env w = Ok (u, w') ->
  exists s, env_render env (env_st w) = Ok s /\
            w' = add_event EvRender (set_env_st s w).
Proof.
  unfold call_render. destruct (env_render env (env_st w)) as [s|e];
    intros H; inversion H; subst. eauto.
Qed.

Lemma call_reset_effect (w w' : World S) (obs : vec) :
  call_reset env w = Ok (obs, w') ->
  exists s, env_reset env (env_st w) = Ok (s, obs) /\
            w' = add_event EvReset (set_env_st s w).
Proof.
  unfold call_reset. destruct (env_reset env (env_st w)) as [[s o]|e];
    intros H; inversion H; subst. eauto.
Qed.

Lemma trajectory_loop_post (n : nat) (render : bool) :
  forall (state : vec) (b b' : buffers) (w w' : World S),
    trajectory_loop env n render state b w = Ok (b', w') ->
    loop_post n render b b' w w'.
Proof.
  induction n as [|n IH]; intros state b b' w w' H.
  - inversion H; subst. exists []. simpl.
    rewrite !app_nil_r, !Nat.add_0_r.
    do 6 (split; [reflexivity|]).
    split; [now right | apply same_self_refl].
  - simpl in H.
    apply bind_inv in H. destruct H as [[[a p] x1] [wa [Ha H]]].
    apply choose_action_effect in Ha.
    apply bind_inv in H. destruct H as [[[st' rew] d] [wb [Hb H]]].
    apply call_step_effect in Hb. destruct Hb as [s [_ Hb]].
    destruct d.
    + inversion H; subst. exists [(a, true)]. simpl.
      rewrite !length_app. simpl. rewrite andb_false_r. simpl.
      do 6 (split; [reflexivity|]).
      split; [left; split; [reflexivity | lia] | now repeat split].
    + apply bind_inv in H. destruct H as [u [wc [Hc H]]].
      apply IH in H. destruct H as [steps Hpost]. cbv zeta in Hpost.
      destruct Hpost as [Htr [Hact [Hs [Hr [Hp [Hx [Hd Hself]]]]]]].
      simpl in Hact, Hs, Hr, Hp, Hx. rewrite !length_app in *. simpl in *.
      assert (Hc' : trace wc = trace wb ++ (if render then [EvRender] else [])
                    /\ same_self wb wc).
      { destruct render.
        - apply call_render_effect in Hc. destruct Hc as [s' [_ ->]].
          split; [reflexivity | now repeat split].
        - inversion Hc; subst. rewrite app_nil_r.
          split; [reflexivity | apply same_self_refl]. }
      destruct Hc' as [Htc Hsc].
      exists ((a, false) :: steps). cbv zeta. simpl.
      rewrite andb_true_r.
      split.
      { rewrite Htr, Htc. subst wb wa. simpl. now rewrite <- !app_assoc. }
      split; [now rewrite Hact, <- app_assoc|].
      split; [lia|]. split; [lia|]. split; [lia|]. split; [lia|].
      split.
      { destruct Hd as [[Hd Hk]|[Hd Hk]].
        - left. split; [|lia]. rewrite Hd.
          destruct (length steps) as [|k'] eqn:E; [lia|].
          simpl. now rewrite Nat.sub_0_r.
        - right. split; [now rewrite Hd | lia]. }
      eapply same_self_trans; [|eapply same_self_trans; [exact Hsc|exact Hself]].
      subst wb wa. now repeat split.
Qed.

End Collector.

Section CollectorSuccess.

Variable S : Type.
Variable env : Env S.
Variables O H A : nat.

Local Open Scope R_scope.

Lemma good_learner_same (w w' : World S) :
  good_learner w O H A -> same_self w w' ->
  (forall k, 0 <= rng w' k < 1) -> good_learner w' O H A.
Proof.
  intros [HA [Hp [H1 [H2 [F1 [F2 _]]]]]] [E1 [E2 [_ [EA _]]]] Hr.
  unfold good_learner. rewrite E1, E2, EA. tauto.
Qed.

Lemma choose_action_ok (o : list R) (w : World S) :
  good_learner w O H A -> length o = O ->
  exists a p x1,
    choose_action (map Fin o) w =
    Ok ((a, p, x1), set_rng (snd (random_sample (rng w))) w) /\
    (a < A)%nat /\ length p = A /\ length x1 = H.
Proof.
  intros [HA [Hp [H1 [H2 [F1 [F2 Hr]]]]]] Ho.
  pose proof H1 as [_ [R1 C1]]. pose proof H2 as [_ [R2 C2]].
  destruct (choose_action_Fin S o (fun i j => to_R (get (w1 w) i j))
              (fun j k => to_R (get (w2 w) j k)) w O H A Ho H1 H2)
    as [x1 [sc [a [Hf [Hl [_ [_ [_ [Hc Ha]]]]]]]]]; auto.
  - intros i j Hi Hj. apply F1; lia.
  - intros j k Hj Hk. apply F2; lia.
  - exists a, (map Fin (map (fun x => x / Rsum sc) sc)), x1.
    split; [exact Hc|]. split; [exact Ha|]. split.
    + now rewrite !length_map.
    + rewrite forward_step_run in Hf by (rewrite ?length_map; lia).
      inversion Hf as [[Hx Ho']]. rewrite length_map. unfold vecmat.
      now rewrite length_map, length_seq.
Qed.

Lemma buffers_ok_snoc (b : buffers) (st p x1 : vec) (a : nat) (rew : npfloat) :
  buffers_ok b O H A -> length st = O -> length p = A -> length x1 = H ->
  buffers_ok (mkBuffers (b_states b ++ [st]) (b_actions b ++ [a])
                (b_rewards b ++ [rew]) (b_episode_probabilities b ++ [p])
                (b_x1s b ++ [x1])) O H A.
Proof.
  intros [Bs [Bp Bx]] Hs Hp Hx. unfold buffers_ok; simpl.
  repeat split; apply Forall_app; split; auto.
Qed.

Lemma trajectory_loop_ok (n : nat) (render : bool) :
  benign_env env O ->
  forall (o : list R) (b : buffers) (w : World S),
    good_learner w O H A -> length o = O -> buffers_ok b O H A ->
    exists b' w',
      trajectory_loop env n render (map Fin o) b w = Ok (b', w') /\
      good_learner w' O H A /\ buffers_ok b' O H A.
Proof.
  intros [_ [Hstep Hrender]].
  induction n as [|n IH]; intros o b w Hg Ho Hb.
  - exists b, w. split; [reflexivity | split; assumption].
  - destruct (choose_action_ok o w Hg Ho) as [a [p [x1 [Hc [Ha [Hp Hx]]]]]].
    set (wa := set_rng (snd (random_sample (rng w))) w) in *.
    destruct (Hstep (env_st wa) a) as [s' [o' [rew [d [Hs Ho']]]]].
    set (wb := add_event (EvStep a d) (set_env_st s' wa)).
    assert (Hgb : good_learner wb O H A).
    { apply (good_learner_same w); [assumption | now repeat split |].
      intros k. simpl. apply Hg. }
    pose proof (buffers_ok_snoc b (map Fin o) p x1 a rew Hb
                  ltac:(now rewrite length_map) Hp Hx) as Hb'.
    assert (Hstep' : call_step env a wa = Ok ((map Fin o', rew, d), wb)).
    { unfold call_step. now rewrite Hs. }
    destruct d.
    + eexists _, wb. split; [|split; eassumption].
      simpl. unfold bind. rewrite Hc. fold wa. rewrite Hstep'. reflexivity.
    + assert (Hr : exists wc,
                 (if render then call_render env else ret tt) wb = Ok (tt, wc)
                 /\ good_learner wc O H A).
      { destruct render.
        - destruct (Hrender (env_st wb)) as [s'' Hs''].
          exists (add_event EvRender (set_env_st s'' wb)). split.
          + unfold call_render. now rewrite Hs''.
          + apply (good_learner_same wb); [assumption | now repeat split |].
            intros k. simpl. apply Hg.
        - exists wb. split; [reflexivity | assumption]. }
      destruct Hr as [wc [Hr Hgc]].
      destruct (IH o' _ wc Hgc Ho' Hb') as [b' [w' [Hl [Hg' Hb'']]]].
      exists b', w'. split; [|split; assumption].
      simpl. unfold bind. rewrite Hc. fold wa. rewrite Hstep'.
      unfold bind in Hr. rewrite Hr. exact Hl.
Qed.

(** In exact arithmetic a learner with finite weights always has scores in
    (0, 1), so its action selection does not raise. *)
Lemma good_learner_sampler_defined (w : World S) :
  good_learner w O H A -> sampler_defined w O.
Proof.
  intros Hg o w0 Ho Hself Hr.
  pose proof (good_learner_same w w0 Hg Hself Hr) as Hg0.
  destruct (choose_action_ok o w0 Hg0 Ho) as [a [p [x1 [Hc _]]]].
  eexists _, _. exact Hc.
Qed.

(** The loop returns when neither the environment nor the action selection
    raises: it is bounded by its counter. *)
Lemma trajectory_loop_returns (n : nat) (render : bool) (w : World S) :
  benign_env env O -> sampler_defined w O ->
  forall (o : list R) (b : buffers) (w0 : World S),
    length o = O -> same_self w w0 -> (forall k, 0 <= rng w0 k < 1) ->
    exists b' w', trajectory_loop env n render (map Fin o) b w0 = Ok (b', w').
Proof.
  intros [_ [Hstep Hrender]] Hsd.
  induction n as [|n IH]; intros o b w0 Ho Hself Hr.
  - exists b, w0. reflexivity.
  - destruct (Hsd o w0 Ho Hself Hr) as [[[a p] x1] [wa Hc]].
    pose proof (choose_action_effect S _ _ _ _ Hc) as Ewa.
    destruct (Hstep (env_st wa) a) as [s' [o' [rew [d [Hs Ho']]]]].
    set (wb := add_event (EvStep a d) (set_env_st s' wa)).
    assert (Hstep' : call_step env a wa = Ok ((map Fin o', rew, d), wb)).
    { unfold call_step. now rewrite Hs. }
    assert (Hselfb : same_self w wb).
    { apply (same_self_trans S w w0 wb Hself). subst wb wa. now repeat split. }
    assert (Hrb : forall k, 0 <= rng wb k < 1).
    { intros k. subst wb wa. simpl. apply Hr. }
    destruct d.
    + eexists _, wb. simpl. unfold bind. rewrite Hc, Hstep'. reflexivity.
    + assert (Hrd : exists wc,
                 (if render then call_render env else ret tt) wb = Ok (tt, wc)
                 /\ same_self w wc /\ forall k, 0 <= rng wc k < 1).
      { destruct render.
        - destruct (Hrender (env_st wb)) as [s'' Hs''].
          exists (add_event EvRender (set_env_st s'' wb)). split; [|split].
          + unfold call_render. now rewrite Hs''.
          + apply (same_self_trans S w wb _ Hselfb). now repeat split.
          + intros k. simpl. apply Hrb.
        - exists wb. split; [reflexivity | split; assumption]. }
      destruct Hrd as [wc [Hrd [Hselfc Hrc]]].
      destruct (IH o' (mkBuffers (b_states b ++ [map Fin o]) (b_actions b ++ [a])
                         (b_rewards b ++ [rew])
                         (b_episode_probabilities b ++ [p]) (b_x1s b ++ [x1]))
                  wc Ho' Hselfc Hrc) as [b' [w' Hl]].
      exists b', w'. simpl. unfold bind. rewrite Hc, Hstep'.
      unfold bind in Hrd. rewrite Hrd. exact Hl.
Qed.

End CollectorSuccess.

Section GetTrajectory.

Variable S : Type.
Variable env : Env S.

Lemma count_steps_episode_events (render : bool) (steps : list (nat * bool)) :
  count_steps (episode_events render steps) = length steps.
Proof.
  unfold count_steps. induction steps as [|[a d] steps IH]; simpl; auto.
  f_equal. rewrite filter_app, length_app, IH.
  destruct (render && negb d); reflexivity.
Qed.

Lemma count_renders_episode_events (render : bool) (steps : list (nat * bool)) :
  count_renders (episode_events render steps) =
  if render then length (filter negb (map snd steps)) else 0%nat.
Proof.
  unfold count_renders. induction steps as [|[a d] steps IH]; simpl.
  - now destruct render.
  - rewrite filter_app, length_app, IH.
    destruct render, d; reflexivity.
Qed.

(** What is known when [get_trajectory] returns. *)
Lemma get_trajectory_post (render : bool) (w w' : World S) (traj : trajectory) :
  get_trajectory env render w = Ok (traj, w') ->
  exists steps : list (nat * bool),
    let T := length steps in
    let n := episode_max_length (cfg w) in
    trace w' = trace w ++ EvReset :: episode_events render steps /\
    t_action traj = map fst steps /\
    length (t_reward traj) = T /\
    (nrows (t_state traj) = T /\ length (rows (t_state traj)) = T) /\
    (nrows (t_prob traj) = T /\ length (rows (t_prob traj)) = T) /\
    (nrows (t_x1 traj) = T /\ length (rows (t_x1 traj)) = T) /\
    ((map snd steps = repeat false (T - 1) ++ [true] /\ (0 < T <= n)%nat)
     \/ (map snd steps = repeat false n /\ T = n)) /\
    same_self w w'.
Proof.
  unfold get_trajectory. intros H0.
  apply bind_inv in H0. destruct H0 as [st [wa [Ha H0]]].
  apply call_reset_effect in Ha. destruct Ha as [s [_ Ha]].
  apply bind_inv in H0. destruct H0 as [n [wb [Hb H0]]].
  inversion Hb; subst n wb. clear Hb.
  apply bind_inv in H0. destruct H0 as [b [wc [Hc H0]]].
  inversion H0; subst traj w'. clear H0.
  apply trajectory_loop_post in Hc. destruct Hc as [steps Hpost].
  cbv zeta in Hpost.
  destruct Hpost as [Htr [Hact [Hs [Hr [Hp [Hx [Hd Hself]]]]]]].
  simpl in Hact, Hs, Hr, Hp, Hx.
  exists steps. cbv zeta. simpl.
  split. { rewrite Htr. subst wa. simpl. now rewrite <- app_assoc. }
  split; [exact Hact|]. split; [exact Hr|].
  split; [now split|]. split; [now split|]. split; [now split|].
  split.
  - subst wa. exact Hd.
  - eapply same_self_trans; [|exact Hself]. subst wa. now repeat split.
Qed.

(** A render call that raises ends the collection with that exception. *)
Lemma render_failure_aborts (w w0 wa wb : World S) (obs0 p x1 obs : vec)
    (a : nat) (rew : npfloat) (e : exn) :
  call_reset env w = Ok (obs0, w0) ->
  choose_action obs0 w0 = Ok ((a, p, x1), wa) ->
  call_step env a wa = Ok ((obs, rew, false), wb) ->
  env_render env (env_st wb) = Err e ->
  (0 < episode_max_length (cfg w))%nat ->
  get_trajectory env true w = Err e.
Proof.
  intros Hr Hc Hs He Hn.
  assert (Hcfg : cfg w0 = cfg w).
  { apply call_reset_effect in Hr. destruct Hr as [s [_ ->]]. reflexivity. }
  unfold get_trajectory, bind at 1. rewrite Hr.
  unfold bind at 1, gets. rewrite Hcfg.
  destruct (episode_max_length (cfg w)) as [|n]; [lia|].
  unfold bind at 1. simpl trajectory_loop.
  unfold bind at 1. rewrite Hc. unfold bind at 1. rewrite Hs.
  unfold bind at 1, call_render. now rewrite He.
Qed.

(** Passes that do not end the episode hand the rest of the loop on: what
    the rest returns or raises is what the loop returns or raises. *)
Lemma passes_loop (k : nat) (state state' : vec) (w w' : World S) :
  passes env k state w state' w' ->
  forall (m : nat) (b : buffers),
    exists b',
      trajectory_loop env (k + m) true state b w =
      trajectory_loop env m true state' b' w'.
Proof.
  induction 1 as [state w|k state state' state'' w wa wb wc w'' a p x1 rew u
                    Hc Hs Hr Hrest IH]; intros m b.
  - exists b. reflexivity.
  - destruct (IH m (mkBuffers (b_states b ++ [state]) (b_actions b ++ [a])
                      (b_rewards b ++ [rew])
                      (b_episode_probabilities b ++ [p]) (b_x1s b ++ [x1])))
      as [b' Hb'].
    exists b'. rewrite <- Hb'. destruct u.
    simpl. unfold bind. rewrite Hc, Hs, Hr. reflexivity.
Qed.

(** A render call that raises ends the loop with that exception, at
    whichever pass it is made. *)
Lemma render_failure_in_loop (m : nat) (state obs p x1 : vec) (b : buffers)
    (w wa wb : World S) (a : nat) (rew : npfloat) (e : exn) :
  choose_action state w = Ok ((a, p, x1), wa) ->
  call_step env a wa = Ok ((obs, rew, false), wb) ->
  env_render env (env_st wb) = Err e ->
  trajectory_loop env (Datatypes.S m) true state b w = Err e.
Proof.
  intros Hc Hs He. simpl. unfold bind. rewrite Hc, Hs.
  unfold call_render. now rewrite He.
Qed.

Lemma render_failure_aborts_at (k : nat) (w w0 wk wa wb : World S)
    (obs0 state p x1 obs : vec) (a : nat) (rew : npfloat) (e : exn) :
  call_reset env w = Ok (obs0, w0) ->
  passes env k obs0 w0 state wk ->
  choose_action state wk = Ok ((a, p, x1), wa) ->
  call_step env a wa = Ok ((obs, rew, false), wb) ->
  env_render env (env_st wb) = Err e ->
  (k < episode_max_length (cfg w))%nat ->
  get_trajectory env true w = Err e.
Proof.
  intros Hr Hp Hc Hs He Hn.
  assert (Hcfg : cfg w0 = cfg w).
  { apply call_reset_effect in Hr. destruct Hr as [s [_ ->]]. reflexivity. }
  unfold get_trajectory, bind at 1. rewrite Hr.
  unfold bind at 1, gets. rewrite Hcfg.
  replace (episode_max_length (cfg w))
    with (k + Datatypes.S (episode_max_length (cfg w) - k - 1))%nat by lia.
  unfold bind at 1.
  destruct (passes_loop k obs0 state w0 wk Hp
              (Datatypes.S (episode_max_length (cfg w) - k - 1)) empty_buffers)
    as [b' ->].
  now rewrite (render_failure_in_loop _ state obs p x1 b' wk wa wb a rew e Hc Hs He).
Qed.

End GetTrajectory.

Section GetTrajectorySuccess.

Variable S : Type.
Variable env : Env S.
Variables O H A : nat.

Lemma has_shape_np_array (l : list vec) (T n : nat) :
  length l = T -> (0 < T)%nat -> Forall (fun r => length r = n) l ->
  has_shape (np_array l) T n.
Proof.
  intros Hl HT Hf.
  assert (Hn : length (hd [] l) = n).
  { destruct l as [|r l]; [simpl in Hl; lia|]. now inversion Hf. }
  unfold has_shape, wf, np_array; simpl. rewrite Hn. auto.
Qed.

Lemma get_trajectory_ok (render : bool) (w : World S) :
  benign_env env O -> good_learner w O H A ->
  exists traj w',
    get_trajectory env render w = Ok (traj, w') /\
    good_learner w' O H A /\
    ((0 < episode_max_length (cfg w))%nat ->
     exists T, (0 < T)%nat /\ wf_trajectory traj T O H A).
Proof.
  intros Hbe Hg.
  pose proof Hbe as [Hreset _].
  destruct (Hreset (env_st w)) as [s' [o [Hr Ho]]].
  set (w0 := add_event EvReset (set_env_st s' w)).
  assert (Hg0 : good_learner w0 O H A).
  { apply (good_learner_same S O H A w); [assumption | now repeat split |].
    intros k. simpl. apply Hg. }
  assert (Hb0 : buffers_ok empty_buffers O H A) by (repeat split; constructor).
  destruct (trajectory_loop_ok S env O H A (episode_max_length (cfg w)) render
              Hbe o empty_buffers w0 Hg0 Ho Hb0) as [b' [w' [Hl [Hg' Hb']]]].
  assert (Hrun : get_trajectory env render w =
                 Ok (mkTrajectory (b_rewards b') (np_array (b_states b'))
                       (b_actions b') (np_array (b_episode_probabilities b'))
                       (np_array (b_x1s b')), w')).
  { unfold get_trajectory, bind, call_reset, gets, ret. rewrite Hr. fold w0.
    change (cfg w0) with (cfg w). now rewrite Hl. }
  eexists _, w'. split; [exact Hrun|]. split; [exact Hg'|].
  intros Hn.
  destruct (get_trajectory_post S env render w w' _ Hrun) as [steps Hpost].
  cbv zeta in Hpost. simpl in Hpost.
  destruct Hpost as [_ [Hact [Hrw [[_ Hs] [[_ Hp] [[_ Hx] [Hd _]]]]]]].
  exists (length steps).
  assert (HT : (0 < length steps)%nat) by (destruct Hd as [[_ ?]|[_ ?]]; lia).
  destruct Hb' as [Bs [Bp Bx]].
  split; [exact HT|]. unfold wf_trajectory; simpl.
  split; [exact Hrw|]. split; [now rewrite Hact, length_map|].
  split; [|split]; apply has_shape_np_array; assumption.
Qed.

(** C9. When [get_trajectory] returns, the five recorded sequences (the
    rewards, the actions, and the rows of the states, of the probabilities
    and of the hidden activations) have one length [T], which is the number
    of environment steps made and at most [episode_max_length]; the actions
    recorded are the actions of those steps, in order; either the last
    step, and no step before it, reported termination, or no step did and
    [T] is the cap.  With an environment whose calls do not raise and a
    learner whose action selection does not raise, [get_trajectory] does
    return: reaching the cap is an ordinary return. *)
Theorem get_trajectory_spec (render : bool) (w : World S) :
  (forall traj w',
     get_trajectory env render w = Ok (traj, w') ->
     exists steps : list (nat * bool),
       let T := length steps in
       let n := episode_max_length (cfg w) in
       trace w' = trace w ++ EvReset :: episode_events render steps /\
       count_steps (episode_events render steps) = T /\
       t_action traj = map fst steps /\
       length (t_reward traj) = T /\ length (t_action traj) = T /\
       length (rows (t_state traj)) = T /\ length (rows (t_prob traj)) = T /\
       length (rows (t_x1 traj)) = T /\
       nrows (t_state traj) = T /\ nrows (t_prob traj) = T /\
       nrows (t_x1 traj) = T /\
       (T <= n)%nat /\
       ((map snd steps = repeat false (T - 1) ++ [true] /\ (0 < T)%nat)
        \/ (map snd steps = repeat false n /\ T = n))) /\
  (benign_env env O -> sampler_defined w O ->
   (forall k, (0 <= rng w k < 1)%R) ->
   exists traj w', get_trajectory env render w = Ok (traj, w')).
Proof.
  split.
  - intros traj w' Hrun.
    destruct (get_trajectory_post S env render w w' traj Hrun) as [steps Hpost].
    cbv zeta in Hpost.
    destruct Hpost as [Htr [Hact [Hrw [[Hs Hs'] [[Hp Hp'] [[Hx Hx'] [Hd _]]]]]]].
    exists steps. cbv zeta.
    split; [exact Htr|]. split; [apply count_steps_episode_events|].
    split; [exact Hact|].
    split; [exact Hrw|]. split; [now rewrite Hact, length_map|].
    split; [exact Hs'|]. split; [exact Hp'|]. split; [exact Hx'|].
    split; [exact Hs|]. split; [exact Hp|]. split; [exact Hx|].
    split.
    + destruct Hd as [[_ ?]|[_ ?]]; lia.
    + destruct Hd as [[Hd ?]|[Hd ?]]; [left; split; [exact Hd | lia] | now right].
  - intros Hbe Hsd Hr.
    pose proof Hbe as [Hreset _].
    destruct (Hreset (env_st w)) as [s' [o [Hrs Ho]]].
    set (w0 := add_event EvReset (set_env_st s' w)).
    destruct (trajectory_loop_returns S env O (episode_max_length (cfg w))
                render w Hbe Hsd o empty_buffers w0 Ho)
      as [b' [w' Hl]].
    + now repeat split.
    + intros k. simpl. apply Hr.
    + eexists _, w'.
      unfold get_trajectory, bind, call_reset, gets, ret. rewrite Hrs. fold w0.
      change (cfg w0) with (cfg w). rewrite Hl. reflexivity.
Qed.

(** C8 (as the code has it). When [get_trajectory] returns, its calls on
    the environment are the reset and then, for every step, the step
    followed, if rendering is enabled and the step did not end the episode,
    by one render call: no render call follows the terminating step, and
    none is made when rendering is disabled.  A render call that raises is
    not caught, at whichever step it is made: after any number [k] of passes
    with a render call that returned, a render call that raises ends the
    collection with its exception. *)
Theorem render_calls_spec (render : bool) (w : World S) :
  (forall traj w',
     get_trajectory env render w = Ok (traj, w') ->
     exists steps : list (nat * bool),
       length steps = length (t_reward traj) /\
       trace w' = trace w ++ EvReset :: episode_events render steps /\
       count_renders (episode_events render steps) =
       if render then length (filter negb (map snd steps)) else 0%nat) /\
  (forall k w0 wk wa wb obs0 state p x1 obs a rew e,
     call_reset env w = Ok (obs0, w0) ->
     passes env k obs0 w0 state wk ->
     choose_action state wk = Ok ((a, p, x1), wa) ->
     call_step env a wa = Ok ((obs, rew, false), wb) ->
     env_render env (env_st wb) = Err e ->
     (k < episode_max_length (cfg w))%nat ->
     get_trajectory env true w = Err e).
Proof.
  split.
  - intros traj w' Hrun.
    destruct (get_trajectory_post S env render w w' traj Hrun) as [steps Hpost].
    cbv zeta in Hpost. destruct Hpost as [Htr [_ [Hrw _]]].
    exists steps. split; [now rewrite Hrw|]. split; [exact Htr|].
    apply count_renders_episode_events.
  - intros k w0 wk wa wb obs0 state p x1 obs a rew e.
    apply render_failure_aborts_at.
Qed.

End GetTrajectorySuccess.

(** * The update loop *)

Section UpdateFacts.

Lemma get_map_arr (f : npfloat -> npfloat) (a : ndarray) (i j : nat) :
  wf a -> (i < nrows a)%nat -> (j < ncols a)%nat ->
  get (map_arr f a) i j = f (get a i j).
Proof.
  intros Wa Hi Hj. unfold get, map_arr; simpl.
  rewrite (nth_map_lt (map f) (rows a) i [] []) by (destruct Wa; lia).
  apply nth_map_lt. rewrite wf_row_length; auto.
Qed.

Lemma shape_map_arr (f : npfloat -> npfloat) (a : ndarray) (r c : nat) :
  has_shape a r c -> has_shape (map_arr f a) r c.
Proof.
  intros [[Wl Wr] [Hr Hc]]. split; [|now split].
  split; simpl.
  - now rewrite length_map.
  - apply Forall_forall. intros x Hx. apply in_map_iff in Hx.
    destruct Hx as [y [<- Hy]]. rewrite length_map.
    rewrite Forall_forall in Wr. now apply Wr.
Qed.

Lemma shape_zip_rows (f : npfloat -> npfloat -> npfloat) (a b : ndarray)
    (r c : nat) :
  has_shape a r c -> has_shape b r c -> has_shape (zip_rows f a b) r c.
Proof.
  intros [Wa [Ra Ca]] [Wb [Rb Cb]]. split; [|now split].
  apply wf_zip_rows; auto; congruence.
Qed.

Lemma shape_zeros_like (a : ndarray) (r c : nat) :
  nrows a = r -> ncols a = c -> has_shape (np_zeros_like a) r c.
Proof.
  intros Hr Hc. split; [|now split]. split; simpl.
  - apply repeat_length.
  - apply Forall_forall. intros x Hx. apply repeat_spec in Hx. subst x.
    apply repeat_length.
Qed.

Lemma zip_arr_ok (f : npfloat -> npfloat -> npfloat) (a b : ndarray) (r c : nat) :
  has_shape a r c -> has_shape b r c -> zip_arr f a b = Ok (zip_rows f a b).
Proof.
  intros [_ [Ra Ca]] [_ [Rb Cb]]. unfold zip_arr, same_shape.
  now rewrite Ra, Rb, Ca, Cb, !Nat.eqb_refl.
Qed.

Lemma shape_rmsprop_next (decay : npfloat) (cache g : ndarray) (r c : nat) :
  has_shape cache r c -> has_shape g r c ->
  has_shape (rmsprop_next decay cache g) r c.
Proof.
  intros Hc Hg. unfold rmsprop_next.
  apply shape_zip_rows; repeat apply shape_map_arr; assumption.
Qed.

Lemma shape_weights_next (lr : npfloat) (W g cache : ndarray) (r c : nat) :
  has_shape W r c -> has_shape g r c -> has_shape cache r c ->
  has_shape (weights_next lr W g cache) r c.
Proof.
  intros HW Hg Hc. unfold weights_next.
  repeat apply shape_zip_rows; try apply shape_map_arr; assumption.
Qed.

Lemma rmsprop_update_ok (decay : npfloat) (cache g : ndarray) (r c : nat) :
  has_shape cache r c -> has_shape g r c ->
  rmsprop_update decay cache g = Ok (rmsprop_next decay cache g).
Proof.
  intros Hc Hg. unfold rmsprop_update, rmsprop_next.
  apply (zip_arr_ok _ _ _ r c); repeat apply shape_map_arr; assumption.
Qed.

Lemma weight_delta_ok (lr : npfloat) (g cache : ndarray) (r c : nat) :
  has_shape g r c -> has_shape cache r c ->
  weight_delta lr g cache =
  Ok (zip_rows fdiv (map_arr (fmul lr) g)
        (map_arr (fun x => fadd (fsqrt x) epsilon) cache)).
Proof.
  intros Hg Hc. unfold weight_delta.
  apply (zip_arr_ok _ _ _ r c); apply shape_map_arr; assumption.
Qed.

(** Entry [(i, j)] of the new cache and of the new weights. *)
Lemma get_rmsprop_next (decay : npfloat) (cache g : ndarray) (r c i j : nat) :
  has_shape cache r c -> has_shape g r c -> (i < r)%nat -> (j < c)%nat ->
  get (rmsprop_next decay cache g) i j =
  fadd (fmul decay (get cache i j))
       (fmul (fsub fone decay) (fmul (get g i j) (get g i j))).
Proof.
  intros Hc Hg Hi Hj. unfold rmsprop_next.
  pose proof Hc as [Wc [Rc Cc]]. pose proof Hg as [Wg [Rg Cg]].
  pose proof (shape_map_arr (fmul decay) cache r c Hc) as [W1 _].
  pose proof (shape_map_arr (fun x => fmul x x) g r c Hg) as Hsq.
  pose proof Hsq as [Wsq _].
  pose proof (shape_map_arr (fmul (fsub fone decay)) _ r c Hsq) as [W2 _].
  rewrite get_zip_rows; simpl; try assumption; try lia.
  rewrite !get_map_arr; simpl; try assumption; try lia.
  reflexivity.
Qed.


Lemma set_item_ok (v : vec) (i : nat) (x : npfloat) :
  (i < length v)%nat ->
  exists v', set_item v i x = Ok v' /\ length v' = length v.
Proof.
  revert i. induction v as [|y v IH]; intros i Hi; simpl in Hi; [lia|].
  destruct i as [|i].
  - exists (x :: v). now split.
  - destruct (IH i ltac:(lia)) as [v' [Hv Hl]].
    exists (y :: v'). simpl. rewrite Hv. split; [reflexivity | simpl; lia].
Qed.

Lemma set_item_z_ok (v : vec) (i : Z) (x : npfloat) :
  (0 <= i < Z.of_nat (length v))%Z ->
  exists v', set_item_z v i x = Ok v' /\ length v' = length v.
Proof.
  intros Hi. unfold set_item_z.
  replace (i <? 0)%Z with false by (symmetry; apply Z.ltb_ge; lia).
  replace (i <? 0)%Z with false by (symmetry; apply Z.ltb_ge; lia).
  apply set_item_ok. lia.
Qed.

End UpdateFacts.

Section Update.

Variable S : Type.
Variables O H A : nat.

Lemma py_mod_ok (a b : Z) (w : World S) :
  b <> 0%Z -> py_mod a b w = Ok ((a mod b)%Z, w).
Proof.
  intros Hb. unfold py_mod.
  replace (b =? 0)%Z with false by (symmetry; now apply Z.eqb_neq).
  reflexivity.
Qed.

(** The end of a batch, when the shapes agree. *)
Lemma batch_update_run (l : locals) (w : World S) :
  has_shape (w1 w) O H -> has_shape (w2 w) H A ->
  has_shape (gradient1 l) O H -> has_shape (gradient2 l) H A ->
  has_shape (rmsprop1 l) O H -> has_shape (rmsprop2 l) H A ->
  draw_frequency (cfg w) <> 0%Z ->
  let decay := decay_rate (cfg w) in
  let lr := learning_rate (cfg w) in
  let r1 := rmsprop_next decay (rmsprop1 l) (gradient1 l) in
  let r2 := rmsprop_next decay (rmsprop2 l) (gradient2 l) in
  let W1' := weights_next lr (w1 w) (gradient1 l) r1 in
  let W2' := weights_next lr (w2 w) (gradient2 l) r2 in
  batch_update l w =
  Ok (mkLocals (np_zeros_like W1') (np_zeros_like W2') r1 r2
        (iteration l + 1) (episode_nr l) (episode_lengths l)
        (episode_rewards l)
        (mean_rewards l ++ [np_mean (episode_rewards l)]),
      mkWorld W1' W2' (nO w) (nA w) (cfg w) (env_st w) (rng w)
        (trace w ++ batch_events l (draw_frequency (cfg w)))).
Proof.
  intros HW1 HW2 Hg1 Hg2 Hr1 Hr2 Hdf decay lr r1 r2 W1' W2'.
  pose proof (shape_rmsprop_next decay _ _ O H Hr1 Hg1) as Hn1.
  pose proof (shape_rmsprop_next decay _ _ H A Hr2 Hg2) as Hn2.
  fold r1 in Hn1. fold r2 in Hn2.
  unfold batch_update.
  unfold bind at 1, gets at 1.
  unfold bind at 1. rewrite (rmsprop_update_ok _ _ _ O H Hr1 Hg1). simpl lift.
  unfold bind at 1. rewrite (rmsprop_update_ok _ _ _ H A Hr2 Hg2). simpl lift.
  unfold bind at 1, gets at 1.
  unfold bind at 1, gets at 1.
  unfold bind at 1.
  rewrite (weight_delta_ok _ _ _ O H Hg1 Hn1). simpl lift.
  unfold bind at 1. rewrite (zip_arr_ok fadd _ _ O H HW1).
  2: { apply shape_zip_rows; apply shape_map_arr; assumption. }
  simpl lift.
  unfold bind at 1, modify at 1.
  unfold bind at 1, gets at 1. simpl w2.
  unfold bind at 1.
  rewrite (weight_delta_ok _ _ _ H A Hg2 Hn2). simpl lift.
  unfold bind at 1. rewrite (zip_arr_ok fadd _ _ H A HW2).
  2: { apply shape_zip_rows; apply shape_map_arr; assumption. }
  simpl lift.
  unfold bind at 1, modify at 1.
  unfold bind at 1, modify at 1.
  unfold bind at 1, gets at 1. simpl cfg.
  unfold bind at 1. rewrite py_mod_ok by assumption.
  unfold batch_events.
  destruct (episode_nr l mod draw_frequency (cfg w) =? 0)%Z.
  - unfold bind, modify, ret. simpl. unfold add_event; simpl.
    now rewrite <- app_assoc.
  - unfold bind, ret. simpl. reflexivity.
Qed.

(** One pass of the loop after the trajectory is collected: the gradients
    are accumulated, and the batch is closed exactly when the incremented
    episode counter is a multiple of [batch_size]. *)
Lemma learn_update_run (tr : trajectory) (l : locals) (w : World S) (T : nat) :
  (0 < T)%nat -> wf_trajectory tr T O H A -> nA w = A ->
  has_shape (w1 w) O H -> has_shape (w2 w) H A ->
  wf_locals l O H A (batch_size (cfg w)) ->
  (0 < batch_size (cfg w))%Z ->
  exists c1 c2 er el,
    episode_gradient tr w = Ok ((c1, c2), w) /\
    has_shape c1 O H /\ has_shape c2 H A /\
    length er = length (episode_rewards l) /\
    length el = length (episode_lengths l) /\
    let l1 := mkLocals (zip_rows fadd (gradient1 l) c1)
                (zip_rows fadd (gradient2 l) c2) (rmsprop1 l) (rmsprop2 l)
                (iteration l) (episode_nr l + 1) el er (mean_rewards l) in
    learn_update tr l w =
    if ((episode_nr l + 1) mod batch_size (cfg w) =? 0)%Z
    then batch_update l1 w else Ok (l1, w).
Proof.
  intros HT Htr HA HW1 HW2 Hl Hbs.
  destruct Hl as [Hg1 [Hg2 [Hr1 [Hr2 [Her [Hel Hnr]]]]]].
  assert (Hbs0 : batch_size (cfg w) <> 0%Z) by lia.
  pose proof (Z.mod_pos_bound (episode_nr l) (batch_size (cfg w)) Hbs) as Hi.
  destruct (set_item_z_ok (episode_rewards l)
              (episode_nr l mod batch_size (cfg w)) (np_sum (t_reward tr))
              ltac:(lia)) as [er [Her' Hler]].
  destruct (set_item_z_ok (episode_lengths l)
              (episode_nr l mod batch_size (cfg w))
              (Fin (INR (length (t_reward tr)))) ltac:(lia)) as [el [Hel' Hlel]].
  pose proof (error_signal_shape tr (gamma (cfg w)) T O H A Htr) as HE.
  pose proof Htr as [_ [_ [H0 [_ H1]]]].
  destruct (backward_step_entries S (t_state tr) (t_x1 tr) _ w T O H A
              H0 H1 HE HW2) as [c1 [c2 [Hb [Hc1 [Hc2 _]]]]].
  assert (Heg : episode_gradient tr w = Ok ((c1, c2), w)).
  { rewrite (episode_gradient_run S tr w T O H A Htr HA). exact Hb. }
  exists c1, c2, er, el.
  split; [exact Heg|]. split; [exact Hc1|]. split; [exact Hc2|].
  split; [exact Hler|]. split; [exact Hlel|]. cbv zeta.
  unfold learn_update.
  unfold bind at 1, gets at 1.
  unfold bind at 1. rewrite py_mod_ok by assumption.
  unfold bind at 1. rewrite Her'. simpl lift.
  unfold bind at 1. rewrite Hel'. simpl lift.
  unfold bind at 1. rewrite Heg.
  unfold bind at 1. rewrite (zip_arr_ok fadd _ _ O H Hg1 Hc1). simpl lift.
  unfold bind at 1. rewrite (zip_arr_ok fadd _ _ H A Hg2 Hc2). simpl lift.
  unfold bind at 1. rewrite py_mod_ok by assumption.
  destruct ((episode_nr l + 1) mod batch_size (cfg w) =? 0)%Z; reflexivity.
Qed.

Lemma learn_update_result (tr : trajectory) (l : locals) (w : World S) (T : nat) :
  (0 < T)%nat -> wf_trajectory tr T O H A -> nA w = A ->
  has_shape (w1 w) O H -> has_shape (w2 w) H A ->
  wf_locals l O H A (batch_size (cfg w)) ->
  (0 < batch_size (cfg w))%Z -> draw_frequency (cfg w) <> 0%Z ->
  exists c1 c2 l' w',
    episode_gradient tr w = Ok ((c1, c2), w) /\
    has_shape c1 O H /\ has_shape c2 H A /\
    learn_update tr l w = Ok (l', w') /\
    wf_locals l' O H A (batch_size (cfg w)) /\
    has_shape (w1 w') O H /\ has_shape (w2 w') H A /\
    cfg w' = cfg w /\ nA w' = nA w /\ rng w' = rng w /\ env_st w' = env_st w /\
    episode_nr l' = (episode_nr l + 1)%Z /\
    let G1 := zip_rows fadd (gradient1 l) c1 in
    let G2 := zip_rows fadd (gradient2 l) c2 in
    let decay := decay_rate (cfg w) in
    let lr := learning_rate (cfg w) in
    if ((episode_nr l + 1) mod batch_size (cfg w) =? 0)%Z then
      iteration l' = (iteration l + 1)%Z /\
      rmsprop1 l' = rmsprop_next decay (rmsprop1 l) G1 /\
      rmsprop2 l' = rmsprop_next decay (rmsprop2 l) G2 /\
      w1 w' = weights_next lr (w1 w) G1 (rmsprop1 l') /\
      w2 w' = weights_next lr (w2 w) G2 (rmsprop2 l') /\
      gradient1 l' = np_zeros_like (w1 w') /\
      gradient2 l' = np_zeros_like (w2 w') /\
      trace w' =
      trace w ++
      EvPrintIterationStats (iteration l + 1) (episode_rewards l')
        (episode_lengths l') (episode_nr l + 1)
      :: (if ((episode_nr l + 1) mod draw_frequency (cfg w) =? 0)%Z
          then [EvDrawRewards (mean_rewards l')] else [])
    else
      iteration l' = iteration l /\
      rmsprop1 l' = rmsprop1 l /\ rmsprop2 l' = rmsprop2 l /\
      w' = w /\ gradient1 l' = G1 /\ gradient2 l' = G2.
Proof.
  intros HT Htr HA HW1 HW2 Hl Hbs Hdf.
  destruct (learn_update_run tr l w T HT Htr HA HW1 HW2 Hl Hbs)
    as [c1 [c2 [er [el [Heg [Hc1 [Hc2 [Hler [Hlel Hrun]]]]]]]]].
  cbv zeta in Hrun.
  destruct Hl as [Hg1 [Hg2 [Hr1 [Hr2 [Her [Hel Hnr]]]]]].
  pose proof (shape_zip_rows fadd _ _ O H Hg1 Hc1) as HG1.
  pose proof (shape_zip_rows fadd _ _ H A Hg2 Hc2) as HG2.
  exists c1, c2.
  destruct ((episode_nr l + 1) mod batch_size (cfg w) =? 0)%Z.
  - rewrite (batch_update_run
               (mkLocals (zip_rows fadd (gradient1 l) c1)
                  (zip_rows fadd (gradient2 l) c2) (rmsprop1 l) (rmsprop2 l)
                  (iteration l) (episode_nr l + 1) el er (mean_rewards l))
               w HW1 HW2 HG1 HG2 Hr1 Hr2 Hdf) in Hrun.
    cbv zeta in Hrun. simpl in Hrun.
    eexists _, _. split; [exact Heg|]. split; [exact Hc1|]. split; [exact Hc2|].
    split; [exact Hrun|]. cbv zeta. simpl.
    pose proof (shape_rmsprop_next (decay_rate (cfg w)) _ _ O H Hr1 HG1) as Hn1.
    pose proof (shape_rmsprop_next (decay_rate (cfg w)) _ _ H A Hr2 HG2) as Hn2.
    pose proof (shape_weights_next (learning_rate (cfg w)) _ _ _ O H HW1 HG1 Hn1)
      as HW1'.
    pose proof (shape_weights_next (learning_rate (cfg w)) _ _ _ H A HW2 HG2 Hn2)
      as HW2'.
    split.
    { unfold wf_locals; simpl.
      split; [apply shape_zeros_like; apply HW1'|].
      split; [apply shape_zeros_like; apply HW2'|].
      split; [exact Hn1|]. split; [exact Hn2|].
      split; [now rewrite Hler|]. split; [now rewrite Hlel | lia]. }
    split; [exact HW1'|]. split; [exact HW2'|].
    do 5 (split; [reflexivity|]).
    do 7 (split; [reflexivity|]).
    unfold batch_events. simpl. reflexivity.
  - eexists _, w. split; [exact Heg|]. split; [exact Hc1|]. split; [exact Hc2|].
    split; [exact Hrun|]. cbv zeta. simpl.
    split.
    { unfold wf_locals; simpl.
      split; [exact HG1|]. split; [exact HG2|].
      split; [exact Hr1|]. split; [exact Hr2|].
      split; [now rewrite Hler|]. split; [now rewrite Hlel | lia]. }
    split; [exact HW1|]. split; [exact HW2|].
    do 5 (split; [reflexivity|]).
    repeat split; reflexivity.
Qed.

Lemma get_zeros_like (a : ndarray) (i j : nat) : get (np_zeros_like a) i j = fzero.
Proof.
  unfold get, np_zeros_like; simpl.
  destruct (Nat.lt_ge_cases i (nrows a)) as [Hi|Hi].
  - rewrite nth_repeat_lt by assumption.
    destruct (Nat.lt_ge_cases j (ncols a)) as [Hj|Hj].
    + now apply nth_repeat_lt.
    + apply nth_overflow. now rewrite repeat_length.
  - rewrite (nth_overflow (repeat (repeat fzero (ncols a)) (nrows a)) [])
      by now rewrite repeat_length.
    now destruct j.
Qed.

End Update.

Section UpdateSpec.

Variable S : Type.
Variables O H A : nat.


(** C7 (as the code has it). In every pass of the loop a redraw of the
    reward curve is requested at most once, and it is requested exactly
    when the incremented episode counter is a multiple of [batch_size] and
    also a multiple of [draw_frequency]: the interval counts episodes and is
    tested at the end of a batch only. *)
Theorem draw_rewards_spec (tr : trajectory) (l : locals) (w : World S) (T : nat) :
  (0 < T)%nat -> wf_trajectory tr T O H A -> nA w = A ->
  has_shape (w1 w) O H -> has_shape (w2 w) H A ->
  wf_locals l O H A (batch_size (cfg w)) ->
  (0 < batch_size (cfg w))%Z -> draw_frequency (cfg w) <> 0%Z ->
  exists l' w' evs,
    learn_update tr l w = Ok (l', w') /\
    trace w' = trace w ++ evs /\
    episode_nr l' = (episode_nr l + 1)%Z /\
    count_draws evs =
    if ((episode_nr l' mod batch_size (cfg w) =? 0)
        && (episode_nr l' mod draw_frequency (cfg w) =? 0))%Z
    then 1%nat else 0%nat.
Proof.
  intros HT Htr HA HW1 HW2 Hl Hbs Hdf.
  destruct (learn_update_result S O H A tr l w T HT Htr HA HW1 HW2 Hl Hbs Hdf)
    as [c1 [c2 [l' [w' [_ [_ [_ [Hrun [_ [_ [_ [_ [_ [_ [_ [Hnr Hres]]]]]]]]]]]]]]]].
  cbv zeta in Hres.
  destruct ((episode_nr l + 1) mod batch_size (cfg w) =? 0)%Z eqn:Eb.
  - destruct Hres as [_ [_ [_ [_ [_ [_ [_ Htr']]]]]]].
    eexists l', w', _. split; [exact Hrun|]. split; [exact Htr'|].
    split; [exact Hnr|]. rewrite Hnr, Eb. simpl.
    destruct ((episode_nr l + 1) mod draw_frequency (cfg w) =? 0)%Z;
      reflexivity.
  - destruct Hres as [_ [_ [_ [Hw _]]]].
    exists l', w', []. split; [exact Hrun|].
    split; [now rewrite Hw, app_nil_r|]. split; [exact Hnr|].
    rewrite Hnr, Eb. reflexivity.
Qed.

End UpdateSpec.

(** * Whole passes of the loop *)

Section LearnStep.

Variable S : Type.
Variable env : Env S.
Variables O H A : nat.

Lemma count_draws_episode_events (render : bool) (steps : list (nat * bool)) :
  count_draws (episode_events render steps) = 0%nat.
Proof.
  unfold count_draws. induction steps as [|[a d] steps IH]; simpl; auto.
  rewrite filter_app, length_app, IH. destruct (render && negb d); reflexivity.
Qed.

Lemma count_draws_app (l l' : list event) :
  count_draws (l ++ l') = (count_draws l + count_draws l')%nat.
Proof. unfold count_draws. now rewrite filter_app, length_app. Qed.

(** One pass with a well-behaved environment and finite weights. *)
Lemma learn_step_result (l : locals) (w : World S) :
  benign_env env O -> good_learner w O H A ->
  wf_locals l O H A (batch_size (cfg w)) ->
  (0 < episode_max_length (cfg w))%nat ->
  (0 < batch_size (cfg w))%Z -> draw_frequency (cfg w) <> 0%Z ->
  exists l' w' evs,
    learn_step env l w = Ok (l', w') /\
    wf_locals l' O H A (batch_size (cfg w)) /\ cfg w' = cfg w /\
    episode_nr l' = (episode_nr l + 1)%Z /\
    trace w' = trace w ++ evs /\
    count_draws evs =
    (if ((episode_nr l' mod batch_size (cfg w) =? 0)
         && (episode_nr l' mod draw_frequency (cfg w) =? 0))%Z
     then 1%nat else 0%nat) /\
    if (episode_nr l' mod batch_size (cfg w) =? 0)%Z
    then iteration l' = (iteration l + 1)%Z
    else iteration l' = iteration l /\ good_learner w' O H A.
Proof.
  intros Hbe Hg Hl Hmax Hbs Hdf.
  destruct (get_trajectory_ok S env O H A
              (0 <? episode_max_length (cfg w))%nat w Hbe Hg)
    as [tr [wt [Hgt [Hgt' Hwf]]]].
  destruct (Hwf Hmax) as [T [HT Htr]].
  destruct (get_trajectory_post S env _ w wt tr Hgt) as [steps Hpost].
  cbv zeta in Hpost.
  destruct Hpost as [Htrace [_ [_ [_ [_ [_ [_ Hself]]]]]]].
  destruct Hself as [_ [_ [_ [_ Hcfg]]]].
  pose proof Hgt' as [HA [_ [HW1 [HW2 _]]]].
  rewrite <- Hcfg in Hl, Hbs, Hdf.
  destruct (learn_update_result S O H A tr l wt T HT Htr HA HW1 HW2 Hl Hbs Hdf)
    as [c1 [c2 [l' [w' [_ [_ [_ [Hrun [Hl' [_ [_ [Hc' [_ [_ [_ [Hnr Hres]]]]]]]]]]]]]]]].
  cbv zeta in Hres. rewrite Hcfg in *.
  assert (Hstep : learn_step env l w = Ok (l', w')).
  { unfold learn_step, bind at 1, gets at 1. unfold bind. now rewrite Hgt. }
  destruct ((episode_nr l + 1) mod batch_size (cfg w) =? 0)%Z eqn:Eb.
  - destruct Hres as [Hit [_ [_ [_ [_ [_ [_ Htr']]]]]]].
    eexists l', w', _. split; [exact Hstep|]. split; [exact Hl'|].
    split; [congruence|]. split; [exact Hnr|].
    split. { rewrite Htr', Htrace, <- app_assoc. reflexivity. }
    rewrite Hnr, Eb. split; [|exact Hit].
    rewrite count_draws_app. simpl.
    change (EvReset :: episode_events (0 <? episode_max_length (cfg w))%nat steps)
      with ([EvReset] ++ episode_events (0 <? episode_max_length (cfg w))%nat steps).
    rewrite count_draws_app, count_draws_episode_events. simpl.
    destruct ((episode_nr l + 1) mod draw_frequency (cfg w) =? 0)%Z;
      reflexivity.
  - destruct Hres as [Hit [_ [_ [Hw _]]]]. subst w'.
    eexists l', wt, _. split; [exact Hstep|]. split; [exact Hl'|].
    split; [exact Hcfg|]. split; [exact Hnr|]. split; [exact Htrace|].
    rewrite Hnr, Eb. split; [|split; assumption]. simpl.
    change (EvReset :: episode_events (0 <? episode_max_length (cfg w))%nat steps)
      with ([EvReset] ++ episode_events (0 <? episode_max_length (cfg w))%nat steps).
    now rewrite count_draws_app, count_draws_episode_events.
Qed.

(** The first step of an episode ends it: one step, no render call. *)
Lemma first_step_done (render : bool) (w w0 wa wb : World S)
    (obs0 p x1 obs : vec) (a : nat) (rew : npfloat) :
  call_reset env w = Ok (obs0, w0) ->
  choose_action obs0 w0 = Ok ((a, p, x1), wa) ->
  call_step env a wa = Ok ((obs, rew, true), wb) ->
  (0 < episode_max_length (cfg w))%nat ->
  get_trajectory env render w =
  Ok (mkTrajectory [rew] (np_array [obs0]) [a] (np_array [p]) (np_array [x1]), wb).
Proof.
  intros Hr Hc Hs Hn.
  assert (Hcfg : cfg w0 = cfg w).
  { apply call_reset_effect in Hr. destruct Hr as [s [_ ->]]. reflexivity. }
  unfold get_trajectory, bind at 1. rewrite Hr.
  unfold bind at 1, gets. rewrite Hcfg.
  destruct (episode_max_length (cfg w)) as [|n]; [lia|].
  unfold bind at 1. simpl trajectory_loop.
  unfold bind at 1. rewrite Hc. unfold bind at 1. rewrite Hs.
  reflexivity.
Qed.

End LearnStep.

(** * The specification of the two passes and of [choose_action] *)

Section PassesSpec.

Variable S : Type.

Local Open Scope R_scope.

(** C1. For a batch of states [x0] (T x O), the recorded hidden activations
    [x1] (T x H) and an error signal [feedback] (T x A), [backward_step]
    leaves the learner as it is and returns [change_w1] (O x H) and
    [change_w2] (H x A) with
    [change_w2 = x1^T . feedback] and [change_w1 = x0^T . dh], where
    [dh = feedback . w2^T] with the entries zeroed at which the recorded
    activation [x1] is [<= 0]. *)
Theorem backward_step_spec (x0 x1 feedback : ndarray) (w : World S)
    (T O H A : nat) :
  has_shape x0 T O -> has_shape x1 T H -> has_shape feedback T A ->
  has_shape (w2 w) H A ->
  exists change_w1 change_w2,
    backward_step x0 x1 feedback w = Ok ((change_w1, change_w2), w) /\
    has_shape change_w1 O H /\ has_shape change_w2 H A /\
    (forall j k, (j < H)%nat -> (k < A)%nat ->
       get change_w2 j k =
       fsum T (fun t => fmul (get x1 t j) (get feedback t k))) /\
    (forall i j, (i < O)%nat -> (j < H)%nat ->
       get change_w1 i j =
       fsum T (fun t =>
         fmul (get x0 t i)
              (if fle (get x1 t j) fzero then fzero
               else fsum A (fun k => fmul (get feedback t k) (get (w2 w) j k))))).
Proof. apply backward_step_entries. Qed.

(** C2. The gradient of an episode: the discounted returns obey
    [G_t = r_t + gamma * G_{t+1}] with [G_T = 0]; the error signal has, at
    step [t] and action [a], the one-hot encoding of the chosen action minus
    the recorded probability, times the return of step [t] minus the mean
    return and divided by the standard deviation of the returns; the recorded
    states, the recorded hidden activations and this error signal are what
    [backward_step] is called on. *)
Theorem episode_gradient_spec (tr : trajectory) (w : World S) (T O H A : nat)
    (r : list R) (g : R) :
  (0 < T)%nat -> wf_trajectory tr T O H A ->
  t_reward tr = map Fin r -> gamma (cfg w) = Fin g -> nA w = A ->
  let G := Rdiscount g r in
  (forall t, (t < T)%nat ->
     nth t G 0 = nth t r 0 + g * nth (Datatypes.S t) G 0) /\
  nth T G 0 = 0 /\
  exists E,
    has_shape E T A /\
    (forall t a, (t < T)%nat -> (a < A)%nat ->
       get E t a =
       fmul (fsub (if (a =? nth t (t_action tr) 0%nat)%nat then fone else fzero)
                  (get (t_prob tr) t a))
            (fdiv (Fin (nth t G 0 - Rmean G)) (Fin (Rstd G)))) /\
    episode_gradient tr w = backward_step (t_state tr) (t_x1 tr) E w.
Proof. apply episode_gradient_entries. Qed.

(** C5 (as the code has it). [learn] makes no test of the variance of the
    returns and applies no guard: on a trajectory of consistent shapes
    [episode_gradient] raises nothing, whatever the rewards.  For a
    single-step episode, whose one return is its own mean, the
    standardisation divides 0 by 0 and the gradients returned hold NaN: every
    entry of [change_w2], and every entry of [change_w1] for a hidden unit
    that was active at that step. *)
Theorem episode_gradient_zero_variance (tr : trajectory) (w : World S)
    (T O H A : nat) :
  (0 < T)%nat -> (0 < A)%nat -> wf_trajectory tr T O H A -> nA w = A ->
  has_shape (w2 w) H A ->
  exists change_w1 change_w2,
    episode_gradient tr w = Ok ((change_w1, change_w2), w) /\
    forall rew g : R,
      t_reward tr = [Fin rew] -> gamma (cfg w) = Fin g ->
      (forall j k, (j < H)%nat -> (k < A)%nat -> get change_w2 j k = NaN) /\
      (forall i j, (i < O)%nat -> (j < H)%nat ->
         fle (get (t_x1 tr) 0 j) fzero = false -> get change_w1 i j = NaN).
Proof.
  intros _ HA0 Htr HA H2.
  destruct (episode_gradient_returns S tr w T O H A Htr HA H2)
    as [c1 [c2 Hrun]].
  exists c1, c2. split; [exact Hrun|].
  intros rew g Hr Hg.
  exact (single_step_gradient S tr w T O H A rew g c1 c2 HA0 Htr HA H2 Hr Hg Hrun).
Qed.

(** C10. With finite weights and a finite state, the scores
    [choose_action] hands to the sampler are values of the logistic function:
    each lies strictly between 0 and 1, their sum is positive, so the
    renormalisation divides by a non-zero number and [choose_action] returns
    (finite probabilities, an action in range) instead of failing. *)
Theorem choose_action_scores_positive (s : list R) (M1 M2 : nat -> nat -> R)
    (w : World S) (O H A : nat) :
  length s = O ->
  has_shape (w1 w) O H -> has_shape (w2 w) H A ->
  (forall i j, (i < O)%nat -> (j < H)%nat -> get (w1 w) i j = Fin (M1 i j)) ->
  (forall j k, (j < H)%nat -> (k < A)%nat -> get (w2 w) j k = Fin (M2 j k)) ->
  nA w = A -> (0 < A)%nat -> 0 <= rng w 0%nat < 1 ->
  exists (x1 : vec) (o : list R) (a : nat),
    forward_step (map Fin s) w = Ok ((x1, map Fin o), w) /\
    length o = A /\
    (forall x, In x o -> 0 < x < 1) /\
    np_sum (map Fin o) = Fin (Rsum o) /\ 0 < Rsum o /\
    choose_action (map Fin s) w =
    Ok ((a, map Fin (map (fun x => x / Rsum o) o), x1),
        set_rng (snd (random_sample (rng w))) w) /\
    (a < A)%nat.
Proof. apply choose_action_Fin. Qed.

End PassesSpec.

(** * The worked instance *)

Section Instance.

Local Open Scope R_scope.

Ltac shape_tac :=
  split; [split; [reflexivity | repeat constructor] | split; reflexivity].

Lemma ex_w1_shape : has_shape ex_w1 2 1.
Proof. shape_tac. Qed.

Lemma ex_w2_shape : has_shape ex_w2 1 2.
Proof. shape_tac. Qed.

Lemma ex_feedback_shape : has_shape ex_feedback 1 2.
Proof. shape_tac. Qed.

Lemma ex_trajectory_wf : wf_trajectory ex_trajectory 1 2 1 2.
Proof.
  split; [reflexivity|]. split; [reflexivity|].
  split; [|split]; shape_tac.
Qed.

Lemma ex_w1_entries (i j : nat) :
  (i < 2)%nat -> (j < 1)%nat -> get ex_w1 i j = Fin 1.
Proof.
  intros Hi Hj. destruct i as [|[|i]]; destruct j as [|j]; try lia; reflexivity.
Qed.

Lemma ex_w2_entries (j k : nat) :
  (j < 1)%nat -> (k < 2)%nat -> get ex_w2 j k = Fin 1.
Proof.
  intros Hj Hk. destruct j as [|j]; destruct k as [|[|k]]; try lia; reflexivity.
Qed.

Lemma ex_rng_range (k : nat) : 0 <= ex_rng k < 1.
Proof. unfold ex_rng. lra. Qed.

Lemma ex_good : good_learner ex_world 2 1 2.
Proof.
  split; [reflexivity|]. split; [lia|].
  split; [exact ex_w1_shape|]. split; [exact ex_w2_shape|].
  split; [|split].
  - intros i j Hi Hj. simpl in Hi, Hj. now rewrite ex_w1_entries.
  - intros j k Hj Hk. simpl in Hj, Hk. now rewrite ex_w2_entries.
  - exact ex_rng_range.
Qed.

Lemma ex_locals_wf : wf_locals ex_locals 2 1 2 2.
Proof.
  split; [shape_tac|]. split; [shape_tac|]. split; [shape_tac|].
  split; [shape_tac|]. split; [reflexivity|]. split; [reflexivity|].
  simpl. lia.
Qed.

Lemma ex_env_benign : benign_env ex_env 2.
Proof.
  split; [|split].
  - intros s. now exists s, ex_obs.
  - intros s a. now exists s, ex_obs, (Fin 1), false.
  - intros s. now exists s.
Qed.

Lemma ex_returns_no_variance : Rstd (Rdiscount (99 / 100) [1]) = 0.
Proof. simpl. apply Rstd_single. Qed.

Lemma ex_max_length : (0 < episode_max_length (cfg ex_world))%nat.
Proof. simpl. lia. Qed.

Lemma ex_batch_size : (0 < batch_size (cfg ex_world))%Z.
Proof. simpl. lia. Qed.

Lemma ex_draw_frequency : draw_frequency (cfg ex_world) <> 0%Z.
Proof. simpl. lia. Qed.

(** The instance of C1: the gradients of the worked instance. *)
Lemma backward_step_spec_witness :
  exists change_w1 change_w2,
    backward_step (t_state ex_trajectory) (t_x1 ex_trajectory) ex_feedback
      ex_world = Ok ((change_w1, change_w2), ex_world) /\
    has_shape change_w1 2 1 /\ has_shape change_w2 1 2 /\
    (forall j k, (j < 1)%nat -> (k < 2)%nat ->
       get change_w2 j k =
       fsum 1 (fun t => fmul (get (t_x1 ex_trajectory) t j)
                             (get ex_feedback t k))) /\
    (forall i j, (i < 2)%nat -> (j < 1)%nat ->
       get change_w1 i j =
       fsum 1 (fun t =>
         fmul (get (t_state ex_trajectory) t i)
              (if fle (get (t_x1 ex_trajectory) t j) fzero then fzero
               else fsum 2 (fun k => fmul (get ex_feedback t k)
                                          (get (w2 ex_world) j k))))).
Proof.
  apply (backward_step_spec unit (t_state ex_trajectory) (t_x1 ex_trajectory)
           ex_feedback ex_world 1 2 1 2).
  - apply ex_trajectory_wf.
  - apply ex_trajectory_wf.
  - exact ex_feedback_shape.
  - exact ex_w2_shape.
Defined.

(** The instance of C2. *)
Lemma episode_gradient_spec_witness :
  (forall t, (t < 1)%nat ->
     nth t (Rdiscount (99 / 100) [1]) 0 =
     nth t [1] 0 + 99 / 100 * nth (Datatypes.S t) (Rdiscount (99 / 100) [1]) 0) /\
  nth 1 (Rdiscount (99 / 100) [1]) 0 = 0 /\
  exists E,
    has_shape E 1 2 /\
    (forall t a, (t < 1)%nat -> (a < 2)%nat ->
       get E t a =
       fmul (fsub (if (a =? nth t (t_action ex_trajectory) 0%nat)%nat
                   then fone else fzero)
                  (get (t_prob ex_trajectory) t a))
            (fdiv (Fin (nth t (Rdiscount (99 / 100) [1]) 0
                        - Rmean (Rdiscount (99 / 100) [1])))
                  (Fin (Rstd (Rdiscount (99 / 100) [1]))))) /\
    episode_gradient ex_trajectory ex_world =
    backward_step (t_state ex_trajectory) (t_x1 ex_trajectory) E ex_world.
Proof.
  apply (episode_gradient_spec unit ex_trajectory ex_world 1 2 1 2 [1] (99 / 100)).
  - lia.
  - exact ex_trajectory_wf.
  - reflexivity.
  - reflexivity.
  - reflexivity.
Defined.

(** The instance of C4: with the state [[-1, 0]] the only pre-activation is
    negative and the hidden vector is zero. *)
Lemma forward_step_spec_witness :
  exists x1 output,
    forward_step (map Fin [-1; 0]) ex_world = Ok ((x1, output), ex_world) /\
    x1 = repeat fzero 1 /\
    output =
    map (fun k => Fin (1 / (1 + exp (- rsum 1 (fun j =>
           Rmax 0 (rsum 2 (fun i => nth i [-1; 0] 0 * 1)) * 1)))))
        (seq 0 2).
Proof.
  destruct (forward_step_spec unit [-1; 0] (fun _ _ => 1) (fun _ _ => 1)
              ex_world 2 1 2 eq_refl ex_w1_shape ex_w2_shape
              ex_w1_entries ex_w2_entries)
    as [x1 [output [Hrun [Hx [Ho Hneg]]]]].
  exists x1, output. split; [exact Hrun|]. split; [|exact Ho].
  apply Hneg. intros j _. unfold rsum, Rsum. simpl. lra.
Defined.

(** The instance of C5: the single-step episode of the worked instance. *)
Lemma episode_gradient_zero_variance_witness :
  exists change_w1 change_w2,
    episode_gradient ex_trajectory ex_world =
    Ok ((change_w1, change_w2), ex_world) /\
    (forall j k, (j < 1)%nat -> (k < 2)%nat -> get change_w2 j k = NaN) /\
    (forall i j, (i < 2)%nat -> (j < 1)%nat ->
       fle (get (t_x1 ex_trajectory) 0 j) fzero = false ->
       get change_w1 i j = NaN).
Proof.
  destruct (episode_gradient_zero_variance unit ex_trajectory ex_world 1 2 1 2
              ltac:(lia) ltac:(lia) ex_trajectory_wf eq_refl ex_w2_shape)
    as [c1 [c2 [Hrun Hnan]]].
  exists c1, c2. split; [exact Hrun|].
  exact (Hnan 1 (99 / 100) eq_refl eq_refl).
Defined.

(** Returns without variance are not detected: on the single-step episode
    [episode_gradient] returns, and both gradients hold NaN. *)
Lemma zero_variance_not_detected :
  Rstd (Rdiscount (99 / 100) [1]) = 0 /\
  exists change_w1 change_w2,
    episode_gradient ex_trajectory ex_world =
    Ok ((change_w1, change_w2), ex_world) /\
    get change_w2 0 0 = NaN /\ get change_w1 0 0 = NaN.
Proof.
  split; [exact ex_returns_no_variance|].
  destruct (zero_variance_gradient unit ex_trajectory ex_world 1 2 1 2
              [1] (99 / 100)) as [c1 [c2 [Hrun [H2 H1]]]];
    try reflexivity; try lia.
  - exact ex_trajectory_wf.
  - exact ex_w2_shape.
  - exact ex_returns_no_variance.
  - exists c1, c2. split; [exact Hrun|]. split.
    + apply H2; lia.
    + apply (H1 0%nat 0%nat 0%nat); try lia.
      apply fle_Fin_false. lra.
Qed.

(** The instance of C6 on the scores [[1, 1]]. *)
Lemma random_with_probability_spec_witness :
  exists a probs,
    random_with_probability (map Fin [1; 1]) 2 ex_world =
    Ok ((a, map Fin probs), set_rng (snd (random_sample (rng ex_world))) ex_world) /\
    probs = map (fun x => x / Rsum [1; 1]) [1; 1] /\
    Rsum probs = 1 /\ (a < 2)%nat /\
    Rsum (firstn a probs) <= rng ex_world 0%nat
      < Rsum (firstn (Datatypes.S a) probs).
Proof.
  apply (proj2 (random_with_probability_spec unit ex_world) [1; 1]).
  - discriminate.
  - intros x [<-|[<-|[]]]; lra.
  - apply ex_rng_range.
Defined.

(** The instance of C10. *)
Lemma choose_action_scores_positive_witness :
  exists (x1 : vec) (o : list R) (a : nat),
    forward_step (map Fin ex_obs) ex_world = Ok ((x1, map Fin o), ex_world) /\
    length o = 2%nat /\
    (forall x, In x o -> 0 < x < 1) /\
    np_sum (map Fin o) = Fin (Rsum o) /\ 0 < Rsum o /\
    choose_action (map Fin ex_obs) ex_world =
    Ok ((a, map Fin (map (fun x => x / Rsum o) o), x1),
        set_rng (snd (random_sample (rng ex_world))) ex_world) /\
    (a < 2)%nat.
Proof.
  apply (choose_action_scores_positive unit ex_obs (fun _ _ => 1) (fun _ _ => 1)
           ex_world 2 1 2).
  - reflexivity.
  - exact ex_w1_shape.
  - exact ex_w2_shape.
  - exact ex_w1_entries.
  - exact ex_w2_entries.
  - reflexivity.
  - lia.
  - apply ex_rng_range.
Defined.

End Instance.

Section InstanceLoop.

Local Open Scope R_scope.

Lemma ex_locals_mid_wf : wf_locals ex_locals_mid 2 1 2 (batch_size (cfg ex_world)).
Proof.
  assert (Hs : forall a r c, nrows a = r -> ncols a = c ->
                 has_shape (np_zeros_like a) r c)
    by (intros; now apply shape_zeros_like).
  split; [now apply Hs|]. split; [now apply Hs|]. split; [now apply Hs|].
  split; [now apply Hs|]. split; [reflexivity|]. split; [reflexivity|].
  simpl. lia.
Qed.


(** The instance of C7: the same pass requests one redraw. *)
Lemma draw_rewards_spec_witness :
  exists l' w' evs,
    learn_update ex_trajectory ex_locals_mid ex_world = Ok (l', w') /\
    trace w' = trace ex_world ++ evs /\
    episode_nr l' = 2%Z /\ count_draws evs = 1%nat.
Proof.
  destruct (draw_rewards_spec unit 2 1 2 ex_trajectory ex_locals_mid ex_world 1
              ltac:(lia) ex_trajectory_wf eq_refl ex_w1_shape ex_w2_shape
              ex_locals_mid_wf ex_batch_size ex_draw_frequency)
    as [l' [w' [evs [Hrun [Htr [Hnr Hc]]]]]].
  rewrite Hnr in Hc.
  exists l', w', evs. split; [exact Hrun|]. split; [exact Htr|].
  split; [exact Hnr | exact Hc].
Defined.

(** With batches of two episodes and a report interval of two, a redraw is
    requested at the end of the first batch: the iteration counter is 1, not
    a multiple of the interval. *)
Lemma redraw_at_first_iteration :
  exists l' w',
    learn ex_env 2 ex_world = Ok (l', w') /\
    draw_frequency (cfg ex_world) = 2%Z /\
    iteration l' = 1%Z /\ count_draws (trace w') = 1%nat.
Proof.
  destruct (learn_step_result unit ex_env 2 1 2 ex_locals ex_world
              ex_env_benign ex_good ex_locals_wf ex_max_length ex_batch_size
              ex_draw_frequency)
    as [l1 [wa [evs1 [Hs1 [Hl1 [Hc1 [Hn1 [Ht1 [Hd1 Hi1]]]]]]]]].
  rewrite Hn1 in Hd1, Hi1.
  change ((episode_nr ex_locals + 1) mod batch_size (cfg ex_world) =? 0)%Z
    with false in Hd1, Hi1.
  simpl in Hd1. destruct Hi1 as [Hi1 Hg1].
  destruct (learn_step_result unit ex_env 2 1 2 l1 wa ex_env_benign Hg1)
    as [l2 [wb [evs2 [Hs2 [Hl2 [Hc2 [Hn2 [Ht2 [Hd2 Hi2]]]]]]]]];
    try (rewrite Hc1; first [exact Hl1 | exact ex_max_length
                            | exact ex_batch_size | exact ex_draw_frequency]).
  rewrite Hn2, Hn1, Hc1 in Hd2, Hi2.
  change ((episode_nr ex_locals + 1 + 1) mod batch_size (cfg ex_world) =? 0)%Z
    with true in Hd2, Hi2.
  change ((episode_nr ex_locals + 1 + 1) mod draw_frequency (cfg ex_world) =? 0)%Z
    with true in Hd2.
  simpl in Hd2.
  exists l2, wb. split; [|split; [reflexivity|split]].
  - unfold learn, bind.
    change (learn_init ex_world) with (Ok (ex_locals, ex_world)
                                       : result (locals * World unit)).
    simpl learn_loop. unfold bind. rewrite Hs1, Hs2. reflexivity.
  - rewrite Hi2, Hi1. reflexivity.
  - rewrite Ht2, Ht1. rewrite !count_draws_app, Hd1, Hd2. reflexivity.
Qed.

(** A [render] that raises ends the collection, and no render call follows
    the step that ends an episode. *)
Lemma render_not_best_effort :
  get_trajectory ex_env_render_raises true ex_world = Err (EnvError 1) /\
  exists traj w',
    get_trajectory ex_env_done true ex_world = Ok (traj, w') /\
    length (t_reward traj) = 1%nat /\
    count_steps (trace w') = 1%nat /\ count_renders (trace w') = 0%nat.
Proof.
  set (w0 := add_event EvReset (set_env_st tt ex_world)).
  assert (Hg0 : good_learner w0 2 1 2).
  { apply (good_learner_same unit 2 1 2 ex_world); [exact ex_good | |].
    - now repeat split.
    - exact ex_rng_range. }
  destruct (choose_action_ok unit 2 1 2 ex_obs w0 Hg0 eq_refl)
    as [a [p [x1 [Hc _]]]].
  split.
  - eapply (render_failure_aborts unit ex_env_render_raises ex_world w0).
    + reflexivity.
    + exact Hc.
    + reflexivity.
    + reflexivity.
    + exact ex_max_length.
  - eexists _, _. split.
    + eapply (first_step_done unit ex_env_done true ex_world w0).
      * reflexivity.
      * exact Hc.
      * reflexivity.
      * exact ex_max_length.
    + repeat split.
Qed.

(** The instance of C9: the collection returns at the cap, with one entry
    in each of the five sequences. *)
Lemma get_trajectory_spec_witness :
  exists traj w',
    get_trajectory ex_env true ex_world = Ok (traj, w') /\
    length (t_reward traj) = 1%nat /\ length (t_action traj) = 1%nat /\
    length (rows (t_state traj)) = 1%nat /\
    length (rows (t_prob traj)) = 1%nat /\ length (rows (t_x1 traj)) = 1%nat.
Proof.
  destruct (proj2 (get_trajectory_spec unit ex_env 2 true ex_world)
              ex_env_benign
              (good_learner_sampler_defined unit 2 1 2 ex_world ex_good)
              ex_rng_range) as [traj [w' Hrun]].
  exists traj, w'. split; [exact Hrun|].
  destruct (proj1 (get_trajectory_spec unit ex_env 2 true ex_world) traj w' Hrun)
    as [steps Hpost].
  cbv zeta in Hpost.
  destruct Hpost as [_ [_ [_ [Hr [Ha [Hs [Hp [Hx [_ [_ [_ [Hle Hd]]]]]]]]]]]].
  assert (HT : length steps = 1%nat).
  { change (episode_max_length (cfg ex_world)) with 1%nat in Hle, Hd.
    destruct Hd as [[_ ?]|[_ ?]]; lia. }
  rewrite HT in Hr, Ha, Hs, Hp, Hx.
  split; [exact Hr|]. split; [exact Ha|]. split; [exact Hs|].
  split; [exact Hp | exact Hx].
Defined.

Lemma ex_good_flaky : good_learner ex_world_flaky 2 1 2.
Proof.
  destruct ex_good as [HA [Hp [H1 [H2 [F1 [F2 Hr]]]]]].
  split; [reflexivity|]. split; [lia|]. split; [exact H1|].
  split; [exact H2|]. split; [exact F1|]. split; [exact F2 | exact Hr].
Qed.

(** The instance of C8: the first render call returns, the second raises,
    and the collection ends with its exception. *)
Lemma render_calls_spec_witness :
  get_trajectory ex_env_flaky true ex_world_flaky = Err (EnvError 4).
Proof.
  set (w0 := add_event EvReset (set_env_st 0%nat ex_world_flaky)).
  assert (Hg0 : good_learner w0 2 1 2).
  { apply (good_learner_same nat 2 1 2 ex_world_flaky);
      [exact ex_good_flaky | now repeat split | exact ex_rng_range]. }
  destruct (choose_action_ok nat 2 1 2 ex_obs w0 Hg0 eq_refl)
    as [a [p [x1 [Hc _]]]].
  set (wa := set_rng (snd (random_sample (rng w0))) w0) in Hc.
  set (wb := add_event (EvStep a false) (set_env_st 0%nat wa)).
  set (wc := add_event EvRender (set_env_st 1%nat wb)).
  assert (Hgc : good_learner wc 2 1 2).
  { apply (good_learner_same nat 2 1 2 ex_world_flaky);
      [exact ex_good_flaky | now repeat split | exact ex_rng_range]. }
  destruct (choose_action_ok nat 2 1 2 ex_obs wc Hgc eq_refl)
    as [a' [p' [x1' [Hc' _]]]].
  set (wa' := set_rng (snd (random_sample (rng wc))) wc) in Hc'.
  apply (proj2 (render_calls_spec nat ex_env_flaky true ex_world_flaky)
           1%nat w0 wc wa' (add_event (EvStep a' false) (set_env_st 1%nat wa'))
           (map Fin ex_obs) (map Fin ex_obs) p' x1'
           (map Fin ex_obs) a' (Fin 1) (EnvError 4)).
  - reflexivity.
  - apply (passes_S ex_env_flaky 0 (map Fin ex_obs) (map Fin ex_obs)
             (map Fin ex_obs) w0 wa wb wc wc a p x1 (Fin 1) tt).
    + exact Hc.
    + reflexivity.
    + reflexivity.
    + apply passes_O.
  - exact Hc'.
  - reflexivity.
  - reflexivity.
  - simpl. lia.
Defined.

End InstanceLoop.

(** * Further properties of the code *)

(** ** [sigmoid] *)

Section SigmoidFacts.

Local Open Scope R_scope.

Lemma sigmoid1_cases (x : npfloat) :
  match x with
  | Fin z => sigmoid1 x = Fin (logistic z)
  | PInf => sigmoid1 x = Fin 1
  | NInf => sigmoid1 x = Fin 0
  | NaN => sigmoid1 x = NaN
  end.
Proof.
  destruct x as [z| | |].
  - apply sigmoid1_Fin.
  - unfold sigmoid1, fone. simpl fneg. simpl fexp. simpl fadd.
    rewrite fdiv_Fin by lra. f_equal. field.
  - reflexivity.
  - reflexivity.
Qed.

(** X1. [sigmoid] is entry-wise and keeps the length; an entry of the
    result is NaN exactly when the entry of the argument is, and otherwise a
    finite number between 0 and 1, bounds included: 1 at +inf and 0 at
    -inf. *)
Theorem sigmoid_range (v : vec) :
  length (sigmoid v) = length v /\
  forall i, (i < length v)%nat ->
    match nth i v fzero with
    | Fin z => exists y, nth i (sigmoid v) fzero = Fin y /\ 0 <= y <= 1
    | PInf => nth i (sigmoid v) fzero = Fin 1
    | NInf => nth i (sigmoid v) fzero = Fin 0
    | NaN => nth i (sigmoid v) fzero = NaN
    end.
Proof.
  unfold sigmoid. split; [apply length_map|].
  intros i Hi. rewrite (nth_map_lt sigmoid1 v i fzero fzero Hi).
  pose proof (sigmoid1_cases (nth i v fzero)) as Hc.
  destruct (nth i v fzero) as [z| | |]; try exact Hc.
  exists (logistic z). split; [exact Hc|].
  pose proof (logistic_bounds z). lra.
Qed.

End SigmoidFacts.

(** ** [scale_state] *)

Section ScaleState.

Local Open Scope R_scope.

Lemma zip_with_fsub_Fin (s l : list R) :
  zip_with fsub (map Fin s) (map Fin l) = map Fin (zip_with Rminus s l).
Proof.
  revert l. induction s as [|x s IH]; intros [|y l]; simpl; auto.
  now rewrite IH.
Qed.

(** X3. For a state and a lower bound of one length, [scale_state] returns
    the entry-wise difference [state - low]; an entry of a state inside the
    box lies between 0 and [high - low].  Lengths that differ, neither being
    1, raise ValueError (numpy cannot broadcast them). *)
Theorem scale_state_spec :
  (forall s l h : list R,
     length s = length l ->
     exists r,
       scale_state (map Fin s) (mkBox (map Fin l) (map Fin h)) = Ok (map Fin r) /\
       length r = length s /\
       forall i, (i < length s)%nat ->
         nth i r 0 = nth i s 0 - nth i l 0 /\
         (nth i l 0 <= nth i s 0 <= nth i h 0 ->
          0 <= nth i r 0 <= nth i h 0 - nth i l 0)) /\
  (forall (state : vec) (O : Box),
     length state <> length (low O) ->
     length state <> 1%nat -> length (low O) <> 1%nat ->
     scale_state state O = Err ValueError).
Proof.
  split.
  - intros s l h Hl. exists (zip_with Rminus s l).
    assert (Hlen : length (zip_with Rminus s l) = length s).
    { rewrite zip_with_length. lia. }
    split; [|split; [exact Hlen|]].
    + unfold scale_state, np_subtract. simpl low.
      rewrite !length_map, Hl, Nat.eqb_refl. now rewrite zip_with_fsub_Fin.
    + intros i Hi.
      assert (E : nth i (zip_with Rminus s l) 0 = nth i s 0 - nth i l 0).
      { apply nth_zip_with; lia. }
      rewrite E. split; [reflexivity | lra].
  - intros state O H1 H2 H3. unfold scale_state, np_subtract.
    replace (length state =? length (low O))%nat with false
      by (symmetry; now apply Nat.eqb_neq).
    replace (length (low O) =? 1)%nat with false
      by (symmetry; now apply Nat.eqb_neq).
    replace (length state =? 1)%nat with false
      by (symmetry; now apply Nat.eqb_neq).
    reflexivity.
Qed.

End ScaleState.

(** ** [random_with_probability] *)

Section SamplerMore.

Variable S : Type.

Local Open Scope R_scope.

Lemma fold_fadd_Fin_inv (p : vec) (acc : npfloat) (s : R) :
  fold_left fadd p acc = Fin s ->
  exists a l, acc = Fin a /\ p = map Fin l /\ fold_left Rplus l a = s.
Proof.
  revert acc. induction p as [|x p IH]; intros acc H; simpl in H.
  - exists s, []. now subst.
  - destruct (IH _ H) as [a [l [Ha [Hp Hs]]]].
    destruct acc as [r| | |], x as [y| | |]; simpl in Ha; try discriminate.
    inversion Ha; subst a. exists r, (y :: l). subst p. now repeat split.
Qed.

Lemma np_sum_Fin_inv (p : vec) (s : R) :
  np_sum p = Fin s -> exists l, p = map Fin l /\ Rsum l = s.
Proof.
  intros H. destruct (fold_fadd_Fin_inv p fzero s H) as [a [l [Ha [Hp Hs]]]].
  exists l. split; [exact Hp|]. unfold fzero in Ha. inversion Ha; subst a.
  exact Hs.
Qed.

(** What the validation of [np.random.choice] lets through. *)
Lemma is_probability_vector_inv (n : nat) (p : vec) :
  is_probability_vector n p = true ->
  exists l, p = map Fin l /\ length l = n /\ (0 < n)%nat /\
            (forall x, In x l -> 0 <= x) /\ Rabs (Rsum l - 1) <= atol.
Proof.
  unfold is_probability_vector. intros H.
  apply andb_prop in H. destruct H as [H Hs].
  apply andb_prop in H. destruct H as [H Hp].
  apply andb_prop in H. destruct H as [Hn Hl].
  destruct (np_sum p) as [s| | |] eqn:Es; try discriminate.
  destruct (Rle_dec (Rabs (s - 1)) atol) as [Ha|]; [|discriminate].
  destruct (np_sum_Fin_inv p s Es) as [l [-> Hsum]].
  exists l. rewrite length_map in Hl.
  split; [reflexivity|]. split; [now apply Nat.eqb_eq|].
  split; [now apply Nat.ltb_lt|]. split; [|now rewrite Hsum].
  intros x Hx. rewrite forallb_forall in Hp.
  specialize (Hp (Fin x) (in_map Fin l x Hx)).
  unfold fzero in Hp. simpl in Hp.
  destruct (Rlt_dec x 0); [discriminate | lra].
Qed.

Lemma np_random_choice_inv (n : nat) (p : vec) (u : R) (a : nat) :
  np_random_choice n p u = Ok a -> u < 1 ->
  (a < n)%nat /\
  exists l, p = map Fin l /\ length l = n /\
            (forall x, In x l -> 0 <= x) /\ Rabs (Rsum l - 1) <= atol.
Proof.
  unfold np_random_choice. intros H Hu.
  destruct (is_probability_vector n p) eqn:Ev; [|discriminate].
  destruct (is_probability_vector_inv n p Ev) as [l [-> [Hl [Hn [Hp Hs]]]]].
  split; [|exists l; auto].
  inversion H as [Ha]. clear H Ha.
  assert (Hne : l <> []) by (intros ->; simpl in Hl; lia).
  assert (Hc : np_cumsum (map Fin l) <> []).
  { destruct l; [congruence | discriminate]. }
  assert (Hs0 : Rsum l <> 0).
  { pose proof atol_lt_1. intros E. rewrite E in Hs.
    replace (0 - 1) with (- (1)) in Hs by lra.
    rewrite Rabs_Ropp, Rabs_R1 in Hs. lra. }
  assert (Hlast : last (np_cumsum (map Fin l)) fzero = Fin (Rsum l)).
  { unfold np_cumsum, fzero. now rewrite last_cumsum_Fin. }
  rewrite Hlast.
  match goal with
  | |- (searchsorted_right ?c u < n)%nat =>
      replace n with (length c)
        by (unfold np_cumsum; now rewrite length_map, cumsum_from_length, length_map)
  end.
  apply searchsorted_right_lt.
  - destruct (np_cumsum (map Fin l)); [congruence | discriminate].
  - rewrite (last_map _ _ fzero fzero) by assumption.
    rewrite Hlast, fdiv_Fin by assumption.
    apply fle_Fin_false. unfold Rdiv. rewrite Rinv_r by assumption. lra.
Qed.

(** X5. Whatever the scores, when [random_with_probability] returns, the
    action is below [n_actions], the probabilities are [n_actions] finite
    non-negative numbers that sum to 1 within numpy's tolerance, each is the
    score divided by the sum of the scores, and one sample of the generator
    was consumed. *)
Theorem random_with_probability_post (output : vec) (n : nat) (w w' : World S)
    (a : nat) (probs : vec) :
  random_with_probability output n w = Ok ((a, probs), w') ->
  rng w 0%nat < 1 ->
  (a < n)%nat /\
  probs = map (fun o => fdiv o (np_sum output)) output /\
  (exists l, probs = map Fin l /\ length l = n /\
             (forall x, In x l -> 0 <= x) /\ Rabs (Rsum l - 1) <= atol) /\
  w' = set_rng (fun k => rng w (Datatypes.S k)) w.
Proof.
  unfold random_with_probability. intros H Hu.
  apply bind_inv in H. destruct H as [g [wa [Hg H]]]. inversion Hg; subst g wa.
  simpl in H.
  apply bind_inv in H. destruct H as [act [wb [Hb H]]].
  apply lift_inv in Hb. destruct Hb as [Hb ->].
  apply bind_inv in H. destruct H as [t [wc [Hc H]]].
  inversion Hc; subst wc. inversion H; subst a probs w'. clear H Hc.
  destruct (np_random_choice_inv _ _ _ _ Hb Hu) as [Ha Hl].
  split; [exact Ha|]. split; [reflexivity|]. split; [exact Hl | reflexivity].
Qed.

End SamplerMore.

(** ** [forward_step] and [choose_action] *)

Section ForwardMore.

Variable S : Type.

Local Open Scope R_scope.

Lemma relu_not_negative (v : vec) (i : nat) :
  flt (nth i (map (fun x => if flt x fzero then fzero else x) v) fzero) fzero
  = false.
Proof.
  revert i. induction v as [|x v IH]; intros i; simpl.
  - destruct i; unfold fzero; apply flt_Fin_false; lra.
  - destruct i as [|i]; [|apply IH].
    destruct (flt x fzero) eqn:E; [|exact E].
    unfold fzero. apply flt_Fin_false. lra.
Qed.

(** X6. [forward_step] raises, and then ValueError, exactly when the state
    has not as many entries as [w1] has rows or [w1] has not as many columns
    as [w2] has rows.  Otherwise it leaves the learner as it is and returns
    as many hidden activations as [w1] has columns, none of them negative,
    and as many scores as [w2] has columns. *)
Theorem forward_step_shapes (state : vec) (w : World S) :
  (length state = nrows (w1 w) /\ ncols (w1 w) = nrows (w2 w) ->
   exists x1 output,
     forward_step state w = Ok ((x1, output), w) /\
     length x1 = ncols (w1 w) /\ length output = ncols (w2 w) /\
     forall i, flt (nth i x1 fzero) fzero = false) /\
  (~ (length state = nrows (w1 w) /\ ncols (w1 w) = nrows (w2 w)) ->
   forward_step state w = Err ValueError).
Proof.
  split.
  - intros [H1 H2]. eexists _, _.
    split; [apply forward_step_run; assumption|].
    split; [|split].
    + unfold vecmat. now rewrite !length_map, length_seq.
    + unfold sigmoid, vecmat. now rewrite !length_map, length_seq.
    + intros i. apply relu_not_negative.
  - intros Hn.
    unfold forward_step, bind, gets, lift, ret, np_dot_vec. simpl.
    destruct (length state =? nrows (w1 w))%nat eqn:E1; [|reflexivity].
    apply Nat.eqb_eq in E1.
    rewrite length_map. unfold vecmat at 1. rewrite length_map, length_seq.
    destruct (ncols (w1 w) =? nrows (w2 w))%nat eqn:E2; [|reflexivity].
    apply Nat.eqb_eq in E2. exfalso. apply Hn. now split.
Qed.

Lemma rsum_zero (n : nat) (f : nat -> R) :
  (forall k, (k < n)%nat -> f k = 0) -> rsum n f = 0.
Proof.
  intros H. rewrite (rsum_ext n f (fun _ => 0) H).
  unfold rsum. induction (seq 0 n) as [|k l IH]; simpl.
  - apply Rsum_nil.
  - rewrite Rsum_cons, IH. lra.
Qed.




End ForwardMore.

(** ** [backward_step] *)

Section BackwardMore.

Variable S : Type.

Local Open Scope R_scope.

Lemma fsum_Fin_ext (n : nat) (f : nat -> npfloat) (g : nat -> R) :
  (forall k, (k < n)%nat -> f k = Fin (g k)) -> fsum n f = Fin (rsum n g).
Proof.
  intros H. rewrite (fsum_ext n f (fun k => Fin (g k)) H). apply fsum_Fin.
Qed.

(** The gradients on finite arrays, as real sums. *)
Lemma backward_step_Fin (x0 x1 feedback : ndarray) (w : World S)
    (T O H A : nat) (X0 X1 F W : nat -> nat -> R) :
  has_shape x0 T O -> has_shape x1 T H -> has_shape feedback T A ->
  has_shape (w2 w) H A ->
  (forall t i, (t < T)%nat -> (i < O)%nat -> get x0 t i = Fin (X0 t i)) ->
  (forall t j, (t < T)%nat -> (j < H)%nat -> get x1 t j = Fin (X1 t j)) ->
  (forall t k, (t < T)%nat -> (k < A)%nat -> get feedback t k = Fin (F t k)) ->
  (forall j k, (j < H)%nat -> (k < A)%nat -> get (w2 w) j k = Fin (W j k)) ->
  exists change_w1 change_w2,
    backward_step x0 x1 feedback w = Ok ((change_w1, change_w2), w) /\
    (forall j k, (j < H)%nat -> (k < A)%nat ->
       get change_w2 j k = Fin (rsum T (fun t => X1 t j * F t k))) /\
    (forall i j, (i < O)%nat -> (j < H)%nat ->
       get change_w1 i j =
       Fin (rsum T (fun t =>
              X0 t i * (if Rle_dec (X1 t j) 0 then 0
                        else rsum A (fun k => F t k * W j k))))).
Proof.
  intros H0 H1 Hf H2 E0 E1 EF EW.
  destruct (backward_step_entries S x0 x1 feedback w T O H A H0 H1 Hf H2)
    as [c1 [c2 [Hrun [_ [_ [Hc2 Hc1]]]]]].
  exists c1, c2. split; [exact Hrun|]. split.
  - intros j k Hj Hk. rewrite Hc2 by assumption.
    apply fsum_Fin_ext. intros t Ht. now rewrite E1, EF.
  - intros i j Hi Hj. rewrite Hc1 by assumption.
    apply fsum_Fin_ext. intros t Ht. rewrite E0, E1 by assumption.
    assert (Ein : fsum A (fun k => fmul (get feedback t k) (get (w2 w) j k)) =
                  Fin (rsum A (fun k => F t k * W j k))).
    { apply fsum_Fin_ext. intros k Hk. now rewrite EF, EW. }
    rewrite Ein. unfold fzero. simpl.
    destruct (Rle_dec (X1 t j) 0); simpl; f_equal.
Qed.

(** X7. With finite states, hidden activations and weights, an error
    signal that is zero everywhere gives gradients that are zero
    everywhere. *)
Theorem backward_step_zero_feedback (x0 x1 feedback : ndarray) (w : World S)
    (T O H A : nat) (X0 X1 W : nat -> nat -> R) :
  has_shape x0 T O -> has_shape x1 T H -> has_shape feedback T A ->
  has_shape (w2 w) H A ->
  (forall t i, (t < T)%nat -> (i < O)%nat -> get x0 t i = Fin (X0 t i)) ->
  (forall t j, (t < T)%nat -> (j < H)%nat -> get x1 t j = Fin (X1 t j)) ->
  (forall j k, (j < H)%nat -> (k < A)%nat -> get (w2 w) j k = Fin (W j k)) ->
  (forall t k, (t < T)%nat -> (k < A)%nat -> get feedback t k = fzero) ->
  exists change_w1 change_w2,
    backward_step x0 x1 feedback w = Ok ((change_w1, change_w2), w) /\
    (forall i j, (i < O)%nat -> (j < H)%nat -> get change_w1 i j = fzero) /\
    (forall j k, (j < H)%nat -> (k < A)%nat -> get change_w2 j k = fzero).
Proof.
  intros H0 H1 Hf H2 E0 E1 EW EF.
  destruct (backward_step_Fin x0 x1 feedback w T O H A X0 X1 (fun _ _ => 0) W
              H0 H1 Hf H2 E0 E1 EF EW) as [c1 [c2 [Hrun [Hc2 Hc1]]]].
  exists c1, c2. split; [exact Hrun|]. split.
  - intros i j Hi Hj. rewrite Hc1 by assumption. unfold fzero. f_equal.
    apply rsum_zero. intros t Ht.
    destruct (Rle_dec (X1 t j) 0); [lra|].
    rewrite rsum_zero; [lra|]. intros k Hk. lra.
  - intros j k Hj Hk. rewrite Hc2 by assumption. unfold fzero. f_equal.
    apply rsum_zero. intros t Ht. lra.
Qed.


End BackwardMore.

(** ** [get_trajectory] *)

Section TrajectoryMore.

Variable S : Type.
Variable env : Env S.
Variables O H A : nat.

Local Open Scope R_scope.

(** One uniform sample is consumed per step. *)
Lemma trajectory_loop_rng (n : nat) (render : bool) :
  forall (state : vec) (b b' : buffers) (w w' : World S),
    trajectory_loop env n render state b w = Ok (b', w') ->
    exists k, length (b_rewards b') = (length (b_rewards b) + k)%nat /\
              forall i, rng w' i = rng w (k + i)%nat.
Proof.
  induction n as [|n IH]; intros state b b' w w' Hl.
  - inversion Hl; subst. exists 0%nat. split; [lia | reflexivity].
  - simpl in Hl.
    apply bind_inv in Hl. destruct Hl as [[[a p] x1] [wa [Ha Hl]]].
    apply choose_action_effect in Ha.
    apply bind_inv in Hl. destruct Hl as [[[st' rew] d] [wb [Hb Hl]]].
    apply call_step_effect in Hb. destruct Hb as [s [_ Hb]].
    destruct d.
    + inversion Hl; subst. exists 1%nat. simpl. rewrite length_app. simpl.
      split; [lia | reflexivity].
    + apply bind_inv in Hl. destruct Hl as [u [wc [Hc Hl]]].
      assert (Hrc : rng wc = rng wb).
      { destruct render.
        - apply call_render_effect in Hc. destruct Hc as [s' [_ ->]].
          reflexivity.
        - now inversion Hc. }
      apply IH in Hl. destruct Hl as [k [Hk Hr]]. simpl in Hk.
      rewrite length_app in Hk. simpl in Hk.
      exists (Datatypes.S k). split; [lia|].
      intros i. rewrite Hr, Hrc. subst wb wa. reflexivity.
Qed.

(** X10. [get_trajectory] assigns no field of the learner: when it
    returns, the weights, the dimensions and the configuration are what they
    were, and the generator has advanced by exactly one uniform sample
    for each recorded step. *)
Theorem get_trajectory_effects (render : bool) (w w' : World S)
    (traj : trajectory) :
  get_trajectory env render w = Ok (traj, w') ->
  w1 w' = w1 w /\ w2 w' = w2 w /\ nO w' = nO w /\ nA w' = nA w /\
  cfg w' = cfg w /\
  forall i, rng w' i = rng w (length (t_reward traj) + i)%nat.
Proof.
  intros Hrun.
  destruct (get_trajectory_post S env render w w' traj Hrun) as [steps Hpost].
  cbv zeta in Hpost.
  destruct Hpost as [_ [_ [_ [_ [_ [_ [_ [E1 [E2 [E3 [E4 E5]]]]]]]]]]].
  do 5 (split; [assumption|]).
  unfold get_trajectory in Hrun.
  apply bind_inv in Hrun. destruct Hrun as [st [wa [Ha Hrun]]].
  apply call_reset_effect in Ha. destruct Ha as [s [_ Ha]].
  apply bind_inv in Hrun. destruct Hrun as [n [wb [Hb Hrun]]].
  inversion Hb; subst n wb. clear Hb.
  apply bind_inv in Hrun. destruct Hrun as [b [wc [Hc Hrun]]].
  inversion Hrun; subst traj w'. clear Hrun.
  apply trajectory_loop_rng in Hc. destruct Hc as [k [Hk Hr]].
  simpl in Hk. simpl t_reward. rewrite Hk. intros i. rewrite Hr. subst wa.
  reflexivity.
Qed.

(** What [forward_step] returns, when it returns. *)
Lemma forward_step_inv (state x1 out : vec) (w w' : World S) :
  forward_step state w = Ok ((x1, out), w') ->
  relu_row (ncols (w1 w)) x1.
Proof.
  intros Hf.
  unfold forward_step, bind, gets, lift, ret, np_dot_vec in Hf. simpl in Hf.
  destruct (length state =? nrows (w1 w))%nat; [|discriminate].
  rewrite length_map in Hf. unfold vecmat at 1 in Hf.
  rewrite length_map, length_seq in Hf.
  destruct (ncols (w1 w) =? nrows (w2 w))%nat; [|discriminate].
  injection Hf as <- _ _. split.
  - unfold vecmat. now rewrite !length_map, length_seq.
  - intros i. apply relu_not_negative.
Qed.

(** What [random_with_probability] returns, when it returns. *)
Lemma random_with_probability_inv (output probs : vec) (n a : nat)
    (w w' : World S) :
  random_with_probability output n w = Ok ((a, probs), w') ->
  rng w 0%nat < 1 ->
  (a < n)%nat /\ valid_probabilities n probs.
Proof.
  unfold random_with_probability. intros Hrun Hu.
  apply bind_inv in Hrun. destruct Hrun as [g [wa [Hg Hrun]]].
  inversion Hg; subst g wa. simpl in Hrun.
  apply bind_inv in Hrun. destruct Hrun as [act [wb [Hb Hrun]]].
  apply lift_inv in Hb. destruct Hb as [Hb ->].
  apply bind_inv in Hrun. destruct Hrun as [t [wc [Hc Hrun]]].
  inversion Hc; subst wc. inversion Hrun; subst a probs w'.
  exact (np_random_choice_inv _ _ _ _ Hb Hu).
Qed.

(** What [choose_action] returns, when it returns. *)
Lemma choose_action_inv (state p x1 : vec) (a : nat) (w w' : World S) :
  choose_action state w = Ok ((a, p, x1), w') ->
  rng w 0%nat < 1 ->
  (a < nA w)%nat /\ valid_probabilities (nA w) p /\
  relu_row (ncols (w1 w)) x1.
Proof.
  unfold choose_action. intros Hc Hu.
  apply bind_inv in Hc. destruct Hc as [[y out] [wa [Hf Hc]]].
  pose proof (forward_step_inv _ _ _ _ _ Hf) as Hx.
  apply forward_step_pure in Hf. subst wa.
  apply bind_inv in Hc. destruct Hc as [n [wb [Hn Hc]]].
  inversion Hn; subst n wb.
  apply bind_inv in Hc. destruct Hc as [[a' p'] [wc [Hr Hc]]].
  inversion Hc; subst a' p' y w'.
  destruct (random_with_probability_inv _ _ _ _ _ _ Hr Hu) as [Ha Hp].
  split; [exact Ha|]. split; [exact Hp | exact Hx].
Qed.

Lemma trajectory_loop_data (n : nat) (render : bool) :
  forall (state : vec) (b b' : buffers) (w w' : World S),
    trajectory_loop env n render state b w = Ok (b', w') ->
    (forall k, rng w k < 1) ->
    Forall (fun a => (a < nA w)%nat) (b_actions b) ->
    Forall (valid_probabilities (nA w)) (b_episode_probabilities b) ->
    Forall (relu_row (ncols (w1 w))) (b_x1s b) ->
    Forall (fun a => (a < nA w)%nat) (b_actions b') /\
    Forall (valid_probabilities (nA w)) (b_episode_probabilities b') /\
    Forall (relu_row (ncols (w1 w))) (b_x1s b').
Proof.
  induction n as [|n IH]; intros state b b' w w' Hl Hr Ba Bp Bx.
  - inversion Hl; subst. auto.
  - simpl in Hl.
    apply bind_inv in Hl. destruct Hl as [[[a p] x1] [wa [Ha Hl]]].
    destruct (choose_action_inv _ _ _ _ _ _ Ha (Hr 0%nat)) as [Ia [Ip Ix]].
    apply choose_action_effect in Ha.
    apply bind_inv in Hl. destruct Hl as [[[st' rew] d] [wb [Hb Hl]]].
    apply call_step_effect in Hb. destruct Hb as [s [_ Hb]].
    assert (Ba' : Forall (fun a => (a < nA w)%nat) (b_actions b ++ [a]))
      by (apply Forall_app; split; [assumption | now constructor]).
    assert (Bp' : Forall (valid_probabilities (nA w))
                    (b_episode_probabilities b ++ [p]))
      by (apply Forall_app; split; [assumption | now constructor]).
    assert (Bx' : Forall (relu_row (ncols (w1 w))) (b_x1s b ++ [x1]))
      by (apply Forall_app; split; [assumption | now constructor]).
    destruct d.
    + inversion Hl; subst b' w'. simpl. auto.
    + apply bind_inv in Hl. destruct Hl as [u [wc [Hc Hl]]].
      assert (Hwc : nA wc = nA w /\ w1 wc = w1 w /\
                    forall k, rng wc k = rng w (Datatypes.S k)).
      { destruct render.
        - apply call_render_effect in Hc. destruct Hc as [s' [_ ->]].
          subst wb wa. now repeat split.
        - inversion Hc; subst wc. subst wb wa. now repeat split. }
      destruct Hwc as [EA [EW Er]].
      apply IH in Hl; simpl; rewrite ?EA, ?EW; try assumption.
      * rewrite EA, EW in Hl. exact Hl.
      * intros k. rewrite Er. apply Hr.
Qed.

(** X11. Whatever the weights, the trajectory [get_trajectory] returns,
    when it returns, is made of checked data only: every recorded action is
    below the number of actions; every recorded probability row holds [nA]
    finite numbers, none negative, that sum to 1 within the tolerance of
    [np.random.choice]; every recorded row of hidden activations has as
    many entries as [w1] has columns, none negative.  There is one such row
    and one action for every reward recorded, and at least one when the cap
    is positive. *)
Theorem get_trajectory_data (render : bool) (w w' : World S)
    (traj : trajectory) :
  get_trajectory env render w = Ok (traj, w') ->
  (forall k, rng w k < 1) ->
  length (t_action traj) = length (t_reward traj) /\
  length (rows (t_prob traj)) = length (t_reward traj) /\
  length (rows (t_x1 traj)) = length (t_reward traj) /\
  ((0 < episode_max_length (cfg w))%nat -> (0 < length (t_reward traj))%nat) /\
  Forall (fun a => (a < nA w)%nat) (t_action traj) /\
  Forall (valid_probabilities (nA w)) (rows (t_prob traj)) /\
  Forall (relu_row (ncols (w1 w))) (rows (t_x1 traj)).
Proof.
  intros Hrun Hr.
  destruct (get_trajectory_post S env render w w' traj Hrun) as [steps Hpost].
  cbv zeta in Hpost.
  destruct Hpost as [_ [Hact [Hrw [_ [[_ Hp] [[_ Hx] [Hd _]]]]]]].
  split; [now rewrite Hact, length_map, Hrw|].
  split; [now rewrite Hp, Hrw|]. split; [now rewrite Hx, Hrw|].
  split; [rewrite Hrw; destruct Hd as [[_ ?]|[_ ?]]; lia|].
  unfold get_trajectory in Hrun.
  apply bind_inv in Hrun. destruct Hrun as [st [wa [Ha Hrun]]].
  apply call_reset_effect in Ha. destruct Ha as [s [_ Ha]].
  apply bind_inv in Hrun. destruct Hrun as [n [wb [Hb Hrun]]].
  inversion Hb; subst n wb. clear Hb.
  apply bind_inv in Hrun. destruct Hrun as [b [wc [Hc Hrun]]].
  inversion Hrun; subst traj w'. clear Hrun.
  apply trajectory_loop_data in Hc; subst wa; simpl; auto.
Qed.


End TrajectoryMore.

(** ** [learn] *)

Section LearnMore.

Variable S : Type.
Variable env : Env S.

Ltac inv_pure H := cbv [gets modify ret] in H; injection H as <- <-.

Lemma py_mod_inv (a b r : Z) (w w' : World S) :
  py_mod a b w = Ok (r, w') -> b <> 0%Z /\ r = (a mod b)%Z /\ w' = w.
Proof.
  unfold py_mod. destruct (b =? 0)%Z eqn:E; intros H; [discriminate|].
  inversion H; subst. split; [now apply Z.eqb_neq | auto].
Qed.

Lemma backward_step_pure (x0 x1 fb : ndarray) (w w' : World S)
    (r : ndarray * ndarray) :
  backward_step x0 x1 fb w = Ok (r, w') -> w' = w.
Proof.
  unfold backward_step. intros H.
  apply bind_inv in H. destruct H as [c2 [wa [Ha H]]].
  apply lift_inv in Ha. destruct Ha as [_ ->].
  apply bind_inv in H. destruct H as [W2 [wb [Hb H]]]. inversion Hb; subst.
  apply bind_inv in H. destruct H as [dh [wc [Hc H]]].
  apply lift_inv in Hc. destruct Hc as [_ ->].
  apply bind_inv in H. destruct H as [dh' [wd [Hd H]]].
  apply lift_inv in Hd. destruct Hd as [_ ->].
  apply bind_inv in H. destruct H as [c1 [we [He H]]].
  apply lift_inv in He. destruct He as [_ ->].
  now inversion H.
Qed.

Lemma episode_gradient_pure (tr : trajectory) (w w' : World S)
    (r : ndarray * ndarray) :
  episode_gradient tr w = Ok (r, w') -> w' = w.
Proof.
  unfold episode_gradient. intros H.
  apply bind_inv in H. destruct H as [n [wa [Ha H]]]. inversion Ha; subst.
  apply bind_inv in H. destruct H as [e1 [wb [Hb H]]].
  apply lift_inv in Hb. destruct Hb as [_ ->].
  apply bind_inv in H. destruct H as [g [wc [Hc H]]]. inversion Hc; subst.
  apply bind_inv in H. destruct H as [e2 [wd [Hd H]]].
  apply lift_inv in Hd. destruct Hd as [_ ->].
  now apply backward_step_pure in H.
Qed.

(** What is known when the end of a batch returns. *)
Lemma batch_update_inv (l l' : locals) (w w' : World S) :
  batch_update l w = Ok (l', w') ->
  iteration l' = (iteration l + 1)%Z /\ episode_nr l' = episode_nr l /\
  episode_rewards l' = episode_rewards l /\
  episode_lengths l' = episode_lengths l /\
  mean_rewards l' = mean_rewards l ++ [np_mean (episode_rewards l)] /\
  draw_frequency (cfg w) <> 0%Z /\ cfg w' = cfg w /\
  trace w' = trace w ++ batch_events l (draw_frequency (cfg w)).
Proof.
  unfold batch_update. intros H.
  apply bind_inv in H. destruct H as [decay [wa [Ha H]]]. inv_pure Ha.
  apply bind_inv in H. destruct H as [r1 [wb [Hb H]]].
  apply lift_inv in Hb. destruct Hb as [_ ->].
  apply bind_inv in H. destruct H as [r2 [wc [Hc H]]].
  apply lift_inv in Hc. destruct Hc as [_ ->].
  apply bind_inv in H. destruct H as [lr [wd [Hd H]]]. inv_pure Hd.
  apply bind_inv in H. destruct H as [W1 [we [He H]]]. inv_pure He.
  apply bind_inv in H. destruct H as [d1 [wf' [Hf H]]].
  apply lift_inv in Hf. destruct Hf as [_ ->].
  apply bind_inv in H. destruct H as [W1' [wg [Hg H]]].
  apply lift_inv in Hg. destruct Hg as [_ ->].
  apply bind_inv in H. destruct H as [u1 [wh [Hh H]]]. inv_pure Hh.
  apply bind_inv in H. destruct H as [W2 [wi [Hi H]]]. inv_pure Hi.
  apply bind_inv in H. destruct H as [d2 [wj [Hj H]]].
  apply lift_inv in Hj. destruct Hj as [_ ->].
  apply bind_inv in H. destruct H as [W2' [wk [Hk H]]].
  apply lift_inv in Hk. destruct Hk as [_ ->].
  apply bind_inv in H. destruct H as [u2 [wl [Hl H]]]. inv_pure Hl.
  apply bind_inv in H. destruct H as [u3 [wm [Hm H]]]. inv_pure Hm.
  apply bind_inv in H. destruct H as [df [wn [Hn H]]]. inv_pure Hn.
  apply bind_inv in H. destruct H as [r [wo [Ho H]]].
  apply py_mod_inv in Ho. simpl in Ho. destruct Ho as [Hdf [-> ->]].
  apply bind_inv in H. destruct H as [u4 [wp [Hp H]]].
  inversion H; subst l' w'. clear H. simpl.
  do 5 (split; [reflexivity|]). split; [exact Hdf|].
  unfold batch_events.
  destruct (episode_nr l mod draw_frequency (cfg w) =? 0)%Z.
  - inv_pure Hp. simpl. split; [reflexivity|].
    now rewrite <- app_assoc.
  - inv_pure Hp. simpl. split; reflexivity.
Qed.

(** What is known when a pass of the loop returns, after the collection. *)
Lemma learn_update_inv (tr : trajectory) (l l' : locals) (w w' : World S) :
  learn_update tr l w = Ok (l', w') ->
  batch_size (cfg w) <> 0%Z /\
  episode_nr l' = (episode_nr l + 1)%Z /\ cfg w' = cfg w /\
  set_item_z (episode_rewards l) (episode_nr l mod batch_size (cfg w))
    (np_sum (t_reward tr)) = Ok (episode_rewards l') /\
  set_item_z (episode_lengths l) (episode_nr l mod batch_size (cfg w))
    (Fin (INR (length (t_reward tr)))) = Ok (episode_lengths l') /\
  if ((episode_nr l + 1) mod batch_size (cfg w) =? 0)%Z then
    iteration l' = (iteration l + 1)%Z /\
    mean_rewards l' = mean_rewards l ++ [np_mean (episode_rewards l')] /\
    draw_frequency (cfg w) <> 0%Z /\
    trace w' =
    trace w ++
    EvPrintIterationStats (iteration l + 1) (episode_rewards l')
      (episode_lengths l') (episode_nr l + 1)
    :: (if ((episode_nr l + 1) mod draw_frequency (cfg w) =? 0)%Z
        then [EvDrawRewards (mean_rewards l')] else [])
  else
    iteration l' = iteration l /\ mean_rewards l' = mean_rewards l /\ w' = w.
Proof.
  unfold learn_update. intros H.
  apply bind_inv in H. destruct H as [bs [wa [Ha H]]]. inv_pure Ha.
  apply bind_inv in H. destruct H as [i [wb [Hb H]]].
  apply py_mod_inv in Hb. destruct Hb as [Hbs [-> ->]].
  apply bind_inv in H. destruct H as [er [wc [Hc H]]].
  apply lift_inv in Hc. destruct Hc as [Her ->].
  apply bind_inv in H. destruct H as [el [wd [Hd H]]].
  apply lift_inv in Hd. destruct Hd as [Hel ->].
  apply bind_inv in H. destruct H as [[c1 c2] [we [He H]]].
  apply episode_gradient_pure in He. subst we.
  apply bind_inv in H. destruct H as [g1 [wf' [Hf H]]].
  apply lift_inv in Hf. destruct Hf as [_ ->].
  apply bind_inv in H. destruct H as [g2 [wg [Hg H]]].
  apply lift_inv in Hg. destruct Hg as [_ ->].
  apply bind_inv in H. destruct H as [r [wh [Hh H]]].
  apply py_mod_inv in Hh. destruct Hh as [_ [-> ->]].
  split; [exact Hbs|].
  destruct ((episode_nr l + 1) mod batch_size (cfg w) =? 0)%Z.
  - apply batch_update_inv in H. simpl in H.
    destruct H as [Hit [Hnr [Hr [Hl [Hm [Hdf [Hcfg Htr]]]]]]].
    rewrite Hr, Hl. split; [exact Hnr|]. split; [exact Hcfg|].
    split; [exact Her|]. split; [exact Hel|].
    split; [exact Hit|]. split; [exact Hm|]. split; [exact Hdf|].
    rewrite Htr. unfold batch_events. simpl. now rewrite Hm.
  - inversion H; subst l' w'. simpl.
    split; [reflexivity|]. split; [reflexivity|].
    split; [exact Her|]. split; [exact Hel|]. auto.
Qed.

Lemma learn_step_inv (l l' : locals) (w w' : World S) :
  learn_step env l w = Ok (l', w') ->
  exists tr wt,
    get_trajectory env (0 <? episode_max_length (cfg w))%nat w = Ok (tr, wt) /\
    learn_update tr l wt = Ok (l', w').
Proof.
  unfold learn_step. intros H.
  apply bind_inv in H. destruct H as [n [wa [Ha H]]]. inversion Ha; subst.
  apply bind_inv in H. destruct H as [tr [wt [Ht H]]].
  now exists tr, wt.
Qed.

Lemma div_next (a b : Z) :
  (0 <= a)%Z -> (0 < b)%Z ->
  ((a + 1) / b =
   if (a + 1) mod b =? 0 then a / b + 1 else a / b)%Z.
Proof.
  intros Ha Hb.
  pose proof (Z.div_mod (a + 1) b ltac:(lia)) as E.
  pose proof (Z.mod_pos_bound (a + 1) b Hb) as B.
  destruct ((a + 1) mod b =? 0)%Z eqn:Em.
  - apply Z.eqb_eq in Em. rewrite Em in E.
    assert (Hq : (a / b = (a + 1) / b - 1)%Z).
    { symmetry. apply (Z.div_unique a b _ (b - 1)); lia. }
    lia.
  - apply Z.eqb_neq in Em.
    apply (Z.div_unique a b _ ((a + 1) mod b - 1)); lia.
Qed.

Lemma set_item_inv (v v' : vec) (i : nat) (x d : npfloat) :
  set_item v i x = Ok v' ->
  (i < length v)%nat /\ length v' = length v /\ nth i v' d = x /\
  forall j, j <> i -> nth j v' d = nth j v d.
Proof.
  revert i v'. induction v as [|y v IH]; intros i v' Hs; simpl in Hs;
    [destruct i; discriminate|].
  destruct i as [|i].
  - injection Hs as <-. simpl. split; [lia|]. split; [reflexivity|].
    split; [reflexivity|]. intros [|j] Hj; [congruence | reflexivity].
  - destruct (set_item v i x) as [r|e] eqn:E; [|discriminate].
    injection Hs as <-. destruct (IH i r E) as [Hi [Hl [Hn Ho]]].
    simpl. split; [lia|]. split; [lia|]. split; [exact Hn|].
    intros [|j] Hj; [reflexivity | apply Ho; lia].
Qed.

Lemma set_item_z_inv (v v' : vec) (i : Z) (x d : npfloat) :
  set_item_z v i x = Ok v' -> (0 <= i)%Z ->
  (Z.to_nat i < length v)%nat /\ length v' = length v /\
  nth (Z.to_nat i) v' d = x /\
  forall j, j <> Z.to_nat i -> nth j v' d = nth j v d.
Proof.
  unfold set_item_z. intros Hs Hi.
  replace (i <? 0)%Z with false in Hs by (symmetry; apply Z.ltb_ge; lia).
  replace (i <? 0)%Z with false in Hs by (symmetry; apply Z.ltb_ge; lia).
  now apply set_item_inv.
Qed.

Lemma set_item_z_length (v v' : vec) (i : Z) (x : npfloat) :
  set_item_z v i x = Ok v' -> length v' = length v.
Proof.
  unfold set_item_z. intros Hs.
  destruct ((if (i <? 0)%Z then (Z.of_nat (length v) + i)%Z else i) <? 0)%Z;
    [discriminate|].
  now apply (set_item_inv v v' _ x fzero) in Hs.
Qed.

Lemma count_prints_app (l l' : list event) :
  count_prints (l ++ l') = (count_prints l + count_prints l')%nat.
Proof. unfold count_prints. now rewrite filter_app, length_app. Qed.

Lemma count_prints_episode_events (render : bool) (steps : list (nat * bool)) :
  count_prints (episode_events render steps) = 0%nat.
Proof.
  unfold count_prints. induction steps as [|[a d] steps IH]; simpl; auto.
  rewrite filter_app, length_app, IH. destruct (render && negb d); reflexivity.
Qed.

Lemma learn_init_inv (w w' : World S) (l : locals) :
  learn_init w = Ok (l, w') ->
  (0 <= batch_size (cfg w))%Z /\ w' = w /\
  episode_nr l = 0%Z /\ iteration l = 0%Z /\ mean_rewards l = [] /\
  episode_rewards l = repeat fzero (Z.to_nat (batch_size (cfg w))) /\
  episode_lengths l = repeat fzero (Z.to_nat (batch_size (cfg w))).
Proof.
  unfold learn_init, bind, gets, raise, ret.
  destruct (batch_size (cfg w) <? 0)%Z eqn:E; [discriminate|].
  intros H. injection H as <- <-. simpl.
  apply Z.ltb_ge in E. repeat split; auto.
Qed.

(** The counters over one pass of the loop. *)
Lemma learn_step_counters (l l' : locals) (w w' : World S) :
  learn_step env l w = Ok (l', w') ->
  (0 <= batch_size (cfg w))%Z -> (0 <= episode_nr l)%Z ->
  (0 < batch_size (cfg w))%Z /\ cfg w' = cfg w /\
  episode_nr l' = (episode_nr l + 1)%Z /\
  (iteration l' - episode_nr l' / batch_size (cfg w) =
   iteration l - episode_nr l / batch_size (cfg w))%Z /\
  (iteration l <= iteration l')%Z /\
  length (mean_rewards l') =
  (length (mean_rewards l) + Z.to_nat (iteration l' - iteration l))%nat /\
  count_prints (trace w') =
  (count_prints (trace w) + Z.to_nat (iteration l' - iteration l))%nat /\
  length (episode_rewards l') = length (episode_rewards l) /\
  length (episode_lengths l') = length (episode_lengths l).
Proof.
  intros Hs Hbs Hnr.
  apply learn_step_inv in Hs. destruct Hs as [tr [wt [Hgt Hup]]].
  destruct (get_trajectory_post S env _ w wt tr Hgt) as [steps Hpost].
  cbv zeta in Hpost.
  destruct Hpost as [Htrace [_ [_ [_ [_ [_ [_ Hself]]]]]]].
  destruct Hself as [_ [_ [_ [_ Hcfg]]]].
  apply learn_update_inv in Hup. rewrite Hcfg in Hup.
  destruct Hup as [Hne [Hnr' [Hcfg' [Her [Hel Hcase]]]]].
  assert (Hpos : (0 < batch_size (cfg w))%Z) by lia.
  pose proof (div_next (episode_nr l) (batch_size (cfg w)) Hnr Hpos) as Hd.
  apply set_item_z_length in Her. apply set_item_z_length in Hel.
  assert (Hct : count_prints (trace wt) = count_prints (trace w)).
  { rewrite Htrace, count_prints_app. simpl.
    change (count_prints (EvReset :: ?x)) with (count_prints x).
    unfold count_prints at 2. simpl.
    fold (count_prints (episode_events
            (0 <? episode_max_length (cfg w))%nat steps)).
    rewrite count_prints_episode_events. lia. }
  split; [exact Hpos|]. split; [congruence|]. split; [exact Hnr'|].
  rewrite Hnr'.
  destruct ((episode_nr l + 1) mod batch_size (cfg w) =? 0)%Z.
  - destruct Hcase as [Hit [Hm [_ Htr]]].
    rewrite Hit, Hm, Htr, length_app, count_prints_app, Hct.
    replace (iteration l + 1 - iteration l)%Z with 1%Z by lia.
    change (Z.to_nat 1) with 1%nat.
    split; [lia|]. split; [lia|]. split; [reflexivity|].
    split; [|split; assumption].
    f_equal. unfold count_prints. simpl.
    destruct ((episode_nr l + 1) mod draw_frequency (cfg w) =? 0)%Z;
      reflexivity.
  - destruct Hcase as [Hit [Hm ->]].
    rewrite Hit, Hm, Hct, Z.sub_diag. simpl.
    split; [lia|]. split; [lia|]. split; [lia|]. split; [lia|].
    split; assumption.
Qed.

Lemma learn_loop_counters (n : nat) (l l' : locals) (w w' : World S) :
  learn_loop env n l w = Ok (l', w') ->
  (0 <= batch_size (cfg w))%Z -> (0 <= episode_nr l)%Z ->
  cfg w' = cfg w /\
  episode_nr l' = (episode_nr l + Z.of_nat n)%Z /\
  (iteration l' - episode_nr l' / batch_size (cfg w) =
   iteration l - episode_nr l / batch_size (cfg w))%Z /\
  (iteration l <= iteration l')%Z /\
  length (mean_rewards l') =
  (length (mean_rewards l) + Z.to_nat (iteration l' - iteration l))%nat /\
  count_prints (trace w') =
  (count_prints (trace w) + Z.to_nat (iteration l' - iteration l))%nat /\
  length (episode_rewards l') = length (episode_rewards l) /\
  length (episode_lengths l') = length (episode_lengths l).
Proof.
  revert l w. induction n as [|n IH]; intros l w Hrun Hbs Hnr.
  - injection Hrun as <- <-. rewrite Z.sub_diag. simpl.
    repeat split; lia.
  - simpl in Hrun. apply bind_inv in Hrun.
    destruct Hrun as [l1 [wa [Hs Hrun]]].
    apply learn_step_counters in Hs; [|assumption..].
    destruct Hs as [_ [Hc [N1 [I1 [M1 [L1 [P1 [R1 E1]]]]]]]].
    apply IH in Hrun; [|rewrite Hc; assumption | lia].
    rewrite Hc in Hrun.
    destruct Hrun as [Hc' [N2 [I2 [M2 [L2 [P2 [R2 E2]]]]]]].
    split; [congruence|]. split; [lia|]. split; [lia|]. split; [lia|].
    split; [lia|]. split; [lia|]. split; congruence.
Qed.

(** X13. [learn] checks its batch size only through the operations it
    uses it in: a negative size makes [np.zeros] raise before the first
    episode, a size of zero makes the first [episode_nr % batch_size], after
    the first episode has been collected, raise ZeroDivisionError; so a run
    of at least one pass that returns had a positive batch size. *)
Theorem learn_batch_size (w : World S) :
  ((batch_size (cfg w) < 0)%Z -> forall n, learn env n w = Err ValueError) /\
  (batch_size (cfg w) = 0%Z ->
   forall n tr wt,
     get_trajectory env (0 <? episode_max_length (cfg w))%nat w = Ok (tr, wt) ->
     learn env (Datatypes.S n) w = Err ZeroDivisionError) /\
  (forall n l w',
     learn env (Datatypes.S n) w = Ok (l, w') -> (0 < batch_size (cfg w))%Z).
Proof.
  split; [|split].
  - intros Hneg n. unfold learn, learn_init, bind, gets, raise.
    replace (batch_size (cfg w) <? 0)%Z with true
      by (symmetry; now apply Z.ltb_lt).
    reflexivity.
  - intros Hz n tr wt Hgt.
    destruct (get_trajectory_post S env _ w wt tr Hgt) as [steps Hpost].
    cbv zeta in Hpost.
    destruct Hpost as [_ [_ [_ [_ [_ [_ [_ Hself]]]]]]].
    destruct Hself as [_ [_ [_ [_ Hcfg]]]].
    unfold learn. unfold bind at 1.
    assert (Hi : exists l0, learn_init w = Ok (l0, w)).
    { unfold learn_init, bind, gets, ret. rewrite Hz. simpl. eauto. }
    destruct Hi as [l0 ->].
    simpl learn_loop. unfold bind at 1. unfold learn_step.
    unfold bind at 1. unfold gets at 1. unfold bind at 1. rewrite Hgt.
    unfold learn_update, bind, gets, py_mod. rewrite Hcfg, Hz. reflexivity.
  - intros n l w' Hrun. unfold learn in Hrun.
    apply bind_inv in Hrun. destruct Hrun as [l0 [w0 [Hi Hrun]]].
    apply learn_init_inv in Hi. destruct Hi as [Hbs [-> [Hnr _]]].
    simpl in Hrun. apply bind_inv in Hrun.
    destruct Hrun as [l1 [wa [Hs _]]].
    apply learn_step_counters in Hs; [tauto | assumption | lia].
Qed.

(** X14. The counters of [learn]: after [n] passes the episode counter is
    [n], the iteration counter is the number of completed batches
    [n // batch_size], one mean reward has been recorded and one progress
    report printed per completed batch, and both ring buffers still have
    [batch_size] entries. *)
Theorem learn_counters (n : nat) (w w' : World S) (l : locals) :
  learn env n w = Ok (l, w') ->
  episode_nr l = Z.of_nat n /\
  iteration l = (Z.of_nat n / batch_size (cfg w))%Z /\
  Z.of_nat (length (mean_rewards l)) = iteration l /\
  count_prints (trace w') =
  (count_prints (trace w) + Z.to_nat (iteration l))%nat /\
  Z.of_nat (length (episode_rewards l)) = batch_size (cfg w) /\
  Z.of_nat (length (episode_lengths l)) = batch_size (cfg w) /\
  cfg w' = cfg w.
Proof.
  intros Hrun. unfold learn in Hrun.
  apply bind_inv in Hrun. destruct Hrun as [l0 [w0 [Hi Hrun]]].
  apply learn_init_inv in Hi.
  destruct Hi as [Hbs [-> [Hnr [Hit [Hm [Hr Hl]]]]]].
  apply learn_loop_counters in Hrun; [|assumption | lia].
  rewrite Hnr, Hit, Hm, Hr, Hl, !repeat_length in Hrun.
  rewrite Zdiv_0_l in Hrun.
  simpl in Hrun.
  destruct Hrun as [Hc [N [I [M [L [P [R E]]]]]]].
  rewrite N in I.
  split; [lia|]. split; [lia|]. split; [lia|].
  split; [rewrite P; f_equal; f_equal; lia|].
  split; [lia|]. split; [lia | exact Hc].
Qed.

(** X15. The two ring buffers of [learn]: a pass writes the episode's
    reward sum and its length at index [episode_nr % batch_size] and leaves
    every other entry as it was; at the end of a batch the mean recorded is
    the mean of the buffer that already holds this episode. *)
Theorem learn_update_ring_buffers (tr : trajectory) (l l' : locals)
    (w w' : World S) :
  learn_update tr l w = Ok (l', w') ->
  (0 < batch_size (cfg w))%Z -> (0 <= episode_nr l)%Z ->
  let i := Z.to_nat (episode_nr l mod batch_size (cfg w)) in
  (i < length (episode_rewards l))%nat /\
  (i < length (episode_lengths l))%nat /\
  nth i (episode_rewards l') fzero = np_sum (t_reward tr) /\
  nth i (episode_lengths l') fzero = Fin (INR (length (t_reward tr))) /\
  (forall j, j <> i ->
     nth j (episode_rewards l') fzero = nth j (episode_rewards l) fzero /\
     nth j (episode_lengths l') fzero = nth j (episode_lengths l) fzero) /\
  (((episode_nr l + 1) mod batch_size (cfg w) = 0)%Z ->
   mean_rewards l' = mean_rewards l ++ [np_mean (episode_rewards l')]).
Proof.
  intros Hup Hbs Hnr i.
  apply learn_update_inv in Hup.
  destruct Hup as [_ [_ [_ [Her [Hel Hcase]]]]].
  pose proof (Z.mod_pos_bound (episode_nr l) (batch_size (cfg w)) Hbs) as Hb.
  apply (set_item_z_inv _ _ _ _ fzero) in Her; [|lia].
  apply (set_item_z_inv _ _ _ _ fzero) in Hel; [|lia].
  destruct Her as [R1 [_ [R3 R4]]]. destruct Hel as [L1 [_ [L3 L4]]].
  split; [exact R1|]. split; [exact L1|]. split; [exact R3|].
  split; [exact L3|]. split.
  - intros j Hj. split; [now apply R4 | now apply L4].
  - intros Hz. apply Z.eqb_eq in Hz. rewrite Hz in Hcase. tauto.
Qed.

(** X16. [learn] has no render argument and passes [episode_max_length]
    where [get_trajectory] expects its flag: in every pass with a positive
    cap the environment is reset once, a render call follows every step
    that does not end the episode, and the rest of the pass makes no
    environment call. *)
Theorem learn_step_renders (l l' : locals) (w w' : World S) :
  learn_step env l w = Ok (l', w') ->
  (0 < episode_max_length (cfg w))%nat ->
  exists (steps : list (nat * bool)) (evs : list event),
    trace w' = trace w ++ (EvReset :: episode_events true steps) ++ evs /\
    (0 < length steps <= episode_max_length (cfg w))%nat /\
    count_renders (episode_events true steps) =
    length (filter negb (map snd steps)) /\
    count_steps evs = 0%nat /\ count_renders evs = 0%nat /\
    ~ In EvReset evs.
Proof.
  intros Hs Hmax.
  apply learn_step_inv in Hs. destruct Hs as [tr [wt [Hgt Hup]]].
  replace (0 <? episode_max_length (cfg w))%nat with true in Hgt
    by (symmetry; now apply Nat.ltb_lt).
  destruct (get_trajectory_post S env _ w wt tr Hgt) as [steps Hpost].
  cbv zeta in Hpost.
  destruct Hpost as [Htrace [_ [_ [_ [_ [_ [Hd _]]]]]]].
  apply learn_update_inv in Hup.
  destruct Hup as [_ [_ [_ [_ [_ Hcase]]]]].
  exists steps.
  assert (Hlen : (0 < length steps <= episode_max_length (cfg w))%nat)
    by (destruct Hd as [[_ Hd]|[_ Hd]]; lia).
  destruct ((episode_nr l + 1) mod batch_size (cfg wt) =? 0)%Z.
  - destruct Hcase as [_ [_ [_ Htr]]].
    eexists. split; [rewrite Htr, Htrace, <- app_assoc; reflexivity|].
    split; [exact Hlen|].
    split; [apply (count_renders_episode_events true)|].
    destruct ((episode_nr l + 1) mod draw_frequency (cfg wt) =? 0)%Z;
      (split; [reflexivity|]; split; [reflexivity|]);
      simpl; intros [F|F]; try discriminate; try tauto.
    destruct F as [F|F]; [discriminate | tauto].
  - destruct Hcase as [_ [_ ->]].
    exists []. split; [rewrite Htrace, app_nil_r; reflexivity|].
    split; [exact Hlen|].
    split; [apply (count_renders_episode_events true)|].
    split; [reflexivity|]. split; [reflexivity|]. intros [].
Qed.

End LearnMore.

(** ** The RMSProp update of [learn] *)

Section RMSProp.

Variable S : Type.
Variables O H A : nat.

Local Open Scope R_scope.

Lemma Rsign_pos (r : R) : 0 < r -> Rsign r = Gt.
Proof.
  intros Hr. unfold Rsign.
  destruct (Rlt_dec r 0); [lra|]. destruct (Rlt_dec 0 r); [reflexivity | lra].
Qed.

Lemma fle_zero_inv (c : npfloat) :
  fle fzero c = true -> c = PInf \/ exists x, c = Fin x /\ 0 <= x.
Proof.
  destruct c as [x| | |]; simpl; intros Hc; try discriminate.
  - right. exists x. split; [reflexivity|].
    destruct (Rle_dec 0 x); [assumption | discriminate].
  - now left.
Qed.

Lemma fle_zero_Fin (x : R) : 0 <= x -> fle fzero (Fin x) = true.
Proof. intros Hx. simpl. destruct (Rle_dec 0 x); [reflexivity | lra]. Qed.

Lemma flt_zero_Fin (x : R) : 0 < x -> flt fzero (Fin x) = true.
Proof. intros Hx. simpl. destruct (Rlt_dec 0 x); [reflexivity | lra]. Qed.

(** The square of a value that is not NaN is not negative. *)
Lemma fmul_square (g : npfloat) : g <> NaN -> fle fzero (fmul g g) = true.
Proof.
  destruct g as [y| | |]; intros Hg; try reflexivity.
  - apply fle_zero_Fin. nra.
  - congruence.
Qed.

Lemma fmul_pos_nonneg (d : R) (c : npfloat) :
  0 < d -> fle fzero c = true -> fle fzero (fmul (Fin d) c) = true.
Proof.
  intros Hd Hc. destruct (fle_zero_inv c Hc) as [->|[x [-> Hx]]].
  - simpl. now rewrite (Rsign_pos d Hd).
  - apply fle_zero_Fin. nra.
Qed.

Lemma fadd_nonneg (x y : npfloat) :
  fle fzero x = true -> fle fzero y = true -> fle fzero (fadd x y) = true.
Proof.
  intros Hx Hy.
  destruct (fle_zero_inv x Hx) as [->|[a [-> Ha]]];
    destruct (fle_zero_inv y Hy) as [->|[b [-> Hb]]]; try reflexivity.
  apply fle_zero_Fin. lra.
Qed.

(** One entry of the cache and of the divisor of lines 151-154. *)
Lemma rmsprop_entry (d : R) (c g : npfloat) :
  0 < d < 1 -> fle fzero c = true -> g <> NaN ->
  fle fzero (fadd (fmul (Fin d) c) (fmul (fsub fone (Fin d)) (fmul g g)))
  = true /\
  flt fzero
    (fadd (fsqrt (fadd (fmul (Fin d) c)
                       (fmul (fsub fone (Fin d)) (fmul g g)))) epsilon)
  = true.
Proof.
  intros Hd Hc Hg.
  assert (Hc' : fle fzero (fadd (fmul (Fin d) c)
                             (fmul (fsub fone (Fin d)) (fmul g g))) = true).
  { apply fadd_nonneg.
    - apply fmul_pos_nonneg; [lra | exact Hc].
    - change (fsub fone (Fin d)) with (Fin (1 + - d)).
      apply fmul_pos_nonneg; [lra | now apply fmul_square]. }
  split; [exact Hc'|].
  destruct (fle_zero_inv _ Hc') as [->|[x [-> Hx]]].
  - reflexivity.
  - rewrite fsqrt_Fin by exact Hx. unfold epsilon. simpl fadd.
    apply flt_zero_Fin. pose proof (sqrt_pos x). lra.
Qed.

Lemma rmsprop_next_nonneg (d : R) (cache g : ndarray) (n m : nat) :
  has_shape cache n m -> has_shape g n m ->
  0 < d < 1 -> nonneg_array cache -> no_nan_array g ->
  nonneg_array (rmsprop_next (Fin d) cache g) /\
  forall i j, (i < n)%nat -> (j < m)%nat ->
    flt fzero (fadd (fsqrt (get (rmsprop_next (Fin d) cache g) i j)) epsilon)
    = true.
Proof.
  intros Hc Hg Hd Nc Ng.
  pose proof Hc as [_ [Rc Cc]]. pose proof Hg as [_ [Rg Cg]].
  assert (E : forall i j, (i < n)%nat -> (j < m)%nat ->
            fle fzero (get (rmsprop_next (Fin d) cache g) i j) = true /\
            flt fzero (fadd (fsqrt (get (rmsprop_next (Fin d) cache g) i j))
                            epsilon) = true).
  { intros i j Hi Hj.
    rewrite (get_rmsprop_next _ cache g n m i j Hc Hg Hi Hj).
    apply rmsprop_entry; [exact Hd | apply Nc; lia | apply Ng; lia]. }
  split.
  - intros i j Hi Hj.
    pose proof (shape_rmsprop_next (Fin d) cache g n m Hc Hg) as [_ [Rn Cn]].
    apply E; lia.
  - intros i j Hi Hj. now apply E.
Qed.

(** X17. The RMSProp caches at the end of a batch, with a decay rate
    strictly between 0 and 1: when no entry of a cache is negative or NaN
    and no entry of an accumulated gradient is NaN, [batch_update] does not
    raise, the new caches again have no negative and no NaN entry (so
    [np.sqrt] is never applied to a negative number), and every divisor
    [sqrt(cache) + 1e-5] is strictly positive: no weight is divided by
    zero. *)
Theorem batch_update_caches_nonneg (l : locals) (w : World S) (d : R) :
  has_shape (w1 w) O H -> has_shape (w2 w) H A ->
  has_shape (gradient1 l) O H -> has_shape (gradient2 l) H A ->
  has_shape (rmsprop1 l) O H -> has_shape (rmsprop2 l) H A ->
  draw_frequency (cfg w) <> 0%Z ->
  decay_rate (cfg w) = Fin d -> 0 < d < 1 ->
  nonneg_array (rmsprop1 l) -> nonneg_array (rmsprop2 l) ->
  no_nan_array (gradient1 l) -> no_nan_array (gradient2 l) ->
  exists l' w',
    batch_update l w = Ok (l', w') /\
    has_shape (rmsprop1 l') O H /\ has_shape (rmsprop2 l') H A /\
    nonneg_array (rmsprop1 l') /\ nonneg_array (rmsprop2 l') /\
    (forall i j, (i < O)%nat -> (j < H)%nat ->
       flt fzero (fadd (fsqrt (get (rmsprop1 l') i j)) epsilon) = true) /\
    (forall j k, (j < H)%nat -> (k < A)%nat ->
       flt fzero (fadd (fsqrt (get (rmsprop2 l') j k)) epsilon) = true).
Proof.
  intros W1 W2 G1 G2 R1 R2 Hdf Ed Hd N1 N2 F1 F2.
  pose proof (batch_update_run S O H A l w W1 W2 G1 G2 R1 R2 Hdf) as Hrun.
  cbv zeta in Hrun. rewrite Ed in Hrun.
  destruct (rmsprop_next_nonneg d _ _ O H R1 G1 Hd N1 F1) as [P1 D1].
  destruct (rmsprop_next_nonneg d _ _ H A R2 G2 Hd N2 F2) as [P2 D2].
  eexists _, _. split; [exact Hrun|]. simpl.
  split; [now apply shape_rmsprop_next|].
  split; [now apply shape_rmsprop_next|].
  split; [exact P1|]. split; [exact P2|]. split; [exact D1 | exact D2].
Qed.

End RMSProp.

(** ** [build_network] *)

Section BuildNetwork.

Variable S : Type.
Variables O H A : nat.

Local Open Scope R_scope.

Lemma finite_scaled (z : ndarray) (n m : nat) (c : R) :
  has_shape z n m -> finite_array z -> 0 < c ->
  has_shape (map_arr (fun x => fdiv x (fsqrt (Fin c))) z) n m /\
  forall i j, (i < n)%nat -> (j < m)%nat ->
    get (map_arr (fun x => fdiv x (fsqrt (Fin c))) z) i j =
    Fin (to_R (get z i j) / sqrt c).
Proof.
  intros Hz Fz Hc. split; [now apply shape_map_arr|].
  intros i j Hi Hj. pose proof Hz as [Wz [Rz Cz]].
  rewrite get_map_arr by (assumption || lia).
  rewrite (Fz i j) by lia. rewrite fsqrt_Fin by lra.
  rewrite fdiv_Fin; [reflexivity|].
  pose proof (sqrt_lt_R0 c Hc). lra.
Qed.

(** X18. [build_network], for finite samples of the shapes asked for, at
    least one hidden unit and at least one action: the weights become the
    samples divided by [sqrt(n_hidden_units)] and by [sqrt(nA)], they are
    finite and of the shapes [nO x n_hidden_units] and [n_hidden_units x nA],
    and nothing else of the learner changes. *)
Theorem build_network_spec (z1 z2 : ndarray) (g : RandomState) (w : World S) :
  has_shape z1 O H -> has_shape z2 H A ->
  finite_array z1 -> finite_array z2 ->
  n_hidden_units (cfg w) = H -> nA w = A -> (0 < H)%nat -> (0 < A)%nat ->
  exists w',
    build_network z1 z2 g w = Ok (tt, w') /\
    has_shape (w1 w') O H /\ has_shape (w2 w') H A /\
    (forall i j, (i < O)%nat -> (j < H)%nat ->
       get (w1 w') i j = Fin (to_R (get z1 i j) / sqrt (INR H))) /\
    (forall j k, (j < H)%nat -> (k < A)%nat ->
       get (w2 w') j k = Fin (to_R (get z2 j k) / sqrt (INR A))) /\
    nO w' = nO w /\ nA w' = nA w /\ cfg w' = cfg w /\ trace w' = trace w /\
    env_st w' = env_st w /\ rng w' = g.
Proof.
  intros Hz1 Hz2 F1 F2 EH EA HH HA.
  assert (PH : 0 < INR H) by (apply lt_0_INR; lia).
  assert (PA : 0 < INR A) by (apply lt_0_INR; lia).
  destruct (finite_scaled z1 O H (INR H) Hz1 F1 PH) as [S1 G1].
  destruct (finite_scaled z2 H A (INR A) Hz2 F2 PA) as [S2 G2].
  eexists. split.
  { unfold build_network, bind, gets, modify. simpl. rewrite EH, EA.
    reflexivity. }
  simpl.
  split; [exact S1|]. split; [exact S2|].
  split; [exact G1|]. split; [exact G2|].
  do 5 (split; [reflexivity|]). reflexivity.
Qed.

End BuildNetwork.

(** ** The worked instance, continued *)

Section InstanceMore.

Local Open Scope R_scope.

Ltac ex_shape :=
  split; [split; [reflexivity | repeat constructor] | split; reflexivity].

Ltac ex_entries :=
  let t := fresh "t" in let i := fresh "i" in
  intros t i ? ?;
  destruct t as [|[|t]]; destruct i as [|[|i]]; try lia; reflexivity.

Lemma ex_state_entries (t i : nat) :
  (t < 1)%nat -> (i < 2)%nat ->
  get (t_state ex_trajectory) t i = Fin (if (i =? 0)%nat then 1 else 0).
Proof. revert t i. ex_entries. Qed.

Lemma ex_x1_entries (t j : nat) :
  (t < 1)%nat -> (j < 1)%nat -> get (t_x1 ex_trajectory) t j = Fin 1.
Proof. revert t j. ex_entries. Qed.


Lemma ex_zeros_nonneg (a : ndarray) : nonneg_array (np_zeros_like a).
Proof.
  intros i j _ _. rewrite get_zeros_like. unfold fzero. simpl.
  destruct (Rle_dec 0 0); [reflexivity | lra].
Qed.

Lemma ex_finite_no_nan (a : ndarray) : finite_array a -> no_nan_array a.
Proof. intros Fa i j Hi Hj. rewrite (Fa i j Hi Hj). discriminate. Qed.

Lemma ex_good_batch (bs : Z) : good_learner (ex_world_batch bs) 2 1 2.
Proof.
  destruct ex_good as [HA [Hp [H1 [H2 [F1 [F2 Hr]]]]]].
  split; [reflexivity|]. split; [lia|]. split; [exact H1|].
  split; [exact H2|]. split; [exact F1|]. split; [exact F2 | exact Hr].
Qed.

(** Two passes of [learn] on the worked instance. *)
Lemma ex_learn_two : exists l w', learn ex_env 2 ex_world = Ok (l, w').
Proof.
  destruct (learn_step_result unit ex_env 2 1 2 ex_locals ex_world
              ex_env_benign ex_good ex_locals_wf ex_max_length ex_batch_size
              ex_draw_frequency)
    as [l1 [wa [evs1 [Hs1 [Hl1 [Hc1 [Hn1 [Ht1 [Hd1 Hi1]]]]]]]]].
  rewrite Hn1 in Hi1.
  change ((episode_nr ex_locals + 1) mod batch_size (cfg ex_world) =? 0)%Z
    with false in Hi1.
  destruct Hi1 as [Hi1 Hg1].
  destruct (learn_step_result unit ex_env 2 1 2 l1 wa ex_env_benign Hg1)
    as [l2 [wb [evs2 [Hs2 _]]]];
    try (rewrite Hc1; first [exact Hl1 | exact ex_max_length
                            | exact ex_batch_size | exact ex_draw_frequency]).
  exists l2, wb. unfold learn, bind.
  change (learn_init ex_world) with (Ok (ex_locals, ex_world)
                                     : result (locals * World unit)).
  simpl learn_loop. unfold bind. rewrite Hs1, Hs2. reflexivity.
Qed.

(** The instance of X3. *)
Lemma scale_state_spec_witness :
  (exists r,
     scale_state (map Fin [1; 2]) (mkBox (map Fin [0; 1]) (map Fin [3; 3]))
     = Ok (map Fin r) /\ length r = 2%nat) /\
  scale_state [Fin 1; Fin 2; Fin 3] (mkBox [Fin 0; Fin 1] [Fin 3; Fin 3])
  = Err ValueError.
Proof.
  destruct scale_state_spec as [H1 H2]. split.
  - destruct (H1 [1; 2] [0; 1] [3; 3] eq_refl) as [r [Hr [Hl _]]].
    exists r. split; [exact Hr | exact Hl].
  - apply H2; simpl; lia.
Defined.

(** The instance of X5: the scores [[1, 1]]. *)
Lemma random_with_probability_post_witness :
  exists a probs w',
    random_with_probability (map Fin [1; 1]) 2 ex_world = Ok ((a, probs), w') /\
    (a < 2)%nat /\
    probs = map (fun o => fdiv o (np_sum (map Fin [1; 1]))) (map Fin [1; 1]) /\
    (exists l, probs = map Fin l /\ length l = 2%nat /\
               (forall x, In x l -> 0 <= x) /\ Rabs (Rsum l - 1) <= atol) /\
    w' = set_rng (fun k => rng ex_world (Datatypes.S k)) ex_world.
Proof.
  destruct (random_with_probability_pos unit [1; 1] 2 ex_world) as [a [Hr _]].
  - lia.
  - reflexivity.
  - intros x [<-|[<-|[]]]; lra.
  - apply ex_rng_range.
  - eexists a, _, _. split; [exact Hr|].
    apply (random_with_probability_post unit _ 2 ex_world _ a _ Hr).
    apply ex_rng_range.
Defined.

(** The instance of X6: the state of the worked instance, and a state
    without entries. *)
Lemma forward_step_shapes_witness :
  (exists x1 output,
     forward_step (map Fin ex_obs) ex_world = Ok ((x1, output), ex_world) /\
     length x1 = 1%nat /\ length output = 2%nat /\
     forall i, flt (nth i x1 fzero) fzero = false) /\
  forward_step [] ex_world = Err ValueError.
Proof.
  split.
  - apply (proj1 (forward_step_shapes unit (map Fin ex_obs) ex_world)).
    split; reflexivity.
  - apply (proj2 (forward_step_shapes unit [] ex_world)).
    intros [E _]. discriminate E.
Defined.


(** The instance of X7: the error signal zero. *)
Lemma backward_step_zero_feedback_witness :
  exists change_w1 change_w2,
    backward_step (t_state ex_trajectory) (t_x1 ex_trajectory)
      (np_zeros_like ex_w2) ex_world = Ok ((change_w1, change_w2), ex_world) /\
    (forall i j, (i < 2)%nat -> (j < 1)%nat -> get change_w1 i j = fzero) /\
    (forall j k, (j < 1)%nat -> (k < 2)%nat -> get change_w2 j k = fzero).
Proof.
  apply (backward_step_zero_feedback unit _ _ _ ex_world 1 2 1 2
           (fun _ i => if (i =? 0)%nat then 1 else 0) (fun _ _ => 1)
           (fun _ _ => 1)).
  - ex_shape.
  - ex_shape.
  - ex_shape.
  - exact ex_w2_shape.
  - exact ex_state_entries.
  - exact ex_x1_entries.
  - exact ex_w2_entries.
  - intros t k _ _. apply get_zeros_like.
Defined.


(** The instance of X10. *)
Lemma get_trajectory_effects_witness :
  exists traj w',
    get_trajectory ex_env true ex_world = Ok (traj, w') /\
    w1 w' = w1 ex_world /\ w2 w' = w2 ex_world /\ nO w' = nO ex_world /\
    nA w' = nA ex_world /\ cfg w' = cfg ex_world /\
    forall i, rng w' i = rng ex_world (length (t_reward traj) + i)%nat.
Proof.
  destruct (get_trajectory_ok unit ex_env 2 1 2 true ex_world ex_env_benign
              ex_good) as [traj [w' [Hgt _]]].
  exists traj, w'. split; [exact Hgt|].
  exact (get_trajectory_effects unit ex_env true ex_world w' traj Hgt).
Defined.

(** The instance of X11. *)
Lemma get_trajectory_data_witness :
  exists traj w',
    get_trajectory ex_env true ex_world = Ok (traj, w') /\
    (0 < length (t_reward traj))%nat /\
    length (rows (t_prob traj)) = length (t_reward traj) /\
    Forall (fun a => (a < 2)%nat) (t_action traj) /\
    Forall (valid_probabilities 2) (rows (t_prob traj)) /\
    Forall (relu_row 1) (rows (t_x1 traj)).
Proof.
  destruct (get_trajectory_ok unit ex_env 2 1 2 true ex_world ex_env_benign
              ex_good) as [traj [w' [Hgt _]]].
  exists traj, w'. split; [exact Hgt|].
  destruct (get_trajectory_data unit ex_env true ex_world w' traj Hgt
              (fun k => proj2 (ex_rng_range k)))
    as [_ [Hp [_ [Hpos [Fa [Fp Fx]]]]]].
  split; [exact (Hpos ex_max_length)|]. split; [exact Hp|].
  split; [exact Fa|]. split; [exact Fp | exact Fx].
Defined.


(** The instance of X13: the batch sizes -1 and 0. *)
Lemma learn_batch_size_witness :
  learn ex_env 3 (ex_world_batch (-1)) = Err ValueError /\
  learn ex_env 3 (ex_world_batch 0) = Err ZeroDivisionError.
Proof.
  split.
  - apply (proj1 (learn_batch_size unit ex_env (ex_world_batch (-1)))).
    simpl. lia.
  - destruct (get_trajectory_ok unit ex_env 2 1 2 true (ex_world_batch 0)
                ex_env_benign (ex_good_batch 0)) as [traj [w' [Hgt _]]].
    apply (proj1 (proj2 (learn_batch_size unit ex_env (ex_world_batch 0)))
             eq_refl 2%nat traj w').
    exact Hgt.
Defined.

(** The instance of X14: two passes, one batch. *)
Lemma learn_counters_witness :
  exists l w',
    learn ex_env 2 ex_world = Ok (l, w') /\
    episode_nr l = 2%Z /\ iteration l = 1%Z /\
    length (mean_rewards l) = 1%nat /\ count_prints (trace w') = 1%nat.
Proof.
  destruct ex_learn_two as [l [w' Hrun]].
  exists l, w'. split; [exact Hrun|].
  destruct (learn_counters unit ex_env 2 ex_world w' l Hrun)
    as [Hn [Hi [Hm [Hp _]]]].
  change (Z.of_nat 2 / batch_size (cfg ex_world))%Z with 1%Z in Hi.
  rewrite Hi in Hm, Hp.
  split; [exact Hn|]. split; [exact Hi|]. split; [lia | exact Hp].
Defined.

(** The instance of X15: the second episode of a batch of two. *)
Lemma learn_update_ring_buffers_witness :
  exists l' w',
    learn_update ex_trajectory ex_locals_mid ex_world = Ok (l', w') /\
    nth 1 (episode_rewards l') fzero = np_sum [Fin 1] /\
    nth 1 (episode_lengths l') fzero = Fin (INR 1) /\
    nth 0 (episode_rewards l') fzero = fzero.
Proof.
  destruct (learn_update_result unit 2 1 2 ex_trajectory ex_locals_mid ex_world
              1 ltac:(lia) ex_trajectory_wf eq_refl ex_w1_shape ex_w2_shape
              ex_locals_mid_wf ex_batch_size ex_draw_frequency)
    as [c1 [c2 [l' [w' [_ [_ [_ [Hrun _]]]]]]]].
  exists l', w'. split; [exact Hrun|].
  destruct (learn_update_ring_buffers unit ex_trajectory ex_locals_mid l'
              ex_world w' Hrun ex_batch_size ltac:(simpl; lia))
    as [_ [_ [Hr [Hl [Ho _]]]]].
  split; [exact Hr|]. split; [exact Hl|].
  exact (proj1 (Ho 0%nat ltac:(discriminate))).
Defined.

(** The instance of X16: the first pass of the worked instance. *)
Lemma learn_step_renders_witness :
  exists l' w' (steps : list (nat * bool)) (evs : list event),
    learn_step ex_env ex_locals ex_world = Ok (l', w') /\
    trace w' = trace ex_world ++ (EvReset :: episode_events true steps) ++ evs /\
    (0 < length steps <= 1)%nat /\
    count_steps evs = 0%nat /\ count_renders evs = 0%nat.
Proof.
  destruct (learn_step_result unit ex_env 2 1 2 ex_locals ex_world
              ex_env_benign ex_good ex_locals_wf ex_max_length ex_batch_size
              ex_draw_frequency) as [l' [w' [_ [Hs _]]]].
  destruct (learn_step_renders unit ex_env ex_locals l' ex_world w' Hs
              ex_max_length) as [steps [evs [Ht [Hl [_ [Hc [Hr _]]]]]]].
  exists l', w', steps, evs.
  split; [exact Hs|]. split; [exact Ht|]. split; [exact Hl|].
  split; [exact Hc | exact Hr].
Defined.

(** The instance of X17: the first update, from caches zero and
    accumulated gradients of ones. *)
Lemma batch_update_caches_nonneg_witness :
  exists l' w',
    batch_update ex_locals_grad ex_world = Ok (l', w') /\
    nonneg_array (rmsprop1 l') /\ nonneg_array (rmsprop2 l') /\
    (forall i j, (i < 2)%nat -> (j < 1)%nat ->
       flt fzero (fadd (fsqrt (get (rmsprop1 l') i j)) epsilon) = true) /\
    (forall j k, (j < 1)%nat -> (k < 2)%nat ->
       flt fzero (fadd (fsqrt (get (rmsprop2 l') j k)) epsilon) = true).
Proof.
  destruct ex_good as [_ [_ [H1 [H2 [F1 [F2 _]]]]]].
  destruct (batch_update_caches_nonneg unit 2 1 2 ex_locals_grad ex_world
              (99 / 100)) as [l' [w' [Hrun [_ [_ [P1 [P2 [D1 D2]]]]]]]].
  - exact H1.
  - exact H2.
  - exact H1.
  - exact H2.
  - ex_shape.
  - ex_shape.
  - exact ex_draw_frequency.
  - reflexivity.
  - lra.
  - apply ex_zeros_nonneg.
  - apply ex_zeros_nonneg.
  - exact (ex_finite_no_nan _ F1).
  - exact (ex_finite_no_nan _ F2).
  - exists l', w'. split; [exact Hrun|]. split; [exact P1|].
    split; [exact P2|]. split; [exact D1 | exact D2].
Defined.

(** The instance of X18: the samples [ex_w1] and [ex_w2]. *)
Lemma build_network_spec_witness :
  exists w',
    build_network ex_w1 ex_w2 ex_rng ex_world = Ok (tt, w') /\
    has_shape (w1 w') 2 1 /\ has_shape (w2 w') 1 2 /\
    (forall j k, (j < 1)%nat -> (k < 2)%nat ->
       get (w2 w') j k = Fin (to_R (get ex_w2 j k) / sqrt (INR 2))).
Proof.
  destruct ex_good as [_ [_ [H1 [H2 [F1 [F2 _]]]]]].
  destruct (build_network_spec unit 2 1 2 ex_w1 ex_w2 ex_rng ex_world
              H1 H2 F1 F2 eq_refl eq_refl ltac:(lia) ltac:(lia))
    as [w' [Hb [S1 [S2 [_ [E2 _]]]]]].
  exists w'. split; [exact Hb|]. split; [exact S1|]. split; [exact S2 | exact E2].
Defined.

End InstanceMore.
